(** * novotechno-collections: a shallow embedding of the coordination core

    The development follows the Python sources module by module:

    - [Scheduler]      src/collections/scheduler.py  (CollectionScheduler)
    - [RateLimiter]    src/auth/rate_limiter.py      (TokenBucketRateLimiter)
    - [TokenValidator] src/auth/token_validator.py, src/auth/token_cache.py
    - [InvoiceState]   src/state/invoice_state.py    (InvoiceState)
    - [PaymentChecker] src/filesystem/payment_checker.py
    - [PdfParser]      src/collections/pdf_parser.py (route_by_confidence)
    - [Ledger]         src/state/ledger.py           (Ledger)
    - [GraphEmailSender] src/collections/email_sender.py (GraphEmailSender)
    - [PaymentDetector]  src/filesystem/payment_detector.py (PaymentEventHandler)

    Conventions.  Python dictionaries used as maps are [gmap]s, lists are
    lists, exceptions are values of a sum type and mutable objects are
    threaded explicitly.  Readings of [time.time()] and float amounts are
    taken as the rational numbers they denote ([Q]); [datetime] values are
    integers counting microseconds. *)

From Stdlib Require Import ZArith QArith Qabs Qround Lia Lqa List String Ascii Bool.
From Stdlib Require Import DecimalString.
From stdpp Require Import gmap strings list pretty.

#[global] Set Warnings "-register-all".
#[local] Open Scope Z_scope.

(* ===================================================================== *)
(** ** scheduler.py *)
(* ===================================================================== *)

Module Scheduler.

(** A [datetime] is a number of microseconds; [timedelta.days] is the
    floor of the difference divided by one day ([Z.div] rounds down, as
    the normalised [timedelta] does). *)
Definition MICROSECONDS_PER_DAY : Z := 86400000000.

Definition timedelta_days (delta : Z) : Z := delta / MICROSECONDS_PER_DAY.

(** The invoice dictionaries handed out by the state manager.  [due_date]
    is the value [datetime.fromisoformat] parses; [reminder_log] holds the
    rule ids already recorded for the invoice. *)
Record Invoice := mkInvoice {
  number : string;
  client : string;
  email : string;
  due_date : Z;
  amount : Q;
  reminder_log : list string
}.

(** One entry of [REMINDER_RULES]: a rule carries either the key
    [days_before_due] or the key [days_after_due]. *)
Record ReminderRule := mkRule {
  days_before_due : option Z;
  days_after_due : option Z;
  template : string
}.

Definition REMINDER_RULES : list (string * ReminderRule) :=
  [ ("reminder_1",   mkRule (Some 3) None "reminder_3d");
    ("reminder_2",   mkRule (Some 0) None "reminder_due");
    ("overdue_1",    mkRule None (Some 5) "overdue_5d");
    ("overdue_2",    mkRule None (Some 7) "overdue_7d");
    ("final_notice", mkRule None (Some 10) "final_notice");
    ("escalation",   mkRule None (Some 14) "escalation") ].

(** The dictionaries appended to [reminders]. *)
Record Reminder := mkReminder {
  r_invoice : Invoice;
  r_rule : string;
  r_template : string;
  r_days_until_due : option Z;
  r_days_overdue : option Z
}.

Definition days_until_due (now : Z) (invoice : Invoice) : Z :=
  timedelta_days (due_date invoice - now).

(** The [if ... elif ...] of the inner loop, for one invoice and one rule. *)
Definition rule_reminder (invoice : Invoice) (d : Z)
    (entry : string * ReminderRule) : list Reminder :=
  let '(rule_name, rule) := entry in
  match days_before_due rule with
  | Some k =>
      if d =? k then
        [mkReminder invoice rule_name (template rule) (Some d) None]
      else
        match days_after_due rule with
        | Some j =>
            if d =? - j then
              [mkReminder invoice rule_name (template rule) None (Some (Z.abs d))]
            else []
        | None => []
        end
  | None =>
      match days_after_due rule with
      | Some j =>
          if d =? - j then
            [mkReminder invoice rule_name (template rule) None (Some (Z.abs d))]
          else []
      | None => []
      end
  end.

Definition invoice_reminders (now : Z) (invoice : Invoice) : list Reminder :=
  flat_map (rule_reminder invoice (days_until_due now invoice)) REMINDER_RULES.

(** [get_due_reminders], over the list [self.state.get_all_unpaid()]. *)
Definition get_due_reminders (now : Z) (unpaid : list Invoice) : list Reminder :=
  flat_map (invoice_reminders now) unpaid.

(** The injected collaborators.  [self.state] offers four methods; the
    sender one, which returns, raises [RateLimitExceeded] or raises
    another exception. *)
Class StateManager (St : Type) := {
  get_all_unpaid : St -> list Invoice;
  is_paused : St -> string -> bool;
  record_email_sent : St -> string -> string -> string -> St;
  record_email_failed : St -> string -> string -> string -> string -> St
}.

Inductive SendResult :=
| Returned
| RaisedRateLimitExceeded
| RaisedException (msg : string).

Class EmailSender (Sd : Type) := {
  send_collection_reminder : Sd -> string -> string -> Invoice -> SendResult * Sd
}.

Record Counts := mkCounts { sent : nat; failed : nat; rate_limited : nat }.

(** [reminders[:batch_size]]: a negative bound counts from the end. *)
Definition slice_to {A} (bound : Z) (l : list A) : list A :=
  if bound <? 0 then firstn (Z.to_nat (Z.of_nat (length l) + bound)) l
  else firstn (Z.to_nat bound) l.

Section SendReminders.
Context {St Sd : Type} `{StateManager St} `{EmailSender Sd}.

(** The [for] loop of [send_reminders]: [continue] on a paused client,
    [break] on [RateLimitExceeded], [failed += 1] on anything else. *)
Fixpoint send_loop (reminders : list Reminder) (st : St) (m : Sd) (c : Counts)
    : Counts * St * Sd :=
  match reminders with
  | [] => (c, st, m)
  | reminder :: rest =>
      let invoice := r_invoice reminder in
      if is_paused st (client invoice) then send_loop rest st m c
      else
        match send_collection_reminder m (email invoice) (r_template reminder) invoice with
        | (Returned, m') =>
            let st' := record_email_sent st (client invoice) (number invoice)
                         (r_rule reminder) in
            send_loop rest st' m' (mkCounts (S (sent c)) (failed c) (rate_limited c))
        | (RaisedRateLimitExceeded, m') =>
            (mkCounts (sent c) (failed c) (S (rate_limited c)), st, m')
        | (RaisedException msg, m') =>
            let st' := record_email_failed st (client invoice) (number invoice)
                         (r_rule reminder) msg in
            send_loop rest st' m' (mkCounts (sent c) (S (failed c)) (rate_limited c))
        end
  end.

Definition send_reminders (now : Z) (batch_size : Z) (st : St) (m : Sd)
    : Counts * St * Sd :=
  let reminders := get_due_reminders now (get_all_unpaid st) in
  send_loop (slice_to batch_size reminders) st m (mkCounts 0 0 0).

(** A sender with [n] sends left in its window: it returns [n] times and
    then raises [RateLimitExceeded]. *)
Fixpoint sends_left (n : nat) (m : Sd) : Prop :=
  match n with
  | O => forall to tpl inv, exists m',
        send_collection_reminder m to tpl inv = (RaisedRateLimitExceeded, m')
  | S k => forall to tpl inv, exists m',
        send_collection_reminder m to tpl inv = (Returned, m') /\ sends_left k m'
  end.

Definition counts_of (out : Counts * St * Sd) : Counts := fst (fst out).

Definition nobody_paused (st : St) : Prop := forall c, is_paused st c = false.
End SendReminders.

(** The state manager of the unit tests: fixed answers, calls recorded. *)
Record MockState := mkMock {
  mock_unpaid : list Invoice;
  mock_paused : list string;
  mock_sent : list (string * string * string);
  mock_failed : list (string * string * string * string)
}.

#[export] Instance MockStateManager : StateManager MockState := {
  get_all_unpaid s := mock_unpaid s;
  is_paused s c := bool_decide (c ∈ mock_paused s);
  record_email_sent s c n r :=
    mkMock (mock_unpaid s) (mock_paused s) (mock_sent s ++ [(c, n, r)]) (mock_failed s);
  record_email_failed s c n r e :=
    mkMock (mock_unpaid s) (mock_paused s) (mock_sent s) (mock_failed s ++ [(c, n, r, e)])
}.

(** The sender of scripts/collections-emailer.py: [sent_count] and a
    ceiling of twenty. *)
Definition stub_send (sent_count : nat) : SendResult * nat :=
  if (20 <=? sent_count)%nat then (RaisedRateLimitExceeded, sent_count)
  else (Returned, S sent_count).

#[export] Instance StubSender : EmailSender nat := {
  send_collection_reminder sent_count _ _ _ := stub_send sent_count
}.

(** The spec's reading of a rule: the days until due equal the rule's
    offset, [days_before_due] or minus [days_after_due]. *)
Definition offset_due (rule : ReminderRule) (d : Z) : bool :=
  match days_before_due rule with
  | Some k =>
      (d =? k) || match days_after_due rule with
                  | Some j => d =? - j
                  | None => false
                  end
  | None =>
      match days_after_due rule with
      | Some j => d =? - j
      | None => false
      end
  end.

(** The same invoice with another [reminder_log]. *)
Definition with_reminder_log (log : list string) (invoice : Invoice) : Invoice :=
  mkInvoice (number invoice) (client invoice) (email invoice) (due_date invoice)
    (amount invoice) log.

(** Worked examples: invoices due three days after [noon]. *)
Definition noon : Z := 1770811200000000.

Definition due_in_three_days (k : nat) (log : list string) : Invoice :=
  mkInvoice ("INV-" +:+ pretty k) ("Client " +:+ pretty k)
    ("client" +:+ pretty k +:+ "@example.com")
    (noon + 3 * MICROSECONDS_PER_DAY) (1000 # 1) log.

Definition twenty_one_due : MockState :=
  mkMock (map (fun k => due_in_three_days k []) (seq 0 21)) [] [] [].

(** A reminder whose client is not paused in state [st]. *)
Section Batch.
Context {St : Type} `{StateManager St}.

Definition unpaused (st : St) (r : Reminder) : bool :=
  negb (is_paused st (client (r_invoice r))).
End Batch.

(** Worked example: two invoices due in three days, the client of the
    first one paused. *)
Definition one_paused : MockState :=
  mkMock [due_in_three_days 1 []; due_in_three_days 2 []] ["Client 1"] [] [].


End Scheduler.

(* ===================================================================== *)
(** ** auth/rate_limiter.py *)
(* ===================================================================== *)

Module RateLimiter.

#[local] Open Scope Q_scope.

(** Comparisons of clock readings, as booleans. *)
Definition Qltb (x y : Q) : bool := negb (Qle_bool y x).

Record RateLimitConfig := mkConfig {
  max_per_cycle : Z;
  cycle_seconds : Z;
  max_per_day : Z;
  day_seconds : Z
}.

Definition default_config : RateLimitConfig := mkConfig 20 60 100 86400.

(** The fields of [TokenBucketRateLimiter] (the mutex apart). *)
Record Limiter := mkLimiter {
  config : RateLimitConfig;
  _daily_tokens : Z;
  _daily_last_refill : Q;
  _cycle_queue : list Q;
  _cycle_window_start : Q
}.

(** [__init__]; [now] is the reading of [time.time()]. *)
Definition init (cfg : RateLimitConfig) (now : Q) : Limiter :=
  mkLimiter cfg (max_per_day cfg) now [] now.

Definition _refill_daily_tokens (now : Q) (l : Limiter) : Limiter :=
  if Qle_bool (inject_Z (day_seconds (config l))) (now - _daily_last_refill l)
  then mkLimiter (config l) (max_per_day (config l)) now
         (_cycle_queue l) (_cycle_window_start l)
  else l.

(** The [while] loop of [_cleanup_cycle_queue]: [popleft] as long as the
    head is older than the cutoff. *)
Fixpoint popleft_expired (cutoff_time : Q) (queue : list Q) : list Q :=
  match queue with
  | [] => []
  | t :: rest =>
      if Qltb t cutoff_time then popleft_expired cutoff_time rest else queue
  end.

Definition _cleanup_cycle_queue (now : Q) (l : Limiter) : Limiter :=
  let cutoff_time := now - inject_Z (cycle_seconds (config l)) in
  let queue := popleft_expired cutoff_time (_cycle_queue l) in
  mkLimiter (config l) (_daily_tokens l) (_daily_last_refill l) queue
    (match queue with [] => now | _ => _cycle_window_start l end).

Definition _can_consume_cycle_token (now : Q) (l : Limiter) : bool * Limiter :=
  let l' := _cleanup_cycle_queue now l in
  ((Z.of_nat (length (_cycle_queue l')) <? max_per_cycle (config l'))%Z, l').

Definition _consume_cycle_token (now : Q) (l : Limiter) : Limiter :=
  mkLimiter (config l) (_daily_tokens l) (_daily_last_refill l)
    (_cycle_queue l ++ [now])
    (match _cycle_queue l with [] => now | _ => _cycle_window_start l end).

Definition take_daily_token (l : Limiter) : Limiter :=
  mkLimiter (config l) (_daily_tokens l - 1)%Z (_daily_last_refill l)
    (_cycle_queue l) (_cycle_window_start l).

(** [acquire(block=False)], which is [try_acquire()].  The body runs under
    the mutex; the readings of [time.time()] inside one call are taken as
    one instant [now].  The [and] short-circuits: with an empty daily
    bucket the cycle queue is not cleaned. *)
Definition try_acquire (now : Q) (l : Limiter) : bool * Limiter :=
  let l1 := _refill_daily_tokens now l in
  if (0 <? _daily_tokens l1)%Z then
    let '(can, l2) := _can_consume_cycle_token now l1 in
    if can then (true, _consume_cycle_token now (take_daily_token l2))
    else (false, l2)
  else (false, l1).

(** A run of non-blocking acquisitions at the given instants. *)
Fixpoint acquire_all (times : list Q) (l : Limiter) : list bool * Limiter :=
  match times with
  | [] => ([], l)
  | t :: rest =>
      let '(ok, l') := try_acquire t l in
      let '(oks, l'') := acquire_all rest l' in
      (ok :: oks, l'')
  end.

(** The spec's reading of the cycle bound: the acquisition timestamps that
    lie within the rolling window ending at [now]. *)
Definition stamps_in_window (now : Q) (l : Limiter) : list Q :=
  List.filter (fun t => Qle_bool (now - inject_Z (cycle_seconds (config l))) t)
    (_cycle_queue l).

(** The spec's reading of the daily bound: the budget once a due refill is
    applied. *)
Definition daily_budget (now : Q) (l : Limiter) : Z :=
  _daily_tokens (_refill_daily_tokens now l).

(** Timestamps are appended in clock order, so the queue of a limiter
    driven by a clock that does not run backwards is in non-decreasing
    order and lies in the past. *)
Fixpoint nondecreasing (queue : list Q) : Prop :=
  match queue with
  | [] => True
  | t :: rest => Forall (fun u => t <= u) rest /\ nondecreasing rest
  end.

Definition clock_ordered (now : Q) (l : Limiter) : Prop :=
  nondecreasing (_cycle_queue l) /\ Forall (fun t => t <= now) (_cycle_queue l).

(** A limiter of the default configuration in the course of a burst over
    the window from [lo] to [hi]: its queue holds [k] timestamps of that
    window behind entries that expired before it, and the daily bucket
    holds at least [d] tokens. *)
Definition in_burst (lo hi : Q) (k : nat) (d : Z) (l : Limiter) : Prop :=
  config l = default_config /\
  exists olds news, _cycle_queue l = olds ++ news /\
    Forall (fun t => t < lo - 60) olds /\
    Forall (fun t => lo <= t /\ t <= hi) news /\
    length news = k /\ (d <= _daily_tokens l)%Z.

(** The dictionary [get_status] returns. *)
Record Status := mkStatus {
  daily_remaining : Z;
  daily_limit : Z;
  cycle_remaining : Z;
  cycle_limit : Z;
  cycle_window_age : Q;
  cycle_queue_size : Z
}.

(** [get_status]: the queue is cleaned and the daily bucket refilled
    before the figures are read; as in [try_acquire], the readings of
    [time.time()] inside the call are one instant [now]. *)
Definition get_status (now : Q) (l : Limiter) : Status * Limiter :=
  let l' := _refill_daily_tokens now (_cleanup_cycle_queue now l) in
  (mkStatus (_daily_tokens l') (max_per_day (config l'))
     (max_per_cycle (config l') - Z.of_nat (length (_cycle_queue l')))%Z
     (max_per_cycle (config l'))
     (now - _cycle_window_start l')
     (Z.of_nat (length (_cycle_queue l'))),
   l').

(** The number of acquisitions granted in a run. *)
Definition granted (oks : list bool) : nat := length (List.filter (fun ok => ok) oks).

(** [ExponentialBackoff]: its fields (the mutex apart); the delays are
    floats. *)
Record Backoff := mkBackoff {
  base_delay : Q;
  max_delay : Q;
  _attempts : nat;
  _last_reset : Q
}.

Definition new_backoff (base_delay max_delay now : Q) : Backoff :=
  mkBackoff base_delay max_delay 0 now.

Definition reset (now : Q) (b : Backoff) : Backoff :=
  mkBackoff (base_delay b) (max_delay b) 0 now.

(** [min(x, y)] *)
Definition min_ (x y : Q) : Q := if Qltb y x then y else x.

(** [get_delay]: the delay, or [None] for the [OverflowError] of
    converting [2 ** self._attempts] to a float, which Python raises from
    [2 ** 1024] on; the counter and the stamp are then as they were.
    [now] is the clock reading compared with [_last_reset], [stamp] the
    one stored at the end. *)
Definition get_delay (now stamp : Q) (b : Backoff) : option Q * Backoff :=
  let attempts := if Qltb 60 (now - _last_reset b) then 0%nat else _attempts b in
  if (1024 <=? attempts)%nat then
    (None, mkBackoff (base_delay b) (max_delay b) attempts (_last_reset b))
  else
    (Some (min_ (base_delay b * inject_Z (2 ^ Z.of_nat attempts)) (max_delay b)),
     mkBackoff (base_delay b) (max_delay b) (S attempts) stamp).

(** Calls of [get_delay], each with its two clock readings. *)
Fixpoint get_delays (times : list (Q * Q)) (b : Backoff) : list (option Q) * Backoff :=
  match times with
  | [] => ([], b)
  | t :: rest =>
      let '(d, b') := get_delay (fst t) (snd t) b in
      let '(ds, b'') := get_delays rest b' in
      (d :: ds, b'')
  end.

(** Calls each starting no more than [gap] after the stamp left by the
    one before, from the stamp [prev] on. *)
Fixpoint close_calls (gap prev : Q) (times : list (Q * Q)) : Prop :=
  match times with
  | [] => True
  | t :: rest => fst t - prev <= gap /\ close_calls gap (snd t) rest
  end.


End RateLimiter.

(* ===================================================================== *)
(** ** auth/token_cache.py and auth/token_validator.py *)
(* ===================================================================== *)

Module TokenValidator.

#[local] Open Scope Q_scope.

(** [int(x)] on a float: truncation towards zero. *)
Definition int_of (x : Q) : Z := Z.quot (Qnum x) (Zpos (Qden x)).

Record CachedToken := mkToken {
  access_token : string;
  token_type : string;
  expires_at : Z;
  refresh_token : option string;
  scope : option string;
  id_token : option string;
  account_id : option string;
  cached_at : Z
}.

(** [CachedToken.is_expired], at clock reading [now]. *)
Definition is_expired (now : Q) (token : CachedToken) : bool :=
  let buffer_time := 300%Z in
  (expires_at token - buffer_time <=? int_of now)%Z.

Definition is_valid (now : Q) (token : CachedToken) : bool :=
  negb (is_expired now token).

(** The cache as the validator uses it.  [save_token] either returns its
    flag with the new store, or raises (as a patched cache does in the
    unit tests). *)
Inductive SaveResult (C : Type) :=
| Saved (ok : bool) (cache : C)
| SaveRaised (msg : string).
Arguments Saved {C} ok cache.
Arguments SaveRaised {C} msg.

Class TokenCache (C : Type) := {
  get_token : C -> string -> string -> option CachedToken;
  save_token : C -> string -> string -> CachedToken -> SaveResult C
}.

(** The dictionary both paths return. *)
Record TokenInfo := mkInfo {
  info_access_token : string;
  info_token_type : string;
  expires_in : Z;
  info_refresh_token : option string;
  info_account_id : string
}.

(** The validator's own fields, with the audit lines and the degraded-mode
    alerts it writes. *)
Record Validator := mkValidator {
  provider : string;
  refresh_attempts : Z;
  max_refresh_attempts : Z;
  degraded_mode : bool;
  audit_log : list (string * string);
  alerts : list string
}.

Definition new_validator (provider : string) : Validator :=
  mkValidator provider 0 3 false [] [].

Inductive Result (A : Type) :=
| Return (a : A)
| Raise (msg : string).
Arguments Return {A} a.
Arguments Raise {A} msg.

Definition first8 (s : string) : string := String.substring 0 8 s.

Definition _enter_degraded_mode (account : string) (v : Validator) : Validator :=
  mkValidator (provider v) (refresh_attempts v) (max_refresh_attempts v) true
    (audit_log v) (alerts v ++ [account]).

Definition with_expiry (token : CachedToken) (new_expires_at : Z) : CachedToken :=
  mkToken (access_token token) (token_type token) new_expires_at
    (refresh_token token) (scope token) (id_token token) (account_id token)
    (cached_at token).

Section Validate.
Context {C : Type} `{TokenCache C}.

(** The [for attempt in range(self.max_refresh_attempts)] loop of
    [_silent_refresh], from attempt number [attempt] with [fuel]
    iterations left; [clock k] is the reading of [time.time()] in
    attempt [k]. *)
Fixpoint refresh_loop (fuel : nat) (attempt : Z) (clock : Z -> Q)
    (account : string) (current : CachedToken) (v : Validator) (cache : C)
    : Result TokenInfo * Validator * C :=
  match fuel with
  | O =>
      (Raise "Token refresh failed after all attempts - DEGRADED mode activated",
       _enter_degraded_mode account v, cache)
  | S fuel' =>
      let new_expires_at := (int_of (clock attempt) + 3600)%Z in
      let refreshed := with_expiry current new_expires_at in
      match save_token cache (provider v) account refreshed with
      | Saved _ cache' =>
          let v' := mkValidator (provider v) 0 (max_refresh_attempts v)
                      (degraded_mode v)
                      (audit_log v ++ [(first8 (access_token current),
                                        first8 (access_token refreshed))])
                      (alerts v) in
          (Return (mkInfo (access_token refreshed) (token_type refreshed) 3600
                     (refresh_token refreshed) account), v', cache')
      | SaveRaised _ =>
          let v' := mkValidator (provider v) (refresh_attempts v + 1)
                      (max_refresh_attempts v) (degraded_mode v)
                      (audit_log v) (alerts v) in
          refresh_loop fuel' (attempt + 1)%Z clock account refreshed v' cache
      end
  end.

Definition _silent_refresh (clock : Z -> Q) (account : string)
    (current : CachedToken) (v : Validator) (cache : C)
    : Result TokenInfo * Validator * C :=
  if (max_refresh_attempts v <=? refresh_attempts v)%Z then
    (Raise "DEGRADED_MODE: Maximum refresh attempts exceeded",
     _enter_degraded_mode account v, cache)
  else
    refresh_loop (Z.to_nat (max_refresh_attempts v)) 0%Z clock account current v cache.

(** [validate_before_request]; [now] is the reading of [time.time()] on
    line 62 and [clock] the readings taken while refreshing. *)
Definition validate_before_request (now : Q) (clock : Z -> Q)
    (account : string) (buffer_seconds : Z) (v : Validator) (cache : C)
    : Result TokenInfo * Validator * C :=
  if degraded_mode v then
    (Raise "DEGRADED_MODE: Token refresh failed 3 times. Interactive re-auth required.",
     v, cache)
  else
    match get_token cache (provider v) account with
    | None =>
        (Raise ("No tokens found for " +:+ provider v +:+ ":" +:+ account +:+
                " - OAuth not configured"), v, cache)
    | Some token =>
        let remaining := inject_Z (expires_at token) - now in
        if RateLimiter.Qltb remaining (inject_Z buffer_seconds) then
          _silent_refresh clock account token v cache
        else
          (Return (mkInfo (access_token token) (token_type token) (int_of remaining)
                     (refresh_token token) account), v, cache)
    end.
End Validate.

(** [TokenCache] proper: one keychain entry per "provider:account"; the
    encryption wrapped around the stored JSON is not represented.
    [save_token] catches its own exceptions, so it never raises. *)
Definition _get_keychain_key (provider account : string) : string :=
  provider +:+ ":" +:+ account.

#[export] Instance Keychain : TokenCache (gmap string CachedToken) := {
  get_token c p a := c !! _get_keychain_key p a;
  save_token c p a t := Saved true (<[_get_keychain_key p a := t]> c)
}.

(** Worked example: a token that expires 300 seconds after [t_now]. *)
Definition t_now : Z := 1770811200.

Definition expiring_token : CachedToken :=
  mkToken "eyJ0eXAiOiJKV1Qi" "Bearer" (t_now + 300) (Some "refresh_123")
    (Some "Mail.Send") None (Some "ops@novotechno") t_now.

Definition example_cache : gmap string CachedToken :=
  <[_get_keychain_key "microsoft" "ops@novotechno" := expiring_token]> ∅.

Definition wall_clock (start : Q) (attempt : Z) : Q := start.


(** [TokenCache.has_valid_token] *)
Definition has_valid_token {C : Type} `{TokenCache C} (now : Q) (cache : C)
    (provider account : string) : bool :=
  match get_token cache provider account with
  | Some token => is_valid now token
  | None => false
  end.

(** [TokenCache.delete_token]: the entry is overwritten with an empty
    password, which [get_token] reads as no token; the store drops the
    key. *)
Definition delete_token (cache : gmap string CachedToken) (provider account : string)
    : bool * gmap string CachedToken :=
  (true, delete (_get_keychain_key provider account) cache).



(** [s] has no colon. *)
Fixpoint colon_free (s : string) : bool :=
  match s with
  | EmptyString => true
  | String c s' => negb (Ascii.eqb c ":") && colon_free s'
  end.


End TokenValidator.

(* ===================================================================== *)
(** ** state/invoice_state.py *)
(* ===================================================================== *)

Module InvoiceState.

(** JSON values, as [json.load] returns them. *)
Inductive json : Type :=
| JNull
| JBool (b : bool)
| JNum (n : Z)
| JStr (s : string)
| JArr (l : list json)
| JObj (m : gmap string json).

(** Python truthiness of a loaded value. *)
Definition truthy (v : json) : bool :=
  match v with
  | JNull => false
  | JBool b => b
  | JNum n => negb (n =? 0)
  | JStr s => negb (String.eqb s "")
  | JArr l => match l with [] => false | _ => true end
  | JObj m => match map_to_list m with [] => false | _ => true end
  end.

(** A [Path] is the sequence of its parts.  Client and invoice identifiers
    are single parts. *)
Definition Path : Type := list string.

(** [p.with_suffix(p.suffix + ext)]: [ext] is appended to the final part. *)
Fixpoint add_suffix (p : Path) (ext : string) : Path :=
  match p with
  | [] => []
  | [name] => [name +:+ ext]
  | part :: rest => part :: add_suffix rest ext
  end.

(** What a file holds: a JSON document, or text [json.load] rejects. *)
Inductive Content :=
| Doc (v : json)
| Junk (text : string).

Record Event := mkEvent {
  timestamp : string;
  event_id : string;
  ev_client : string;
  ev_invoice : string;
  event : string;
  data : json
}.

(** The store: regular files by path, the lines of [events.log] (whose
    path no state, archive, backup or temporary file shares), the
    [_locks] dictionary ([true] for a held lock) and the number of
    readings of the clock and of [uuid4] taken so far. *)
Record World := mkWorld {
  files : gmap Path Content;
  event_log : list Event;
  _locks : gmap Path bool;
  tick : nat
}.

Inductive Exn :=
| FileNotFoundError (p : Path)
| StateLockError (p : Path)
| ChecksumMismatch (stored : json) (computed : string)
| JSONParseError (p : Path)
| RuntimeError (msg : string)
| TypeError (msg : string).

(** [StateCorruptionError] is raised in two places. *)
Definition is_StateCorruptionError (e : Exn) : bool :=
  match e with
  | ChecksumMismatch _ _ | JSONParseError _ => true
  | _ => false
  end.

(** Computations over the store that may raise. *)
Definition M (A : Type) : Type := World -> (Exn + A) * World.

Definition ret {A} (a : A) : M A := fun w => (inr a, w).
Definition raise {A} (e : Exn) : M A := fun w => (inl e, w).
Definition bind {A B} (m : M A) (k : A -> M B) : M B :=
  fun w => match m w with
           | (inr a, w') => k a w'
           | (inl e, w') => (inl e, w')
           end.

(** [try: body finally: cleanup]; an exception of the cleanup replaces
    the outcome of the body. *)
Definition finally {A} (body : M A) (cleanup : M unit) : M A :=
  fun w => match body w with
           | (r, w') =>
               match cleanup w' with
               | (inr _, w'') => (r, w'')
               | (inl e, w'') => (inl e, w'')
               end
           end.

Notation "x <- c1 ;; c2" := (bind c1 (fun x => c2))
  (at level 100, c1 at next level, right associativity).
Notation "c1 ;;; c2" := (bind c1 (fun _ => c2))
  (at level 100, right associativity).

Definition get_files : M (gmap Path Content) := fun w => (inr (files w), w).
Definition put_files (fs : gmap Path Content) : M unit :=
  fun w => (inr tt, mkWorld fs (event_log w) (_locks w) (tick w)).
Definition exists_file (p : Path) : M bool :=
  fun w => (inr (bool_decide (is_Some (files w !! p))), w).

Definition is_meta_key (k : string) : bool := String.prefix "_" k.

(** [{k: v for k, v in data.items() if not k.startswith("_")}] *)
Definition drop_meta (d : gmap string json) : gmap string json :=
  filter (fun kv => is_meta_key (fst kv) = false) d.

Section Store.
(** The instance: its root directory and locking switch; the
    environment: [datetime.utcnow().isoformat()], [str(uuid.uuid4())[:8]]
    and the first 16 hex digits of SHA-256 over the canonical
    (sorted keys) dump of a dictionary. *)
Variable state_dir : Path.
Variable enable_locking : bool.
Variable utcnow : nat -> string.
Variable uuid8 : nat -> string.
Variable sha256_16 : gmap string json -> string.

Definition state_file_of (client invoice : string) : Path :=
  state_dir ++ [client; invoice +:+ ".json"].
Definition archive_file_of (client invoice : string) : Path :=
  state_dir ++ ["archive"; client; invoice +:+ ".json"].
Definition backup_file_of (client invoice : string) : Path :=
  add_suffix (state_file_of client invoice) ".bak".

Definition now_iso : M string :=
  fun w => (inr (utcnow (tick w)),
            mkWorld (files w) (event_log w) (_locks w) (S (tick w))).
Definition _generate_event_id : M string :=
  fun w => (inr (uuid8 (tick w)),
            mkWorld (files w) (event_log w) (_locks w) (S (tick w))).

(** [atomic_write]: the text goes to the temporary file, which is then
    moved over [filepath]. *)
Definition atomic_write (filepath : Path) (c : Content) : M unit :=
  let tmp_path := add_suffix filepath ".tmp" in
  fs <- get_files ;;
  put_files (<[filepath := c]> (delete tmp_path (<[tmp_path := c]> fs))).

Definition _acquire_lock (filepath : Path) : M bool :=
  if negb enable_locking then ret true
  else fun w =>
    match _locks w !! filepath with
    | Some true => (inl (StateLockError filepath), w)
    | _ => (inr true,
            mkWorld (files w) (event_log w) (<[filepath := true]> (_locks w)) (tick w))
    end.

Definition _release_lock (filepath : Path) : M unit :=
  if negb enable_locking then ret tt
  else fun w =>
    match _locks w !! filepath with
    | Some true =>
        (inr tt,
         mkWorld (files w) (event_log w) (<[filepath := false]> (_locks w)) (tick w))
    | Some false => (inl (RuntimeError "release unlocked lock"), w)
    | None => (inr tt, w)
    end.

Definition _compute_checksum (d : gmap string json) : string :=
  sha256_16 (drop_meta d).

Definition _log_event (client invoice event_type : string) (payload : json) : M unit :=
  ts <- now_iso ;;
  eid <- _generate_event_id ;;
  fun w =>
    (inr tt,
     mkWorld (files w)
       (event_log w ++ [mkEvent ts eid client invoice event_type payload])
       (_locks w) (tick w)).

Definition write_state (client invoice : string) (d : gmap string json) : M Path :=
  let state_file := state_file_of client invoice in
  finally
    (_acquire_lock state_file ;;;
     let checksum := _compute_checksum d in
     updated_at <- now_iso ;;
     let state_data :=
       <["_version" := JStr "1.0"]>
         (<["_updated_at" := JStr updated_at]>
            (<["_checksum" := JStr checksum]> d)) in
     atomic_write state_file (Doc (JObj state_data)) ;;;
     _log_event client invoice "state_update" (JObj d) ;;;
     ret state_file)
    (_release_lock state_file).

(** [_attempt_recovery]: the backup's document, or [None] when there is
    no backup or it does not load. *)
Definition _attempt_recovery (state_file : Path) : M (option json) :=
  let backup_file := add_suffix state_file ".bak" in
  fs <- get_files ;;
  match fs !! backup_file with
  | Some (Doc v) => ret (Some v)
  | Some (Junk _) => ret None
  | None => ret None
  end.

(** [if recovered: return recovered], else raise. *)
Definition recover_or_raise (state_file : Path) (e : Exn) : M (option json) :=
  recovered <- _attempt_recovery state_file ;;
  match recovered with
  | Some v => if truthy v then ret (Some v) else raise e
  | None => raise e
  end.

(** [stored_checksum != computed] *)
Definition differs (stored : json) (computed : string) : bool :=
  match stored with
  | JStr s => negb (String.eqb s computed)
  | _ => true
  end.

Definition read_state (client invoice : string) (verify_checksum : bool)
    : M (option json) :=
  let state_file := state_file_of client invoice in
  fs <- get_files ;;
  match fs !! state_file with
  | None => ret None
  | Some (Junk _) => recover_or_raise state_file (JSONParseError state_file)
  | Some (Doc v) =>
      if verify_checksum then
        match v with
        | JObj d =>
            match d !! "_checksum" with
            | Some stored_checksum =>
                let d' := delete "_checksum" d in
                if truthy stored_checksum then
                  let computed := _compute_checksum d' in
                  if differs stored_checksum computed then
                    recover_or_raise state_file
                      (ChecksumMismatch stored_checksum computed)
                  else ret (Some (JObj d'))
                else ret (Some (JObj d'))
            | None => ret (Some (JObj d))
            end
        | _ => raise (TypeError "pop")
        end
      else ret (Some v)
  end.

Definition unlink (p : Path) : M unit :=
  fs <- get_files ;;
  match fs !! p with
  | Some _ => put_files (delete p fs)
  | None => raise (FileNotFoundError p)
  end.

Definition mark_paid (client invoice : string) (payment_data : gmap string json)
    : M Path :=
  let state_file := state_file_of client invoice in
  present <- exists_file state_file ;;
  if negb present then raise (FileNotFoundError state_file)
  else
    finally
      (_acquire_lock state_file ;;;
       loaded <- read_state client invoice true ;;
       match loaded with
       | Some (JObj d) =>
           paid_at <- now_iso ;;
           let d' :=
             <["payment" := JObj payment_data]>
               (<["paid_at" := JStr paid_at]>
                  (<["status" := JStr "paid"]> d)) in
           write_state client invoice d' ;;;
           let archive_file := archive_file_of client invoice in
           atomic_write archive_file (Doc (JObj d')) ;;;
           unlink state_file ;;;
           _log_event client invoice "paid" (JObj payment_data) ;;;
           ret archive_file
       | _ => raise (TypeError "item assignment")
       end)
      (_release_lock state_file).

Definition create_backup (client invoice : string) : M Path :=
  let state_file := state_file_of client invoice in
  fs <- get_files ;;
  match fs !! state_file with
  | None => raise (FileNotFoundError state_file)
  | Some c =>
      let backup_file := add_suffix state_file ".bak" in
      put_files (<[backup_file := c]> fs) ;;;
      ret backup_file
  end.
(** The document [write_state] stores for [d] when the clock reads
    [updated_at]. *)
Definition stored_record (d : gmap string json) (updated_at : string)
    : gmap string json :=
  <["_version" := JStr "1.0"]>
    (<["_updated_at" := JStr updated_at]>
       (<["_checksum" := JStr (sha256_16 (drop_meta d))]> d)).

End Store.

(** The backup's document, when the sibling [.bak] exists, loads and is
    not empty: what a failed read falls back to. *)
Definition backup_document (w : World) (state_file : Path) : option json :=
  match files w !! add_suffix state_file ".bak" with
  | Some (Doc v) => if truthy v then Some v else None
  | _ => None
  end.

(** A stand-in for the digest in worked examples: the keys and scalar
    values of the dictionary, in the order the map lists them. *)
Definition render (v : json) : string :=
  match v with
  | JNum n => pretty n
  | JStr s => s
  | _ => "?"
  end.

Definition demo_digest (d : gmap string json) : string :=
  String.concat ","
    (map (fun kv => fst kv +:+ "=" +:+ render (snd kv)) (map_to_list d)).

Definition demo_clock (n : nat) : string := "2026-02-11T12:00:00".
Definition demo_uuid (n : nat) : string := "0a1b2c3d".

Definition empty_world : World := mkWorld ∅ [] ∅ 0.

Definition demo_dir : Path := ["state"].

Definition demo_record : gmap string json :=
  <["amount" := JNum 1500]> (<["status" := JStr "unpaid"]> ∅).

Definition demo_payment : gmap string json :=
  <["method" := JStr "wire"]> ∅.

(** The store after [write_state("acme", "INV-001", ...)], locking off. *)
Definition demo_world : World :=
  snd (write_state demo_dir false demo_clock demo_uuid demo_digest
         "acme" "INV-001" demo_record empty_world).

(** The state file of [demo_world] with its amount altered, beside a
    backup that holds [backup]. *)
Definition tampered_world (backup : Content) : World :=
  let state_file := state_file_of demo_dir "acme" "INV-001" in
  match files demo_world !! state_file with
  | Some (Doc (JObj d)) =>
      mkWorld
        (<[add_suffix state_file ".bak" := backup]>
           (<[state_file := Doc (JObj (<["amount" := JNum 999]> d))]> (files demo_world)))
        (event_log demo_world) (_locks demo_world) (tick demo_world)
  | _ => demo_world
  end.

(** The record [mark_paid] writes and archives, from the record it
    loaded. *)
Definition paid_record (loaded payment : gmap string json) (paid_at : string)
    : gmap string json :=
  <["payment" := JObj payment]>
    (<["paid_at" := JStr paid_at]> (<["status" := JStr "paid"]> loaded)).

(** [get_event_count]: one line of [events.log] per event. *)
Definition get_event_count : M nat :=
  fun w => (inr (length (event_log w)), w).

(** [replay_events]: the events in log order, those whose timestamp
    sorts before a given [since_timestamp] left out. *)
Definition replay_events (since_timestamp : option string) : M (list Event) :=
  fun w =>
    (inr (List.filter
            (fun e =>
               match since_timestamp with
               | Some since =>
                   negb (negb (String.eqb since "") && String.ltb (timestamp e) since)
               | None => true
               end)
            (event_log w)),
     w).

(** The store with the file at [p] overwritten from outside. *)
Definition overwritten (p : Path) (c : Content) (w : World) : World :=
  mkWorld (<[p := c]> (files w)) (event_log w) (_locks w) (tick w).

(** A computation only appends to the event log. *)
Definition appends {A} (m : M A) : Prop :=
  forall w, exists new, event_log (snd (m w)) = event_log w ++ new.

(** [demo_world] with the lock of its state file held. *)
Definition locked_world : World :=
  mkWorld (files demo_world) (event_log demo_world)
    (<[state_file_of demo_dir "acme" "INV-001" := true]> ∅) (tick demo_world).


End InvoiceState.

(* ===================================================================== *)
(** ** filesystem/payment_checker.py *)
(* ===================================================================== *)

Module PaymentChecker.

#[local] Open Scope Q_scope.

(** The invoice dictionaries of [get_all_unpaid()].  [invoice_number] and
    [client] are read with [.get] ([None] when absent); [amount] is [None]
    when [float()] rejects the stored value. *)
Record Invoice := mkInvoice {
  invoice_number : option string;
  client : option string;
  amount : option Q
}.

Definition nonempty (s : option string) : bool :=
  match s with
  | Some t => negb (String.eqb t "")
  | None => false
  end.

Definition nonzero (a : option Q) : bool :=
  match a with
  | Some q => negb (Qeq_bool q 0)
  | None => false
  end.

Definition same_text (a b : option string) : bool :=
  match a, b with
  | Some x, Some y => String.eqb x y
  | None, None => true
  | _, _ => false
  end.

(** [abs(invoice_amount - payment_amount) / invoice_amount <= 0.05] *)
Definition within_tolerance (invoice_amount payment_amount : Q) : bool :=
  Qle_bool (Qabs (invoice_amount - payment_amount) / invoice_amount) (5 # 100).

(** The loop of [_find_matching_invoice] over the unpaid invoices. *)
Fixpoint _find_matching_invoice (amount_ : option Q) (client_ : option string)
    (invoice_number_ : option string) (unpaid : list Invoice) : option Invoice :=
  match unpaid with
  | [] => None
  | invoice :: rest =>
      if nonempty invoice_number_ && same_text (invoice_number invoice) invoice_number_
      then Some invoice
      else if nonzero amount_ && nonempty client_ && same_text (client invoice) client_
      then
        match amount invoice, amount_ with
        | Some invoice_amount, Some payment_amount =>
            if RateLimiter.Qltb 0 invoice_amount
               && within_tolerance invoice_amount payment_amount
            then Some invoice
            else _find_matching_invoice amount_ client_ invoice_number_ rest
        | _, _ => _find_matching_invoice amount_ client_ invoice_number_ rest
        end
      else _find_matching_invoice amount_ client_ invoice_number_ rest
  end.

(** [_verify_amount] *)
Definition _verify_amount (payment_amount invoice_amount : option Q) : Q :=
  match payment_amount, invoice_amount with
  | Some p, Some i =>
      if RateLimiter.Qltb (Qabs (p - i)) (1 # 100) then 1
      else if RateLimiter.Qltb p i then 95 # 100
      else if RateLimiter.Qltb i p then 90 # 100
      else 0
  | _, _ => 0
  end.

(** What [_extract_payment_data] yields. *)
Record PaymentData := mkPayment {
  p_amount : option Q;
  p_client : option string;
  p_invoice_number : option string;
  p_method : string
}.

Record CheckResult := mkCheck {
  matches_invoice : bool;
  matched : option Invoice;
  confidence : Q
}.

(** [__call__], from the extracted payment data on. *)
Definition check (payment : PaymentData) (unpaid : list Invoice) : CheckResult :=
  match _find_matching_invoice (p_amount payment) (p_client payment)
          (p_invoice_number payment) unpaid with
  | Some matching_invoice =>
      mkCheck true (Some matching_invoice)
        (_verify_amount (p_amount payment) (amount matching_invoice))
  | None => mkCheck false None 0
  end.

(** The spec's precedence: an unpaid invoice whose number equals the
    payment's, wherever it stands in the enumeration. *)
Definition number_match (invoice_number_ : option string) (unpaid : list Invoice)
    : option Invoice :=
  List.find (fun invoice =>
          nonempty invoice_number_ && same_text (invoice_number invoice) invoice_number_)
       unpaid.

(** Worked example: two unpaid invoices of one client for the same
    amount, and a payment file naming the second. *)
Definition invoice_F001 : Invoice := mkInvoice (Some "F001") (Some "ACME") (Some (1000 # 1)).
Definition invoice_F002 : Invoice := mkInvoice (Some "F002") (Some "ACME") (Some (1000 # 1)).

Definition payment_for_F002 : PaymentData :=
  mkPayment (Some (1000 # 1)) (Some "ACME") (Some "F002") "transfer".




End PaymentChecker.

(* ===================================================================== *)
(** ** collections/pdf_parser.py: route_by_confidence *)
(* ===================================================================== *)

Module PdfParser.

#[local] Open Scope Q_scope.

Inductive Status := auto | review | manual.

(** The dictionary [route_by_confidence] returns, and the file it writes
    (none on the [auto] route, which only makes the directory). *)
Record Routing := mkRouting {
  status : Status;
  action : string;
  path : list string;
  written : option (list string)
}.

(** [invoice.invoice_number or "unknown"] *)
Definition invoice_id (invoice_number : option string) : string :=
  match invoice_number with
  | Some s => if String.eqb s "" then "unknown" else s
  | None => "unknown"
  end.

Definition route_by_confidence (confidence : Q) (invoice_number : option string)
    (state_dir : list string) : Routing :=
  if Qle_bool (95 # 100) confidence then
    let auto_dir := state_dir ++ ["auto"] in
    mkRouting auto "create_state" auto_dir None
  else if Qle_bool (85 # 100) confidence then
    let review_path := state_dir ++ ["review_queue"; invoice_id invoice_number +:+ ".json"] in
    mkRouting review "queued_for_review" review_path (Some review_path)
  else
    let manual_path := state_dir ++ ["manual"; invoice_id invoice_number +:+ ".json"] in
    mkRouting manual "requires_human" manual_path (Some manual_path).

(** [self.weights] as [InvoiceParser.__init__] writes it, in the order of
    the dictionary. *)
Definition initial_weights : list (string * Q) :=
  [ ("invoice_number", 30 # 100); ("client_name", 25 # 100); ("amount", 30 # 100);
    ("due_date", 25 # 100); ("items", 10 # 100) ].

(** [sum(values)] *)
Definition sum_of (values : list Q) : Q := fold_left Qplus values 0.

Definition _normalize_weights (weights : list (string * Q)) : list (string * Q) :=
  let total := sum_of (map snd weights) in
  if RateLimiter.Qltb 0 total
  then map (fun fw => (fst fw, snd fw / total)) weights
  else weights.

(** The weights of an [InvoiceParser]. *)
Definition weights : list (string * Q) := _normalize_weights initial_weights.

(** [self.weights[field]], when [field in self.weights]. *)
Fixpoint weight_of (weights : list (string * Q)) (field : string) : option Q :=
  match weights with
  | [] => None
  | (f, w) :: rest => if String.eqb f field then Some w else weight_of rest field
  end.

(** The loop of [_calculate_confidence] over the items of
    [confidence_breakdown]. *)
Fixpoint confidence_loop (weights : list (string * Q)) (breakdown : list (string * Q))
    (total_weight weighted_sum : Q) : Q * Q :=
  match breakdown with
  | [] => (total_weight, weighted_sum)
  | (field, confidence) :: rest =>
      if RateLimiter.Qltb 0 confidence then
        match weight_of weights field with
        | Some weight =>
            confidence_loop weights rest (total_weight + weight)
              (weighted_sum + confidence * weight)
        | None => confidence_loop weights rest total_weight weighted_sum
        end
      else confidence_loop weights rest total_weight weighted_sum
  end.

Definition _calculate_confidence (weights : list (string * Q))
    (confidence_breakdown : list (string * Q)) : Q :=
  let '(total_weight, weighted_sum) := confidence_loop weights confidence_breakdown 0 0 in
  if RateLimiter.Qltb 0 total_weight then weighted_sum / total_weight else 0.

(** A field that was found and carries a weight. *)
Definition counted (weights : list (string * Q)) (item : string * Q) : bool :=
  RateLimiter.Qltb 0 (snd item) &&
  match weight_of weights (fst item) with Some _ => true | None => false end.


End PdfParser.

(* ===================================================================== *)
(** ** state/ledger.py *)
(* ===================================================================== *)

Module Ledger.

(** *** Python string operations used by the ledger *)

Definition LF : ascii := ascii_of_nat 10.
Definition NL : string := String LF "".

(** [needle in hay] *)
Fixpoint contains (needle hay : string) : bool :=
  String.prefix needle hay ||
  match hay with
  | EmptyString => false
  | String _ hay' => contains needle hay'
  end.

(** [s.split(sep)] for a one-character separator. *)
Fixpoint split_on (sep : ascii) (s : string) : list string :=
  match s with
  | EmptyString => [EmptyString]
  | String c s' =>
      if Ascii.eqb c sep then EmptyString :: split_on sep s'
      else match split_on sep s' with
           | first :: others => String c first :: others
           | [] => [String c EmptyString]
           end
  end.

(** [sep.join(parts)] *)
Definition join (sep : string) (parts : list string) : string :=
  String.concat sep parts.

(** The ASCII characters [str.strip()] removes. *)
Definition is_whitespace (c : ascii) : bool :=
  let n := nat_of_ascii c in
  ((9 <=? n) && (n <=? 13) || (28 <=? n) && (n <=? 32))%nat.

Fixpoint lstrip (s : string) : string :=
  match s with
  | EmptyString => EmptyString
  | String c s' => if is_whitespace c then lstrip s' else s
  end.

Definition strip (s : string) : string :=
  String.rev (lstrip (String.rev (lstrip s))).

(** [lines.insert(i, x)]: past the end, the item is appended. *)
Definition insert_at {A} (i : nat) (x : A) (l : list A) : list A :=
  firstn i l ++ x :: skipn i l.

(** [s.replace(old, new)], left to right over non-overlapping
    occurrences; [skip] counts the characters of a replaced occurrence
    still to be passed over. *)
Fixpoint replace_from (old new : string) (skip : nat) (s : string) : string :=
  match s with
  | EmptyString => EmptyString
  | String c s' =>
      match skip with
      | S k => replace_from old new k s'
      | O =>
          if String.prefix old s
          then new +:+ replace_from old new (String.length old - 1) s'
          else String c (replace_from old new 0 s')
      end
  end.

Fixpoint intersperse (new s : string) : string :=
  match s with
  | EmptyString => new
  | String c s' => new +:+ String c (intersperse new s')
  end.

Definition replace (old new s : string) : string :=
  match old with
  | EmptyString => intersperse new s
  | _ => replace_from old new 0 s
  end.

(** *** Amounts

    Amounts are exact numbers of cents; [format(x, ".2f")] and
    [format(x, ",.2f")] print them. *)
Definition digits (n : Z) : string :=
  NilZero.string_of_uint (N.to_uint (Z.to_N n)).

Fixpoint group_thousands (reversed : list ascii) (seen : nat) : list ascii :=
  match reversed with
  | [] => []
  | c :: rest =>
      if (seen =? 3)%nat then "," %char :: c :: group_thousands rest 1
      else c :: group_thousands rest (S seen)
  end.

Definition with_commas (s : string) : string :=
  string_of_list_ascii
    (rev (group_thousands (rev (list_ascii_of_string s)) 0)).

Definition format_2f (commas : bool) (cents : Z) : string :=
  let whole := digits (Z.abs cents / 100) in
  let frac := Z.abs cents mod 100 in
  (if cents <? 0 then "-" else "") +:+
  (if commas then with_commas whole else whole) +:+ "." +:+
  (if frac <? 10 then "0" +:+ digits frac else digits frac).

(** *** The ledger object *)

Inductive Section_ := unpaid | paid | escalated.

(** [section.title()] *)
Definition title (s : Section_) : string :=
  match s with
  | unpaid => "Unpaid"
  | paid => "Paid"
  | escalated => "Escalated"
  end.

Record Totals := mkTotals { t_unpaid : Z; t_paid : Z; t_escalated : Z }.

Definition total_of (s : Section_) (t : Totals) : Z :=
  match s with
  | unpaid => t_unpaid t
  | paid => t_paid t
  | escalated => t_escalated t
  end.

Definition add_total (s : Section_) (amount : Z) (t : Totals) : Totals :=
  match s with
  | unpaid => mkTotals (t_unpaid t + amount) (t_paid t) (t_escalated t)
  | paid => mkTotals (t_unpaid t) (t_paid t + amount) (t_escalated t)
  | escalated => mkTotals (t_unpaid t) (t_paid t) (t_escalated t + amount)
  end.

Definition grand_total (t : Totals) : Z := t_unpaid t + t_paid t + t_escalated t.

(** The ledger: the text of the file at [ledger_path] and [self._totals]. *)
Record Ledger := mkLedger {
  content : string;
  _totals : Totals
}.

Inductive LedgerError :=
| MissingRequiredFields
| AlreadyExists (invoice_number : string)
| SectionNotFound (section_header : string).

(** The text [_create_initial] writes. *)
Definition initial_content : string :=
  join NL
    [ "# Collections Ledger"; "";
      "## Unpaid"; "";
      "## Paid"; "";
      "## Escalated"; "";
      "## Summary";
      "- **Unpaid Total:** $0.00";
      "- **Paid Total:** $0.00";
      "- **Escalated Total:** $0.00";
      "- **Grand Total:** $0.00";
      "" ].

(** A ledger as [__init__] leaves it on a fresh path. *)
Definition new_ledger : Ledger := mkLedger initial_content (mkTotals 0 0 0).

Definition backticked (invoice_number : string) : string :=
  "`" +:+ invoice_number +:+ "`".

Definition _invoice_exists (l : Ledger) (invoice_number : string) : bool :=
  contains (backticked invoice_number) (content l).

(** The scan of [_append_to_section]: the index of the last line equal to
    the header before the scan stops, and the index of the first "## "
    line that follows a header line. *)
Fixpoint scan_section (section_header : string) (lines : list string) (i : nat)
    (section_idx : option nat) : option nat * option nat :=
  match lines with
  | [] => (section_idx, None)
  | line :: rest =>
      if String.eqb (strip line) section_header
      then scan_section section_header rest (S i) (Some i)
      else
        match section_idx with
        | Some _ =>
            if String.prefix "## " line then (section_idx, Some i)
            else scan_section section_header rest (S i) section_idx
        | None => scan_section section_header rest (S i) section_idx
        end
  end.

Definition _append_to_section (section_header entry : string) (l : Ledger)
    : LedgerError + Ledger :=
  let lines := split_on LF (content l) in
  match scan_section section_header lines 0 None with
  | (None, _) => inl (SectionNotFound section_header)
  | (Some section_idx, next_section_idx) =>
      let insert_idx :=
        match next_section_idx with
        | None => (section_idx + 2)%nat
        | Some next => Nat.min (section_idx + 2) next
        end in
      inr (mkLedger (join NL (insert_at insert_idx entry lines)) (_totals l))
  end.

Definition _update_totals (section : Section_) (amount : Z) (l : Ledger) : Ledger :=
  let totals := add_total section amount (_totals l) in
  let old_total :=
    "**" +:+ title section +:+ " Total:** $" +:+
    format_2f false (total_of section totals - amount) in
  let new_total :=
    "**" +:+ title section +:+ " Total:** $" +:+
    format_2f false (total_of section totals) in
  let content1 := replace old_total new_total (content l) in
  let old_grand := "**Grand Total:** $" +:+ format_2f false (grand_total totals - amount) in
  let new_grand := "**Grand Total:** $" +:+ format_2f false (grand_total totals) in
  mkLedger (replace old_grand new_grand content1) totals.

(** The [invoice_data] dictionary: the three required keys may be absent;
    [due_date] is read with a default of the empty string. *)
Record InvoiceData := mkInvoiceData {
  invoice_number : option string;
  amount : option Z;
  client_name : option string;
  due_date : string
}.

Definition entry_line (invoice_num : string) (amount_ : Z) (client due : string) : string :=
  "- `" +:+ invoice_num +:+ "` | $" +:+ format_2f true amount_ +:+ " | " +:+ client +:+
  (if String.eqb due "" then "" else " | Due: " +:+ due) +:+
  " | Status: unpaid".

(** [add_invoice]: the outcome and the ledger afterwards. *)
Definition add_invoice (invoice_data : InvoiceData) (l : Ledger)
    : (LedgerError + bool) * Ledger :=
  match invoice_number invoice_data, amount invoice_data, client_name invoice_data with
  | Some invoice_num, Some amount_, Some client =>
      if _invoice_exists l invoice_num then (inl (AlreadyExists invoice_num), l)
      else
        let entry := entry_line invoice_num amount_ client (due_date invoice_data) in
        match _append_to_section "## Unpaid" entry l with
        | inl e => (inl e, l)
        | inr l1 => (inr true, _update_totals unpaid amount_ l1)
        end
  | _, _, _ => (inl MissingRequiredFields, l)
  end.

(** The lines of the Unpaid section: from the header to the next "## " line. *)
Fixpoint take_section (lines : list string) : list string :=
  match lines with
  | [] => []
  | line :: rest => if String.prefix "## " line then [] else line :: take_section rest
  end.

Fixpoint unpaid_section (lines : list string) : list string :=
  match lines with
  | [] => []
  | line :: rest =>
      if String.eqb (strip line) "## Unpaid" then take_section rest
      else unpaid_section rest
  end.

(** [s] has no occurrence of the character [c]. *)
Fixpoint free_of (c : ascii) (s : string) : bool :=
  match s with
  | EmptyString => true
  | String x s' => negb (Ascii.eqb x c) && free_of c s'
  end.

(** Worked examples. *)
Definition invoice_INV_001 : InvoiceData :=
  mkInvoiceData (Some "INV-001") (Some 150000) (Some "ACME") "2026-03-01".

Definition invoice_with_label_in_number : InvoiceData :=
  mkInvoiceData (Some "X**Unpaid Total:** $0.00") (Some 500) (Some "ACME") "".

(** The loop [for i in range(unpaid_start, unpaid_end)] of
    [_remove_from_unpaid], over the lines from [unpaid_start] on with [n]
    indices left: the first line that holds [needle] is popped. *)
Fixpoint pop_first (needle : string) (lines : list string) (n : nat)
    : option (list string) :=
  match n, lines with
  | S n', line :: rest =>
      if contains needle line then Some rest
      else option_map (cons line) (pop_first needle rest n')
  | _, _ => None
  end.

(** [_remove_from_unpaid]: the flag returned and the ledger afterwards;
    the file is rewritten only when a line was popped. *)
Definition _remove_from_unpaid (invoice_number : string) (l : Ledger) : bool * Ledger :=
  let lines := split_on LF (content l) in
  match scan_section "## Unpaid" lines 0 None with
  | (None, _) => (false, l)
  | (Some unpaid_start, found_end) =>
      let unpaid_end :=
        match found_end with
        | Some (S e) => S e
        | _ => length lines
        end in
      match pop_first (backticked invoice_number) (skipn unpaid_start lines)
              (unpaid_end - unpaid_start) with
      | Some rest =>
          (true, mkLedger (join NL (firstn unpaid_start lines ++ rest)) (_totals l))
      | None => (false, l)
      end
  end.

(** The [LedgerError]s of [mark_paid] and [escalate]. *)
Inductive MoveError :=
| NotInUnpaid (invoice_number : string)
| AppendFailed (e : LedgerError).

(** [entry += f" | {label}: {value}"] under [if value:] *)
Definition optional_field (label : string) (value : option string) : string :=
  match value with
  | Some v => if String.eqb v "" then "" else " | " +:+ label +:+ ": " +:+ v
  | None => ""
  end.

Definition paid_entry (invoice_number : string) (amount_ : Z)
    (payment_date payment_method : option string) : string :=
  "- `" +:+ invoice_number +:+ "` | $" +:+ format_2f true amount_ +:+
  optional_field "Paid" payment_date +:+ optional_field "Method" payment_method +:+
  " | Status: paid".

Definition escalated_entry (invoice_number : string) (amount_ : Z) (reason : string)
    (escalated_date : option string) : string :=
  "- `" +:+ invoice_number +:+ "` | $" +:+ format_2f true amount_ +:+ " | " +:+ reason +:+
  optional_field "Escalated" escalated_date +:+ " | Status: escalated".

(** [mark_paid]: the outcome and the ledger afterwards. *)
Definition mark_paid (invoice_number : string) (amount_ : Z)
    (payment_date payment_method : option string) (l : Ledger)
    : (MoveError + bool) * Ledger :=
  match _remove_from_unpaid invoice_number l with
  | (false, l0) => (inl (NotInUnpaid invoice_number), l0)
  | (true, l1) =>
      let entry := paid_entry invoice_number amount_ payment_date payment_method in
      match _append_to_section "## Paid" entry l1 with
      | inl e => (inl (AppendFailed e), l1)
      | inr l2 =>
          (inr true, _update_totals paid amount_ (_update_totals unpaid (- amount_) l2))
      end
  end.

(** [escalate] *)
Definition escalate (invoice_number : string) (amount_ : Z) (reason : string)
    (escalated_date : option string) (l : Ledger) : (MoveError + bool) * Ledger :=
  match _remove_from_unpaid invoice_number l with
  | (false, l0) => (inl (NotInUnpaid invoice_number), l0)
  | (true, l1) =>
      let entry := escalated_entry invoice_number amount_ reason escalated_date in
      match _append_to_section "## Escalated" entry l1 with
      | inl e => (inl (AppendFailed e), l1)
      | inr l2 =>
          (inr true,
           _update_totals escalated amount_ (_update_totals unpaid (- amount_) l2))
      end
  end.

(** Python's text mode reads a carriage return as the end of a line, as
    it does a line feed. *)
Definition CR : ascii := ascii_of_nat 13.

(** [s] holds no line break. *)
Definition one_line (s : string) : bool := free_of LF s && free_of CR s.

(** Some line of the ledger strips to [section_header]: the scan of
    [_append_to_section] finds the section. *)
Definition has_section (section_header : string) (l : Ledger) : bool :=
  existsb (fun line => String.eqb (strip line) section_header) (split_on LF (content l)).


End Ledger.

(* ===================================================================== *)
(** ** src/collections/email_sender.py: GraphEmailSender *)
(* ===================================================================== *)

Module GraphEmailSender.

(** What [session.post] followed by [response.raise_for_status()] comes
    to.  An [HTTPError] carries [e.response] (or none): its truth value,
    its [status_code] and its [text]; [reason] is [str(e)]. *)
Record Response := mkResponse {
  truth_value : bool;
  status_code : Z;
  text : string
}.

(** [OtherException] stands for any other exception [requests] raises. *)
Inductive PostOutcome :=
| Accepted (message_id : option string)
| HTTPError (response : option Response) (reason : string)
| Timeout
| OtherException (reason : string).

(** The session: the outcome of each post in turn, and the number of
    posts made. *)
Record Session := mkSession {
  outcomes : nat -> PostOutcome;
  posts : nat;
  authorization : option string
}.

Definition post (s : Session) : PostOutcome * Session :=
  (outcomes s (posts s), mkSession (outcomes s) (S (posts s)) (authorization s)).

(** The dictionary returned on success (its timestamp apart). *)
Record SendInfo := mkSendInfo {
  status : string;
  message_id : string;
  recipient : string;
  attempts : Z
}.

Inductive Raised :=
| RateLimitExceeded (msg : string)
| Exception (msg : string).

(** [e.response.status_code if e.response else 0] *)
Definition status_code_of (response : option Response) : Z :=
  match response with
  | Some r => if truth_value r then status_code r else 0
  | None => 0
  end.

(** [e.response.text if e.response else str(e)] *)
Definition text_of (response : option Response) (reason : string) : string :=
  match response with
  | Some r => if truth_value r then text r else reason
  | None => reason
  end.

(** The [for attempt in range(max_attempts)] loop of [_send_with_retry],
    from attempt number [attempt] with [fuel] iterations left; [naps]
    collects the arguments of [time.sleep]. *)
Fixpoint retry_loop (fuel : nat) (attempt max_attempts : Z) (recipient : string)
    (s : Session) (naps : list Z) : (Raised + SendInfo) * Session * list Z :=
  match fuel with
  | O =>
      (inl (Exception ("Email sending failed after " +:+ pretty max_attempts +:+ " attempts")),
       s, naps)
  | S fuel' =>
      match post s with
      | (Accepted mid, s') =>
          (inr (mkSendInfo "sent" (default "unknown" mid) recipient (attempt + 1)), s', naps)
      | (HTTPError response reason, s') =>
          let code := status_code_of response in
          if code =? 429 then
            if attempt <? max_attempts - 1 then
              retry_loop fuel' (attempt + 1) max_attempts recipient s' (naps ++ [2 ^ attempt])
            else
              retry_loop fuel' (attempt + 1) max_attempts recipient s' naps
          else if code =? 401 then
            (inl (Exception ("Authentication failed: " +:+ text_of response reason)), s', naps)
          else if code =? 403 then
            (inl (Exception ("Permission denied: " +:+ text_of response reason)), s', naps)
          else if attempt =? max_attempts - 1 then
            (inl (Exception ("Failed to send email after " +:+ pretty max_attempts +:+
                             " attempts: " +:+ reason)), s', naps)
          else
            retry_loop fuel' (attempt + 1) max_attempts recipient s' naps
      | (Timeout, s') =>
          if attempt =? max_attempts - 1 then
            (inl (Exception ("Email sending timed out after " +:+ pretty max_attempts +:+
                             " attempts")), s', naps)
          else
            retry_loop fuel' (attempt + 1) max_attempts recipient s' (naps ++ [2 ^ attempt])
      | (OtherException reason, s') =>
          if attempt =? max_attempts - 1 then (inl (Exception reason), s', naps)
          else
            retry_loop fuel' (attempt + 1) max_attempts recipient s' (naps ++ [2 ^ attempt])
      end
  end.

(** The seconds slept in all. *)
Definition total_nap (naps : list Z) : Z := fold_right Z.add 0 naps.

Definition _send_with_retry (recipient : string) (max_attempts : Z) (s : Session)
    : (Raised + SendInfo) * Session * list Z :=
  retry_loop (Z.to_nat max_attempts) 0 max_attempts recipient s [].

(** The sender: its limiter, validator, cache and session. *)
Record Sender (C : Type) := mkSender {
  rate_limiter : RateLimiter.Limiter;
  validator : TokenValidator.Validator;
  cache : C;
  session : Session;
  account_id : string
}.
Arguments mkSender {C}.
Arguments rate_limiter {C}.
Arguments validator {C}.
Arguments cache {C}.
Arguments session {C}.
Arguments account_id {C}.

Section Send.
Context {C : Type} `{TokenValidator.TokenCache C}.

(** [send_email]; [now] is the clock reading of the limiter, [now']
    that of the token validation and [clock] those of a refresh. *)
Definition send_email (now now' : Q) (clock : Z -> Q) (to_address : string)
    (m : Sender C) : (Raised + SendInfo) * Sender C * list Z :=
  let '(acquired, limiter) := RateLimiter.try_acquire now (rate_limiter m) in
  if negb acquired then
    (inl (RateLimitExceeded ("Rate limit exceeded - cannot send to " +:+ to_address)),
     mkSender limiter (validator m) (cache m) (session m) (account_id m), [])
  else
    match TokenValidator.validate_before_request now' clock (account_id m) 300
            (validator m) (cache m) with
    | (TokenValidator.Raise msg, v, c) =>
        (inl (Exception msg), mkSender limiter v c (session m) (account_id m), [])
    | (TokenValidator.Return token_info, v, c) =>
        let s := mkSession (outcomes (session m)) (posts (session m))
                   (Some ("Bearer " +:+ TokenValidator.info_access_token token_info)) in
        let '(r, s', naps) := _send_with_retry to_address 3 s in
        (r, mkSender limiter v c s' (account_id m), naps)
    end.
End Send.

(** Worked example: a session whose first post times out, whose second
    is answered 503 and whose third is accepted.  The response of the
    503 counts as false, as a [requests.Response] with an error status
    does. *)
Definition flaky_session : Session :=
  mkSession
    (fun n =>
       match n with
       | O => Timeout
       | S O => HTTPError (Some (mkResponse false 503 "Service Unavailable")) "503 Server Error"
       | _ => Accepted (Some "msg-1")
       end)
    0 None.

End GraphEmailSender.

(* ===================================================================== *)
(** ** filesystem/payment_detector.py: PaymentEventHandler *)
(* ===================================================================== *)

Module PaymentDetector.
#[local] Open Scope Q_scope.

(** [PaymentEventHandler._is_duplicate]; [recent_files] maps a file hash
    to the clock reading stored for it.  [now] is the reading the age is
    taken from (made only when the hash is known), [stored_at] the
    reading that is stored. *)
Definition _is_duplicate (now stored_at : Q) (file_hash : string)
    (recent_files : gmap string Q) : bool * gmap string Q :=
  match recent_files !! file_hash with
  | Some seen =>
      if RateLimiter.Qltb (now - seen) 86400 then (true, recent_files)
      else (false, <[file_hash := stored_at]> recent_files)
  | None => (false, <[file_hash := stored_at]> recent_files)
  end.

(** The same hash presented again and again, with the two clock readings
    of each call. *)
Fixpoint sightings (times : list (Q * Q)) (file_hash : string)
    (recent_files : gmap string Q) : list bool * gmap string Q :=
  match times with
  | [] => ([], recent_files)
  | t :: rest =>
      let '(dup, recent_files') := _is_duplicate (fst t) (snd t) file_hash recent_files in
      let '(dups, recent_files'') := sightings rest file_hash recent_files' in
      (dup :: dups, recent_files'')
  end.

End PaymentDetector.

(* ===================================================================== *)
(** * Properties *)
(* ===================================================================== *)

(** ** The reminder scheduler *)

Section SchedulerProperties.
Import Scheduler.

Lemma rule_reminder_due invoice d name rule :
  offset_due rule d = true ->
  exists r, rule_reminder invoice d (name, rule) = [r] /\
            r_invoice r = invoice /\ r_rule r = name /\
            r_template r = template rule.
Proof.
  unfold offset_due, rule_reminder.
  destruct (days_before_due rule) as [k|], (days_after_due rule) as [j|];
    repeat match goal with |- context [?a =? ?b] => destruct (a =? b) end;
    simpl; intros Hd; try discriminate; eexists; split; try reflexivity; auto.
Qed.

Lemma rule_reminder_sound invoice d name rule r :
  In r (rule_reminder invoice d (name, rule)) ->
  offset_due rule d = true /\ r_invoice r = invoice /\ r_rule r = name /\
  r_template r = template rule.
Proof.
  unfold offset_due, rule_reminder.
  destruct (days_before_due rule) as [k|], (days_after_due rule) as [j|];
    repeat match goal with |- context [?a =? ?b] => destruct (a =? b) end;
    simpl; intros Hin; intuition; subst; simpl; auto.
Qed.

(** The rule names a single invoice yields do not depend on its log. *)
Lemma invoice_reminders_log now log invoice :
  map r_rule (invoice_reminders now (with_reminder_log log invoice)) =
  map r_rule (invoice_reminders now invoice).
Proof.
  unfold invoice_reminders, days_until_due.
  change (due_date (with_reminder_log log invoice)) with (due_date invoice).
  generalize (timedelta_days (due_date invoice - now)). intros d.
  generalize REMINDER_RULES as rules.
  induction rules as [|[name rule] rules IH]; [reflexivity|].
  simpl flat_map. rewrite !map_app, IH. f_equal.
  unfold rule_reminder.
  destruct (days_before_due rule), (days_after_due rule);
    repeat match goal with |- context [?a =? ?b] => destruct (a =? b) end;
    reflexivity.
Qed.

(** C1, as amended: [get_due_reminders] returns the pair (invoice, rule)
    exactly when the invoice is unpaid and its days until due equal the
    rule's offset.  The invoice's [reminder_log] is not consulted:
    replacing the logs leaves the sequence of returned rules unchanged,
    so a rule already logged is returned again while its offset
    matches. *)
Theorem get_due_reminders_ignores_reminder_log (now : Z) (unpaid : list Invoice) :
  (forall invoice name rule,
      In invoice unpaid -> In (name, rule) REMINDER_RULES ->
      offset_due rule (days_until_due now invoice) = true ->
      exists r, In r (get_due_reminders now unpaid) /\ r_invoice r = invoice /\
                r_rule r = name /\ r_template r = template rule) /\
  (forall r, In r (get_due_reminders now unpaid) ->
      In (r_invoice r) unpaid /\
      exists rule, In (r_rule r, rule) REMINDER_RULES /\
                   offset_due rule (days_until_due now (r_invoice r)) = true) /\
  (forall log : Invoice -> list string,
      map r_rule (get_due_reminders now
                    (map (fun i => with_reminder_log (log i) i) unpaid)) =
      map r_rule (get_due_reminders now unpaid)).
Proof.
  split; [|split].
  - intros invoice name rule Hin Hrule Hdue.
    destruct (rule_reminder_due invoice (days_until_due now invoice) name rule Hdue)
      as (r & Hr & Hi & Hn & Ht).
    exists r. repeat split; auto.
    unfold get_due_reminders. apply in_flat_map. exists invoice. split; [assumption|].
    unfold invoice_reminders. apply in_flat_map. exists (name, rule).
    split; [assumption|]. rewrite Hr. now left.
  - intros r Hret. unfold get_due_reminders in Hret. apply in_flat_map in Hret.
    destruct Hret as (invoice & Hin & Hr).
    unfold invoice_reminders in Hr. apply in_flat_map in Hr.
    destruct Hr as ([name rule] & Hrule & Hr).
    apply rule_reminder_sound in Hr. destruct Hr as (Hd & -> & -> & _).
    split; [assumption|]. exists rule. split; assumption.
  - intros log. unfold get_due_reminders.
    induction unpaid as [|invoice rest IH]; [reflexivity|].
    simpl. rewrite !map_app, IH, invoice_reminders_log. reflexivity.
Qed.

(** An invoice due in three days is returned with rule [reminder_1]
    although its log already holds that rule. *)
Lemma get_due_reminders_ignores_reminder_log_witness :
  exists r, In r (get_due_reminders noon [due_in_three_days 1 ["reminder_1"]]) /\
            r_invoice r = due_in_three_days 1 ["reminder_1"] /\
            r_rule r = "reminder_1" /\ r_template r = "reminder_3d".
Proof.
  apply (proj1 (get_due_reminders_ignores_reminder_log noon
                  [due_in_three_days 1 ["reminder_1"]])
           (due_in_three_days 1 ["reminder_1"]) "reminder_1"
           (mkRule (Some 3) None "reminder_3d")).
  - now left.
  - now left.
  - vm_compute. reflexivity.
Defined.

(** C1 fails on the code: the log of this invoice already holds
    [reminder_1], and [get_due_reminders] returns the invoice with
    [reminder_1] all the same. *)
Lemma get_due_reminders_returns_logged_rule :
  In "reminder_1" (reminder_log (due_in_three_days 1 ["reminder_1"])) /\
  map (fun r => (number (r_invoice r), r_rule r))
    (get_due_reminders noon [due_in_three_days 1 ["reminder_1"]]) =
  [("INV-1", "reminder_1")].
Proof. split; [now left | vm_compute; reflexivity]. Qed.

(** *** The send loop *)

Context {St Sd : Type} `{StateManager St} `{EmailSender Sd}.

(** With no client paused and a sender that has [n] sends left, the loop
    reports every reminder sent when they are at most [n], and otherwise
    [n] sent and one rate-limited, stopping there. *)
Lemma send_loop_sends_left (reminders : list Reminder) :
  (forall s c n r, nobody_paused s -> nobody_paused (record_email_sent s c n r)) ->
  forall (n : nat) (st : St) (m : Sd) (c : Counts),
    nobody_paused st ->
    sends_left n m ->
    counts_of (send_loop reminders st m c) =
    if (length reminders <=? n)%nat
    then mkCounts (sent c + length reminders) (failed c) (rate_limited c)
    else mkCounts (sent c + n) (failed c) (S (rate_limited c)).
Proof.
  intros Hframe.
  induction reminders as [|r rest IH]; intros n st m c Hpause Hleft.
  - destruct c. unfold counts_of. simpl. f_equal. lia.
  - simpl send_loop. rewrite Hpause.
    destruct n as [|n].
    + simpl in Hleft.
      destruct (Hleft (email (r_invoice r)) (r_template r) (r_invoice r)) as [m' ->].
      unfold counts_of. simpl. f_equal. lia.
    + simpl in Hleft.
      destruct (Hleft (email (r_invoice r)) (r_template r) (r_invoice r))
        as (m' & -> & Hleft').
      rewrite (IH n _ m' _ (Hframe _ _ _ _ Hpause) Hleft'). simpl.
      destruct (length rest <=? n)%nat; simpl; f_equal; lia.
Qed.

(** C4, as amended: with 21 reminders due, no client paused and a sender
    whose limiter grants 20 sends in the cycle, one batch of size 20
    returns sent=20, rate_limited=0, failed=0: the slice
    [reminders[:20]] ends the batch before the 21st reminder is tried.
    The counts sent=20, rate_limited=1, failed=0 are those of a batch
    size of 21, whose 21st send is refused. *)
Theorem send_reminders_batch_of_20 (now : Z) (st : St) (m : Sd) :
  length (get_due_reminders now (get_all_unpaid st)) = 21%nat ->
  nobody_paused st ->
  (forall s c n r, nobody_paused s -> nobody_paused (record_email_sent s c n r)) ->
  sends_left 20 m ->
  counts_of (send_reminders now 20 st m) = mkCounts 20 0 0 /\
  counts_of (send_reminders now 21 st m) = mkCounts 20 0 1.
Proof.
  intros Hlen Hpause Hframe Hleft. unfold send_reminders, slice_to. simpl.
  split.
  - rewrite (send_loop_sends_left _ Hframe 20 st m _ Hpause Hleft).
    rewrite length_firstn, Hlen. reflexivity.
  - rewrite (send_loop_sends_left _ Hframe 20 st m _ Hpause Hleft).
    rewrite length_firstn, Hlen. reflexivity.
Qed.

End SchedulerProperties.

Section SchedulerExamples.
Import Scheduler.

Lemma stub_sends_left (k : nat) :
  (k <= 20)%nat -> sends_left k (20 - k)%nat.
Proof.
  induction k as [|k IH]; intros Hk; simpl; intros to tpl inv.
  - exists 20%nat. reflexivity.
  - exists (20 - k)%nat. split; [|apply IH; lia].
    change (stub_send (20 - S k) = (Returned, (20 - k)%nat)).
    unfold stub_send.
    destruct (Nat.leb_spec 20 (20 - S k)) as [E|E]; [lia|].
    f_equal. lia.
Qed.

(** The mock state of the tests with 21 invoices due and the stub sender
    of the emailer script, fresh in its window. *)
Lemma send_reminders_batch_of_20_witness :
  counts_of (send_reminders noon 20 twenty_one_due 0%nat) = mkCounts 20 0 0 /\
  counts_of (send_reminders noon 21 twenty_one_due 0%nat) = mkCounts 20 0 1.
Proof.
  apply (send_reminders_batch_of_20 noon twenty_one_due 0%nat).
  - vm_compute. reflexivity.
  - intros c. reflexivity.
  - intros s c n r Hs c'. exact (Hs c').
  - apply (stub_sends_left 20). lia.
Defined.

(** C4 fails on the code: 21 invoices are due and the sender allows 20
    sends, yet the batch of size 20 reports no rate-limited reminder;
    and a second batch of 20 in a fresh window goes to the first 20
    invoices again, the 21st (INV-20) receiving nothing. *)
Lemma batch_of_20_reports_no_rate_limit :
  length (get_due_reminders noon (get_all_unpaid twenty_one_due)) = 21%nat /\
  counts_of (send_reminders noon 20 twenty_one_due 0%nat) = mkCounts 20 0 0 /\
  rate_limited (counts_of (send_reminders noon 20 twenty_one_due 0%nat)) <> 1%nat /\
  counts_of (send_reminders noon 20
               (snd (fst (send_reminders noon 20 twenty_one_due 0%nat))) 0%nat)
    = mkCounts 20 0 0 /\
  List.existsb (fun call => String.eqb (snd (fst call)) "INV-20")
    (mock_sent (snd (fst (send_reminders noon 20
                  (snd (fst (send_reminders noon 20 twenty_one_due 0%nat))) 0%nat))))
    = false.
Proof. vm_compute. repeat split; congruence. Qed.

End SchedulerExamples.

(** ** The rate limiter *)

Section RateLimiterProperties.
Import RateLimiter.
#[local] Open Scope Q_scope.

Lemma Qltb_lt x y : Qltb x y = true <-> x < y.
Proof.
  unfold Qltb. rewrite negb_true_iff.
  destruct (Qle_bool y x) eqn:E.
  - apply Qle_bool_iff in E. split; [discriminate | lra].
  - split; [intros _ | reflexivity].
    apply Qnot_le_lt. intros Hle. apply Qle_bool_iff in Hle. congruence.
Qed.

Lemma Qltb_ge x y : Qltb x y = false <-> y <= x.
Proof.
  unfold Qltb. rewrite negb_false_iff. apply Qle_bool_iff.
Qed.

Lemma Qle_bool_false x y : Qle_bool x y = false <-> y < x.
Proof.
  rewrite <- Qltb_lt. unfold Qltb. now rewrite negb_true_iff.
Qed.

Lemma popleft_expired_sorted cutoff queue :
  nondecreasing queue ->
  popleft_expired cutoff queue = List.filter (fun t => Qle_bool cutoff t) queue.
Proof.
  induction queue as [|t rest IH]; intros Hs; [reflexivity|].
  destruct Hs as [Hall Hs]. simpl.
  unfold Qltb at 1. destruct (Qle_bool cutoff t) eqn:E; simpl.
  - f_equal. apply Qle_bool_iff in E.
    symmetry. apply forallb_filter_id. apply forallb_forall.
    intros u Hu. rewrite Forall_forall in Hall.
    apply Qle_bool_iff. specialize (Hall u). 
    assert (t <= u) by (apply Hall; apply list_elem_of_In; exact Hu). lra.
  - apply IH, Hs.
Qed.

Lemma popleft_expired_keeps cutoff queue :
  Forall (fun t => cutoff <= t) queue -> popleft_expired cutoff queue = queue.
Proof.
  destruct queue as [|t rest]; [reflexivity|].
  intros Hall. apply Forall_inv in Hall. simpl.
  apply Qltb_ge in Hall. now rewrite Hall.
Qed.

Lemma popleft_expired_drops cutoff olds news :
  Forall (fun t => t < cutoff) olds ->
  popleft_expired cutoff (olds ++ news) = popleft_expired cutoff news.
Proof.
  induction olds as [|t rest IH]; intros Hall; [reflexivity|].
  simpl. pose proof (Forall_inv Hall) as Ht. apply Qltb_lt in Ht. rewrite Ht.
  apply IH. exact (Forall_inv_tail Hall).
Qed.

Lemma refill_config now l : config (_refill_daily_tokens now l) = config l.
Proof. unfold _refill_daily_tokens. now destruct (Qle_bool _ _). Qed.

Lemma refill_queue now l : _cycle_queue (_refill_daily_tokens now l) = _cycle_queue l.
Proof. unfold _refill_daily_tokens. now destruct (Qle_bool _ _). Qed.

Lemma try_acquire_iff (now : Q) (l : Limiter) :
  nondecreasing (_cycle_queue l) ->
  fst (try_acquire now l) = true <->
  (Z.of_nat (length (stamps_in_window now l)) < max_per_cycle (config l))%Z /\
  (0 < daily_budget now l)%Z.
Proof.
  intros Hs. unfold try_acquire, daily_budget, stamps_in_window.
  unfold _can_consume_cycle_token, _cleanup_cycle_queue. simpl.
  rewrite refill_config, refill_queue.
  rewrite (popleft_expired_sorted _ _ Hs).
  destruct (Z.ltb_spec 0 (_daily_tokens (_refill_daily_tokens now l))) as [Hd|Hd].
  - destruct (Z.ltb_spec
                (Z.of_nat (length (List.filter
                   (fun t => Qle_bool (now - inject_Z (cycle_seconds (config l))) t)
                   (_cycle_queue l))))
                (max_per_cycle (config l))) as [Hc|Hc]; simpl.
    + split; auto.
    + split; [discriminate | intros [? ?]; lia].
  - simpl. split; [discriminate | intros [? ?]; lia].
Qed.

Lemma try_acquire_consumes (now : Q) (l : Limiter) :
  nondecreasing (_cycle_queue l) ->
  fst (try_acquire now l) = true ->
  _daily_tokens (snd (try_acquire now l)) = (daily_budget now l - 1)%Z /\
  _cycle_queue (snd (try_acquire now l)) = stamps_in_window now l ++ [now].
Proof.
  intros Hs. unfold try_acquire, daily_budget, stamps_in_window.
  unfold _can_consume_cycle_token, _cleanup_cycle_queue. simpl.
  rewrite refill_config, refill_queue.
  rewrite (popleft_expired_sorted _ _ Hs).
  destruct (0 <? _)%Z; [|discriminate].
  destruct (_ <? _)%Z; [|discriminate].
  simpl. auto.
Qed.

Lemma nondecreasing_filter f queue :
  nondecreasing queue -> nondecreasing (List.filter f queue).
Proof.
  induction queue as [|t rest IH]; intros Hs; [exact I|].
  destruct Hs as [Hall Hs]. simpl. destruct (f t); [|auto].
  split; [|auto].
  rewrite Forall_forall in *. intros u Hu.
  apply Hall. apply list_elem_of_In in Hu. apply filter_In in Hu.
  apply list_elem_of_In. tauto.
Qed.

Lemma nondecreasing_snoc queue now :
  nondecreasing queue -> Forall (fun t => t <= now) queue ->
  nondecreasing (queue ++ [now]).
Proof.
  induction queue as [|t rest IH]; intros Hs Hb; simpl.
  - split; [constructor | exact I].
  - destruct Hs as [Hall Hs]. split.
    + apply Forall_app. split; [assumption|].
      constructor; [exact (Forall_inv Hb) | constructor].
    + apply IH; [assumption | exact (Forall_inv_tail Hb)].
Qed.

Lemma try_acquire_clock_ordered (now later : Q) (l : Limiter) :
  clock_ordered now l -> now <= later ->
  clock_ordered later (snd (try_acquire now l)).
Proof.
  intros [Hs Hb] Hle. unfold clock_ordered, try_acquire.
  unfold _can_consume_cycle_token, _cleanup_cycle_queue. simpl.
  rewrite refill_config, refill_queue.
  rewrite (popleft_expired_sorted _ _ Hs).
  set (kept := List.filter _ _).
  assert (Hks : nondecreasing kept) by (apply nondecreasing_filter, Hs).
  assert (Hkb : Forall (fun t => t <= now) kept).
  { rewrite Forall_forall in *. intros u Hu. apply Hb.
    apply list_elem_of_In in Hu. apply filter_In in Hu.
    apply list_elem_of_In. tauto. }
  assert (Hlater : forall q, Forall (fun t => t <= now) q -> Forall (fun t => t <= later) q).
  { intros q Hq. eapply Forall_impl; [exact Hq|]. simpl. intros; lra. }
  destruct (0 <? _)%Z; simpl.
  - destruct (_ <? _)%Z; simpl.
    + split; [apply nondecreasing_snoc; assumption|].
      apply Forall_app. split; [auto|]. constructor; [lra|constructor].
    + split; auto.
  - rewrite refill_queue. split; auto.
Qed.

Lemma init_clock_ordered cfg now : clock_ordered now (init cfg now).
Proof. split; [exact I | constructor]. Qed.

Lemma init_clock_ordered' cfg t0 now : clock_ordered now (init cfg t0).
Proof. split; [exact I | constructor]. Qed.

Lemma try_acquire_config now l : config (snd (try_acquire now l)) = config l.
Proof.
  unfold try_acquire, _can_consume_cycle_token, _cleanup_cycle_queue. simpl.
  destruct (0 <? _)%Z; simpl; [|apply refill_config].
  destruct (_ <? _)%Z; simpl; apply refill_config.
Qed.

Lemma acquire_all_config history : forall l,
  config (snd (acquire_all history l)) = config l.
Proof.
  induction history as [|t rest IH]; intros l; [reflexivity|].
  simpl. pose proof (try_acquire_config t l) as Hc.
  destruct (try_acquire t l) as [ok l']. specialize (IH l').
  destruct (acquire_all rest l') as [oks l'']. simpl in *. congruence.
Qed.

Lemma refill_tokens now l d :
  config l = default_config -> (d <= _daily_tokens l)%Z -> (d <= 100)%Z ->
  (d <= _daily_tokens (_refill_daily_tokens now l))%Z.
Proof.
  intros Hc Hd Hd'. unfold _refill_daily_tokens.
  destruct (Qle_bool _ _); [|assumption]. simpl. rewrite Hc. simpl. assumption.
Qed.

Lemma burst_cleanup lo hi u olds news :
  hi <= lo + 60 -> lo <= u -> u <= hi ->
  Forall (fun t => t < lo - 60) olds ->
  Forall (fun t => lo <= t /\ t <= hi) news ->
  popleft_expired (u - inject_Z 60) (olds ++ news) = news.
Proof.
  intros Hw Hlo Hhi Holds Hnews.
  rewrite popleft_expired_drops.
  - apply popleft_expired_keeps.
    eapply Forall_impl; [exact Hnews|]. simpl. intros t [? ?].
    change (inject_Z 60) with 60. lra.
  - eapply Forall_impl; [exact Holds|]. simpl. intros t ?.
    change (inject_Z 60) with 60. lra.
Qed.

Lemma try_acquire_in_burst lo hi k d u l :
  in_burst lo hi k d l -> hi <= lo + 60 -> lo <= u -> u <= hi ->
  (k < 20)%nat -> (1 <= d <= 100)%Z ->
  fst (try_acquire u l) = true /\
  in_burst lo hi (S k) (d - 1) (snd (try_acquire u l)).
Proof.
  intros (Hc & olds & news & Hq & Holds & Hnews & Hlen & Hd) Hw Hlo Hhi Hk Hd'.
  pose proof (refill_tokens u l d Hc Hd ltac:(lia)) as Hd1.
  unfold try_acquire, _can_consume_cycle_token, _cleanup_cycle_queue. simpl.
  rewrite refill_config, refill_queue, Hc, Hq. simpl cycle_seconds. simpl max_per_cycle.
  rewrite (burst_cleanup lo hi u olds news Hw Hlo Hhi Holds Hnews).
  destruct (Z.ltb_spec 0 (_daily_tokens (_refill_daily_tokens u l))) as [H0|H0]; [|lia].
  destruct (Z.ltb_spec (Z.of_nat (length news)) 20) as [H1|H1]; [|lia].
  simpl. split; [reflexivity|].
  split; [simpl; congruence|]. exists [], (news ++ [u]). simpl.
  repeat split; auto.
  - apply Forall_app. split; [assumption|]. constructor; [split; assumption|constructor].
  - rewrite length_app. simpl. lia.
  - lia.
Qed.

Lemma try_acquire_burst_full lo hi d u l :
  in_burst lo hi 20 d l -> hi <= lo + 60 -> lo <= u -> u <= hi ->
  (d <= 100)%Z ->
  fst (try_acquire u l) = false /\
  in_burst lo hi 20 d (snd (try_acquire u l)).
Proof.
  intros (Hc & olds & news & Hq & Holds & Hnews & Hlen & Hd) Hw Hlo Hhi Hd'.
  pose proof (refill_tokens u l d Hc Hd ltac:(lia)) as Hd1.
  unfold try_acquire, _can_consume_cycle_token, _cleanup_cycle_queue. simpl.
  rewrite refill_config, refill_queue, Hc, Hq. simpl cycle_seconds. simpl max_per_cycle.
  rewrite (burst_cleanup lo hi u olds news Hw Hlo Hhi Holds Hnews).
  destruct (Z.ltb_spec 0 (_daily_tokens (_refill_daily_tokens u l))) as [H0|H0].
  - destruct (Z.ltb_spec (Z.of_nat (length news)) 20) as [H1|H1]; [lia|].
    simpl. split; [reflexivity|]. split; [simpl; congruence|].
    exists [], news. simpl. repeat split; auto.
  - simpl. split; [reflexivity|]. split; [now rewrite refill_config|].
    exists olds, news. rewrite refill_queue. repeat split; auto.
Qed.

Lemma acquire_all_in_burst lo hi us : forall k d l,
  in_burst lo hi k d l -> hi <= lo + 60 ->
  Forall (fun u => lo <= u /\ u <= hi) us ->
  (k + length us <= 20)%nat -> (Z.of_nat (length us) <= d <= 100)%Z ->
  fst (acquire_all us l) = repeat true (length us) /\
  in_burst lo hi (k + length us) (d - Z.of_nat (length us)) (snd (acquire_all us l)).
Proof.
  induction us as [|u us IH]; intros k d l Hin Hw Hus Hk Hd.
  - simpl. split; [reflexivity|]. rewrite Nat.add_0_r, Z.sub_0_r. assumption.
  - simpl length in *. simpl acquire_all.
    pose proof (Forall_inv Hus) as [Hlo Hhi].
    destruct (try_acquire_in_burst lo hi k d u l Hin Hw Hlo Hhi ltac:(lia) ltac:(lia))
      as [Hok Hin'].
    destruct (try_acquire u l) as [ok l']. simpl in Hok, Hin'. subst ok.
    destruct (IH (S k) (d - 1)%Z l' Hin' Hw (Forall_inv_tail Hus) ltac:(lia) ltac:(lia))
      as [Hoks Hin''].
    destruct (acquire_all us l') as [oks l'']. simpl in *.
    split; [now rewrite Hoks|].
    replace (k + S (length us))%nat with (S k + length us)%nat by lia.
    replace (d - Z.of_nat (S (length us)))%Z with (d - 1 - Z.of_nat (length us))%Z by lia.
    assumption.
Qed.

Lemma in_burst_next lo hi lo' hi' k d l :
  in_burst lo hi k d l -> lo <= hi -> hi + 60 < lo' ->
  in_burst lo' hi' 0 d l.
Proof.
  intros (Hc & olds & news & Hq & Holds & Hnews & Hlen & Hd) Hlh Hgap.
  split; [assumption|]. exists (olds ++ news), []. rewrite app_nil_r.
  repeat split; auto.
  apply Forall_app. split.
  - eapply Forall_impl; [exact Holds|]. simpl. intros; lra.
  - eapply Forall_impl; [exact Hnews|]. simpl. intros t [? ?]. lra.
Qed.

Lemma acquire_all_app ts us l :
  acquire_all (ts ++ us) l =
  (fst (acquire_all ts l) ++ fst (acquire_all us (snd (acquire_all ts l))),
   snd (acquire_all us (snd (acquire_all ts l)))).
Proof.
  revert l. induction ts as [|t ts IH]; intros l; simpl.
  - now destruct (acquire_all us l).
  - destruct (try_acquire t l) as [ok l']. rewrite IH.
    destruct (acquire_all ts l') as [oks l'']. simpl.
    reflexivity.
Qed.

Lemma twenty_first_refused (t0 lo hi lo' hi' t21 : Q) (ts us : list Q) :
  length ts = 20%nat -> Forall (fun t => lo <= t /\ t <= hi) (ts ++ [t21]) ->
  hi <= lo + 60 ->
  length us = 20%nat -> Forall (fun u => lo' <= u /\ u <= hi') us ->
  hi' <= lo' + 60 -> hi + 60 < lo' ->
  fst (acquire_all (ts ++ t21 :: us) (init default_config t0)) =
  repeat true 20 ++ false :: repeat true 20.
Proof.
  intros Hts Hall Hw Hus Hall' Hw' Hgap.
  apply Forall_app in Hall. destruct Hall as [Hall H21].
  apply Forall_inv in H21. destruct H21 as [Hlo Hhi].
  assert (H0 : in_burst lo hi 0 100 (init default_config t0)).
  { split; [reflexivity|]. exists [], []. simpl. repeat split; auto; lia. }
  destruct (acquire_all_in_burst lo hi ts 0 100 _ H0 Hw Hall ltac:(lia) ltac:(lia))
    as [Hoks Hin].
  rewrite acquire_all_app. simpl fst. rewrite Hoks, Hts. f_equal.
  rewrite Hts in Hin. simpl in Hin.
  set (l1 := snd (acquire_all ts (init default_config t0))) in *.
  simpl acquire_all.
  destruct (try_acquire_burst_full lo hi 80 t21 l1 Hin Hw Hlo Hhi ltac:(lia)) as [Hno Hin'].
  destruct (try_acquire t21 l1) as [ok l2]. simpl in Hno, Hin'. subst ok.
  pose proof (in_burst_next lo hi lo' hi' _ _ _ Hin' ltac:(lra) Hgap) as Hin2.
  destruct (acquire_all_in_burst lo' hi' us 0 80 _ Hin2 Hw' Hall' ltac:(lia) ltac:(lia))
    as [Hoks2 _].
  destruct (acquire_all us l2) as [oks l3]. simpl in *. now rewrite Hoks2, Hus.
Qed.

(** A limiter driven from [init] by acquisitions at clock readings that
  never decrease has its queue in clock order. *)
Lemma acquire_all_clock_ordered (history : list Q) :
  forall (l : Limiter) (now : Q),
    nondecreasing (history ++ [now]) ->
    clock_ordered (hd now history) l ->
    clock_ordered now (snd (acquire_all history l)).
Proof.
  induction history as [|t rest IH]; intros l now Hs Hl; [exact Hl|].
  simpl in Hs, Hl. destruct Hs as [Hall Hs].
  simpl acquire_all.
  pose proof (try_acquire_clock_ordered t (hd now rest) l Hl) as Hstep.
  destruct (try_acquire t l) as [ok l']. simpl in Hstep.
  specialize (IH l' now Hs).
  destruct (acquire_all rest l') as [oks l'']. simpl in *.
  apply IH, Hstep.
  destruct rest as [|u rest]; simpl in *; exact (Forall_inv Hall).
Qed.

(** C5: for a limiter reached from [init] through acquisitions at clock
    readings that never decrease, [try_acquire] succeeds exactly when
    fewer than [max_per_cycle] timestamps lie in the rolling window and
    the daily budget is positive; a success takes one daily token and
    appends the timestamp to the window.  Hence, for the default
    20-per-60s limiter, 20 acquisitions inside one window succeed, the
    21st is refused, and 20 acquisitions made after those entries have
    expired succeed again. *)
Theorem try_acquire_both_bounds (cfg : RateLimitConfig) (t0 : Q)
    (history : list Q) (now : Q) :
  nondecreasing (history ++ [now]) ->
  (fst (try_acquire now (snd (acquire_all history (init cfg t0)))) = true <->
     (Z.of_nat (length (stamps_in_window now (snd (acquire_all history (init cfg t0)))))
      < max_per_cycle cfg)%Z /\
     (0 < daily_budget now (snd (acquire_all history (init cfg t0))))%Z) /\
  (fst (try_acquire now (snd (acquire_all history (init cfg t0)))) = true ->
     _daily_tokens (snd (try_acquire now (snd (acquire_all history (init cfg t0))))) =
       (daily_budget now (snd (acquire_all history (init cfg t0))) - 1)%Z /\
     _cycle_queue (snd (try_acquire now (snd (acquire_all history (init cfg t0))))) =
       stamps_in_window now (snd (acquire_all history (init cfg t0))) ++ [now]) /\
  (forall (lo hi lo' hi' t21 : Q) (ts us : list Q),
     length ts = 20%nat -> Forall (fun t => lo <= t /\ t <= hi) (ts ++ [t21]) ->
     hi <= lo + 60 ->
     length us = 20%nat -> Forall (fun u => lo' <= u /\ u <= hi') us ->
     hi' <= lo' + 60 -> hi + 60 < lo' ->
     fst (acquire_all (ts ++ t21 :: us) (init default_config t0)) =
     repeat true 20 ++ false :: repeat true 20).
Proof.
  intros Hclock.
  assert (Hl : clock_ordered now (snd (acquire_all history (init cfg t0)))).
  { apply acquire_all_clock_ordered; [assumption | apply init_clock_ordered']. }
  destruct Hl as [Hs _].
  assert (Hcfg : config (snd (acquire_all history (init cfg t0))) = cfg)
    by apply acquire_all_config.
  split; [|split].
  - pose proof (try_acquire_iff now _ Hs) as Hiff. rewrite Hcfg in Hiff. exact Hiff.
  - apply try_acquire_consumes, Hs.
  - intros. eapply twenty_first_refused; eassumption.
Qed.

(** After acquisitions at times 0, 10 and 50, one at time 65 is granted
    and leaves the timestamps 10, 50 and 65 in the window; and a fresh
    limiter grants 20 acquisitions at time 0, refuses one at time 30 and
    grants 20 more at time 100. *)
Lemma try_acquire_both_bounds_witness :
  fst (try_acquire 65 (snd (acquire_all [0; 10; 50] (init default_config 0)))) = true /\
  _cycle_queue (snd (try_acquire 65 (snd (acquire_all [0; 10; 50] (init default_config 0)))))
  = [10; 50; 65] /\
  fst (acquire_all (repeat 0 20 ++ 30 :: repeat 100 20) (init default_config 0)) =
  repeat true 20 ++ false :: repeat true 20.
Proof.
  assert (Hs : nondecreasing ([0; 10; 50] ++ [65])).
  { simpl. repeat split; repeat constructor; lra. }
  pose proof (try_acquire_both_bounds default_config 0 [0; 10; 50] 65 Hs)
    as (Hiff & Hcons & Hburst).
  assert (Hok : fst (try_acquire 65
                       (snd (acquire_all [0; 10; 50] (init default_config 0)))) = true).
  { apply Hiff. split; vm_compute; reflexivity. }
  split; [exact Hok|]. split.
  - destruct (Hcons Hok) as [_ Hq]. rewrite Hq. vm_compute. reflexivity.
  - apply (Hburst 0 30 100 100 30 (repeat 0 20) (repeat 100 20)).
    + reflexivity.
    + simpl. repeat (constructor; [split; lra|]). constructor.
    + lra.
    + reflexivity.
    + simpl. repeat (constructor; [split; lra|]). constructor.
    + lra.
    + lra.
Defined.

End RateLimiterProperties.

(** ** The token validator *)

Section TokenValidatorProperties.
Import TokenValidator.
#[local] Open Scope Q_scope.

Context {C : Type} `{TokenCache C}.

(** With at least [buffer_seconds] remaining the cached token is
    returned and neither the validator nor the cache changes. *)
Lemma validate_returns_cached now clock account buffer_seconds v (cache : C) token :
  degraded_mode v = false ->
  get_token cache (provider v) account = Some token ->
  inject_Z buffer_seconds <= inject_Z (expires_at token) - now ->
  validate_before_request now clock account buffer_seconds v cache =
  (Return (mkInfo (access_token token) (token_type token)
             (int_of (inject_Z (expires_at token) - now))
             (refresh_token token) account), v, cache).
Proof.
  intros Hd Ht Hrem. unfold validate_before_request. rewrite Hd, Ht.
  apply Qltb_ge in Hrem. now rewrite Hrem.
Qed.

(** With less than [buffer_seconds] remaining the call is the silent
    refresh. *)
Lemma validate_refreshes now clock account buffer_seconds v (cache : C) token :
  degraded_mode v = false ->
  get_token cache (provider v) account = Some token ->
  inject_Z (expires_at token) - now < inject_Z buffer_seconds ->
  validate_before_request now clock account buffer_seconds v cache =
  _silent_refresh clock account token v cache.
Proof.
  intros Hd Ht Hrem. unfold validate_before_request. rewrite Hd, Ht.
  apply Qltb_lt in Hrem. now rewrite Hrem.
Qed.

Lemma int_of_inject_Z (z : Z) : int_of (inject_Z z) = z.
Proof. unfold int_of. simpl. apply Z.quot_1_r. Qed.

(** At exactly [buffer_seconds] before expiry, the cached token is
    returned unrefreshed, for every token and buffer. *)
Lemma validate_at_buffer clock account buffer_seconds v (cache : C) token :
  degraded_mode v = false ->
  get_token cache (provider v) account = Some token ->
  exists info,
    validate_before_request (inject_Z (expires_at token - buffer_seconds)) clock
      account buffer_seconds v cache = (Return info, v, cache) /\
    info_access_token info = access_token token.
Proof.
  intros Hd Ht. eexists. split.
  - apply (validate_returns_cached _ clock account buffer_seconds v cache token Hd Ht).
    unfold inject_Z, Qle, Qminus, Qplus, Qopp. simpl. lia.
  - reflexivity.
Qed.

(** ... while [is_expired] holds such a token to be expired. *)
Lemma is_expired_at_buffer token :
  is_expired (inject_Z (expires_at token - 300)) token = true.
Proof.
  unfold is_expired. rewrite int_of_inject_Z. apply Z.leb_refl.
Qed.

End TokenValidatorProperties.

Section TokenValidatorExamples.
Import TokenValidator.
#[local] Open Scope Q_scope.

(** C3 at its boundary: the token expires exactly 300 seconds after the
    clock reading and [buffer_seconds] is 300.  [is_expired] says the
    token is expired, yet [validate_before_request] returns the cached
    token with [expires_in = 300] and refreshes nothing: validator and
    cache are as before.  One second closer to expiry the refresh runs;
    one second further the token is returned unrefreshed. *)
Lemma validate_at_buffer_is_not_refreshed :
  is_expired (inject_Z t_now) expiring_token = true /\
  validate_before_request (inject_Z t_now) (wall_clock (inject_Z t_now))
    "ops@novotechno" 300 (new_validator "microsoft") example_cache =
  (Return (mkInfo "eyJ0eXAiOiJKV1Qi" "Bearer" 300 (Some "refresh_123") "ops@novotechno"),
   new_validator "microsoft", example_cache) /\
  validate_before_request (inject_Z (t_now + 1)) (wall_clock (inject_Z (t_now + 1)))
    "ops@novotechno" 300 (new_validator "microsoft") example_cache =
  _silent_refresh (wall_clock (inject_Z (t_now + 1))) "ops@novotechno" expiring_token
    (new_validator "microsoft") example_cache /\
  validate_before_request (inject_Z (t_now - 1)) (wall_clock (inject_Z (t_now - 1)))
    "ops@novotechno" 300 (new_validator "microsoft") example_cache =
  (Return (mkInfo "eyJ0eXAiOiJKV1Qi" "Bearer" 301 (Some "refresh_123") "ops@novotechno"),
   new_validator "microsoft", example_cache).
Proof. repeat split; vm_compute; reflexivity. Qed.

End TokenValidatorExamples.

(** ** The invoice state store *)

Section InvoiceStateProperties.
Import InvoiceState.


Lemma bind_inr {A B} (m : M A) (k : A -> M B) w b w2 :
  bind m k w = (inr b, w2) ->
  exists a w1, m w = (inr a, w1) /\ k a w1 = (inr b, w2).
Proof.
  unfold bind. destruct (m w) as [[e|a] w1]; [discriminate|]. eauto.
Qed.

Lemma finally_inr {A} (body : M A) (cleanup : M unit) w a w2 :
  finally body cleanup w = (inr a, w2) ->
  exists w1, body w = (inr a, w1) /\ cleanup w1 = (inr tt, w2).
Proof.
  unfold finally. destruct (body w) as [r w1].
  destruct (cleanup w1) as [[e|[]] w'] eqn:E; [discriminate|].
  intros [= -> ->]. eauto.
Qed.

Lemma drop_meta_lookup (d : gmap string json) (k : string) :
  drop_meta d !! k = if is_meta_key k then None else d !! k.
Proof.
  unfold drop_meta. destruct (is_meta_key k) eqn:E.
  - apply map_lookup_filter_None. right. intros v _. simpl. congruence.
  - destruct (d !! k) as [v|] eqn:Hk.
    + apply map_lookup_filter_Some. split; [assumption|]. simpl. assumption.
    + apply map_lookup_filter_None. left. assumption.
Qed.

Lemma differs_false stored computed :
  differs stored computed = false <-> stored = JStr computed.
Proof.
  destruct stored; simpl; try (split; [discriminate | intros [=]]).
  rewrite negb_false_iff. rewrite String.eqb_eq. split; [now intros -> | now intros [= ->]].
Qed.
Variable state_dir : Path.
Variable enable_locking : bool.
Variable utcnow : nat -> string.
Variable uuid8 : nat -> string.
Variable sha256_16 : gmap string json -> string.

Lemma log_event_files c i e p w r w' :
  _log_event utcnow uuid8 c i e p w = (r, w') -> files w' = files w.
Proof. unfold _log_event, bind, now_iso, _generate_event_id. simpl. now intros [= _ <-]. Qed.

Lemma release_lock_files p w r w' :
  _release_lock enable_locking p w = (r, w') -> files w' = files w.
Proof.
  unfold _release_lock. destruct enable_locking; simpl.
  - destruct (_locks w !! p) as [[|]|]; now intros [= _ <-].
  - unfold ret. now intros [= _ <-].
Qed.

Lemma unlink_gone p w w' :
  unlink p w = (inr tt, w') -> files w' !! p = None.
Proof.
  unfold unlink, bind, get_files, put_files. simpl.
  destruct (files w !! p); [|discriminate].
  intros [= <-]. simpl. apply lookup_delete_eq.
Qed.

Lemma mark_paid_removes_active client invoice payment w a w1 :
  mark_paid state_dir enable_locking utcnow uuid8 sha256_16 client invoice payment w
    = (inr a, w1) ->
  files w1 !! state_file_of state_dir client invoice = None.
Proof.
  unfold mark_paid. intros Hm.
  apply bind_inr in Hm. destruct Hm as (present & w0 & _ & Hm).
  destruct (negb present); [discriminate|].
  apply finally_inr in Hm. destruct Hm as (w2 & Hbody & Hrel).
  rewrite (release_lock_files _ _ _ _ Hrel). clear Hrel.
  apply bind_inr in Hbody. destruct Hbody as (? & w3 & _ & Hbody).
  apply bind_inr in Hbody. destruct Hbody as (loaded & w4 & _ & Hbody).
  destruct loaded as [[| | | | |d]|]; try discriminate.
  apply bind_inr in Hbody. destruct Hbody as (paid_at & w5 & _ & Hbody).
  apply bind_inr in Hbody. destruct Hbody as (? & w6 & _ & Hbody).
  apply bind_inr in Hbody. destruct Hbody as (? & w7 & _ & Hbody).
  apply bind_inr in Hbody. destruct Hbody as ([] & w8 & Hun & Hbody).
  apply bind_inr in Hbody. destruct Hbody as (? & w9 & Hlog & Hbody).
  unfold ret in Hbody. injection Hbody as <- <-.
  rewrite (log_event_files _ _ _ _ _ _ _ Hlog).
  exact (unlink_gone _ _ _ Hun).
Qed.

Lemma mark_paid_absent client invoice payment w :
  files w !! state_file_of state_dir client invoice = None ->
  mark_paid state_dir enable_locking utcnow uuid8 sha256_16 client invoice payment w
    = (inl (FileNotFoundError (state_file_of state_dir client invoice)), w).
Proof.
  intros Hnone. unfold mark_paid, bind, exists_file. simpl. rewrite Hnone.
  reflexivity.
Qed.

Lemma archive_is_not_active client invoice :
  archive_file_of state_dir client invoice <> state_file_of state_dir client invoice.
Proof.
  unfold archive_file_of, state_file_of. intros Heq.
  apply app_inv_head in Heq. discriminate.
Qed.

(** After a completed [mark_paid] the archive holds the paid record. *)
Lemma mark_paid_archives client invoice payment w a w1 :
  mark_paid state_dir enable_locking utcnow uuid8 sha256_16 client invoice payment w
    = (inr a, w1) ->
  a = archive_file_of state_dir client invoice /\
  exists d, files w1 !! a = Some (Doc (JObj d)) /\
            d !! "status" = Some (JStr "paid") /\
            d !! "payment" = Some (JObj payment).
Proof.
  unfold mark_paid. intros Hm.
  apply bind_inr in Hm. destruct Hm as (present & w0 & _ & Hm).
  destruct (negb present); [discriminate|].
  apply finally_inr in Hm. destruct Hm as (w2 & Hbody & Hrel).
  rewrite (release_lock_files _ _ _ _ Hrel). clear Hrel.
  apply bind_inr in Hbody. destruct Hbody as (? & w3 & _ & Hbody).
  apply bind_inr in Hbody. destruct Hbody as (loaded & w4 & _ & Hbody).
  destruct loaded as [[| | | | |d]|]; try discriminate.
  apply bind_inr in Hbody. destruct Hbody as (paid_at & w5 & _ & Hbody).
  apply bind_inr in Hbody. destruct Hbody as (? & w6 & _ & Hbody).
  apply bind_inr in Hbody. destruct Hbody as ([] & w7 & Haw & Hbody).
  apply bind_inr in Hbody. destruct Hbody as ([] & w8 & Hun & Hbody).
  apply bind_inr in Hbody. destruct Hbody as (? & w9 & Hlog & Hbody).
  unfold ret in Hbody. injection Hbody as <- <-.
  split; [reflexivity|].
  rewrite (log_event_files _ _ _ _ _ _ _ Hlog).
  unfold unlink, bind, get_files, put_files in Hun. simpl in Hun.
  destruct (files w7 !! state_file_of state_dir client invoice); [|discriminate].
  injection Hun as <-. simpl.
  rewrite lookup_delete_ne by (apply not_eq_sym, archive_is_not_active).
  unfold atomic_write, bind, get_files, put_files in Haw. simpl in Haw.
  injection Haw as <-. simpl. rewrite lookup_insert_eq.
  eexists. split; [reflexivity|]. split.
  - rewrite lookup_insert_ne by discriminate.
    rewrite lookup_insert_ne by discriminate.
    apply lookup_insert_eq.
  - apply lookup_insert_eq.
Qed.

(** C2, as amended: once [mark_paid] has completed for a key (record
    archived with status paid, active copy removed), a second call with
    the same key raises [FileNotFoundError] for the active state file and
    leaves the store, archive record included, as the first call left
    it. *)
Theorem mark_paid_again_raises (client invoice : string)
    (payment payment' : gmap string json) (w w1 : World) (archive : Path) :
  mark_paid state_dir enable_locking utcnow uuid8 sha256_16 client invoice payment w
    = (inr archive, w1) ->
  archive = archive_file_of state_dir client invoice /\
  files w1 !! state_file_of state_dir client invoice = None /\
  (exists d, files w1 !! archive = Some (Doc (JObj d)) /\
             d !! "status" = Some (JStr "paid") /\
             d !! "payment" = Some (JObj payment)) /\
  mark_paid state_dir enable_locking utcnow uuid8 sha256_16 client invoice payment' w1
    = (inl (FileNotFoundError (state_file_of state_dir client invoice)), w1).
Proof.
  intros Hm.
  pose proof (mark_paid_removes_active _ _ _ _ _ _ Hm) as Hgone.
  destruct (mark_paid_archives _ _ _ _ _ _ Hm) as [Ha Hd].
  repeat split; try assumption.
  apply mark_paid_absent, Hgone.
Qed.

Lemma recover_or_raise_spec state_file e w :
  recover_or_raise state_file e w =
  match backup_document w state_file with
  | Some v => (inr (Some v), w)
  | None => (inl e, w)
  end.
Proof.
  unfold recover_or_raise, _attempt_recovery, backup_document, bind, get_files. simpl.
  destruct (files w !! add_suffix state_file ".bak") as [[v|t]|]; simpl; try reflexivity.
  destruct (truthy v); reflexivity.
Qed.

(** C6, as amended: with verification on, [read_state] returns [None]
    when the state file is absent.  For a record that carries a non-empty
    [_checksum] it recomputes the checksum over the record minus its
    underscore-prefixed fields and compares; on a match it returns the
    record.  On a mismatch, and likewise when the file does not parse, it
    returns the document of the sibling [.bak] when that file exists,
    parses and is not empty, and raises [StateCorruptionError] otherwise
    (no backup, or a backup that does not load or is empty). *)
Theorem read_state_verify (client invoice : string) (w : World) :
  (files w !! state_file_of state_dir client invoice = None ->
   read_state state_dir sha256_16 client invoice true w = (inr None, w)) /\
  (forall d stored,
     files w !! state_file_of state_dir client invoice = Some (Doc (JObj d)) ->
     d !! "_checksum" = Some stored -> truthy stored = true ->
     (stored = JStr (sha256_16 (drop_meta (delete "_checksum" d))) ->
      read_state state_dir sha256_16 client invoice true w =
      (inr (Some (JObj (delete "_checksum" d))), w)) /\
     (stored <> JStr (sha256_16 (drop_meta (delete "_checksum" d))) ->
      forall v, backup_document w (state_file_of state_dir client invoice) = Some v ->
      read_state state_dir sha256_16 client invoice true w = (inr (Some v), w)) /\
     (stored <> JStr (sha256_16 (drop_meta (delete "_checksum" d))) ->
      backup_document w (state_file_of state_dir client invoice) = None ->
      exists e, read_state state_dir sha256_16 client invoice true w = (inl e, w) /\
                is_StateCorruptionError e = true)) /\
  (forall text,
     files w !! state_file_of state_dir client invoice = Some (Junk text) ->
     (forall v, backup_document w (state_file_of state_dir client invoice) = Some v ->
      read_state state_dir sha256_16 client invoice true w = (inr (Some v), w)) /\
     (backup_document w (state_file_of state_dir client invoice) = None ->
      exists e, read_state state_dir sha256_16 client invoice true w = (inl e, w) /\
                is_StateCorruptionError e = true)).
Proof.
  split; [|split].
  - intros Hnone. unfold read_state, bind, get_files. simpl. now rewrite Hnone.
  - intros d stored Hfile Hsum Htruthy.
    unfold read_state, bind, get_files. simpl. rewrite Hfile, Hsum, Htruthy.
    unfold _compute_checksum.
    destruct (differs stored _) eqn:Hdiff.
    + rewrite recover_or_raise_spec.
      assert (Hne : stored <> JStr (sha256_16 (drop_meta (delete "_checksum" d)))).
      { intros Heq. apply differs_false in Heq. congruence. }
      split; [intros Heq; contradiction | split].
      * intros _ v ->. reflexivity.
      * intros _ ->. eexists. split; reflexivity.
    + apply differs_false in Hdiff.
      split; [intros _; reflexivity | split; intros Hne; contradiction].
  - intros text Hfile. unfold read_state, bind, get_files. simpl. rewrite Hfile.
    rewrite recover_or_raise_spec. split.
    + intros v ->. reflexivity.
    + intros ->. eexists. split; reflexivity.
Qed.

(** C10: a record without a [_checksum] field is returned as it is, with
    no verification; and when the checksum comparison rejects a read, the
    record carries a non-empty [_checksum] that differs from the
    recomputed one. *)
Theorem read_state_no_checksum (client invoice : string) (w : World) :
  (forall d,
     files w !! state_file_of state_dir client invoice = Some (Doc (JObj d)) ->
     d !! "_checksum" = None ->
     read_state state_dir sha256_16 client invoice true w = (inr (Some (JObj d)), w)) /\
  (forall stored computed w',
     read_state state_dir sha256_16 client invoice true w =
       (inl (ChecksumMismatch stored computed), w') ->
     exists d, files w !! state_file_of state_dir client invoice = Some (Doc (JObj d)) /\
               d !! "_checksum" = Some stored /\ truthy stored = true /\
               stored <> JStr (sha256_16 (drop_meta (delete "_checksum" d)))).
Proof.
  split.
  - intros d Hfile Hsum. unfold read_state, bind, get_files. simpl.
    now rewrite Hfile, Hsum.
  - intros stored computed w'. unfold read_state, bind, get_files. simpl.
    destruct (files w !! state_file_of state_dir client invoice) as [[v|t]|] eqn:Hfile.
    + destruct v as [| | | | |d]; try (unfold raise; discriminate).
      destruct (d !! "_checksum") as [st|] eqn:Hsum; [|unfold ret; discriminate].
      destruct (truthy st) eqn:Ht; [|unfold ret; discriminate].
      unfold _compute_checksum.
      destruct (differs st _) eqn:Hdiff; [|unfold ret; discriminate].
      rewrite recover_or_raise_spec.
      destruct (backup_document w _); [discriminate|].
      intros [= -> <- <-]. exists d. repeat split; auto.
      intros Heq. apply differs_false in Heq. congruence.
    + rewrite recover_or_raise_spec. destruct (backup_document w _); discriminate.
    + unfold ret. discriminate.
Qed.

(** What the checksum covers: the record minus the fields whose name
    starts with an underscore. *)
Lemma compute_checksum_covers (d : gmap string json) :
  _compute_checksum sha256_16 d = sha256_16 (drop_meta d) /\
  forall k, drop_meta d !! k = if is_meta_key k then None else d !! k.
Proof. split; [reflexivity | apply drop_meta_lookup]. Qed.

End InvoiceStateProperties.

Section InvoiceStateExamples.
Import InvoiceState.

Lemma mark_paid_again_raises_witness :
  mark_paid demo_dir false demo_clock demo_uuid demo_digest "acme" "INV-001" demo_payment
    (snd (mark_paid demo_dir false demo_clock demo_uuid demo_digest "acme" "INV-001"
            demo_payment demo_world))
  = (inl (FileNotFoundError ["state"; "acme"; "INV-001.json"]),
     snd (mark_paid demo_dir false demo_clock demo_uuid demo_digest "acme" "INV-001"
            demo_payment demo_world)).
Proof.
  refine (proj2 (proj2 (proj2
    (mark_paid_again_raises demo_dir false demo_clock demo_uuid demo_digest
       "acme" "INV-001" demo_payment demo_payment demo_world _
       ["state"; "archive"; "acme"; "INV-001.json"] _)))).
  vm_compute. reflexivity.
Defined.

(** C2 fails on the code: the first [mark_paid] completes and returns the
    archive path; the second call for the same key raises
    [FileNotFoundError]. *)
Lemma second_mark_paid_fails :
  fst (mark_paid demo_dir false demo_clock demo_uuid demo_digest "acme" "INV-001"
         demo_payment demo_world)
  = inr ["state"; "archive"; "acme"; "INV-001.json"] /\
  fst (mark_paid demo_dir false demo_clock demo_uuid demo_digest "acme" "INV-001"
         demo_payment
         (snd (mark_paid demo_dir false demo_clock demo_uuid demo_digest "acme" "INV-001"
                 demo_payment demo_world)))
  = inl (FileNotFoundError ["state"; "acme"; "INV-001.json"]).
Proof. split; vm_compute; reflexivity. Qed.

(** With locking enabled the nested [write_state] finds the lock held
    by [mark_paid] itself, and the call ends in the [RuntimeError] of
    releasing a lock that is no longer held. *)
Lemma mark_paid_with_locking_raises :
  fst (mark_paid demo_dir true demo_clock demo_uuid demo_digest "acme" "INV-001"
         demo_payment demo_world)
  = inl (RuntimeError "release unlocked lock").
Proof. vm_compute. reflexivity. Qed.

(** A tampered state file beside a backup that loads: the read returns
    the backup's document. *)
Lemma read_state_verify_witness :
  read_state demo_dir demo_digest "acme" "INV-001" true
    (tampered_world (Doc (JObj demo_record)))
  = (inr (Some (JObj demo_record)), tampered_world (Doc (JObj demo_record))).
Proof.
  pose proof (read_state_verify demo_dir demo_digest "acme" "INV-001"
                (tampered_world (Doc (JObj demo_record)))) as (_ & Hdoc & _).
  refine (proj1 (proj2 (Hdoc _ (JStr "status=unpaid,amount=1500") _ _ _)) _ _ _).
  - vm_compute. reflexivity.
  - vm_compute. reflexivity.
  - reflexivity.
  - vm_compute. discriminate.
  - vm_compute. reflexivity.
Defined.

(** C6 fails on the code: the state file was tampered with and a sibling
    [.bak] exists, but the backup does not parse; [read_state] raises
    [StateCorruptionError] instead of returning the backup's content.
    The same happens with a backup that holds an empty document. *)
Lemma read_state_raises_beside_backup :
  is_Some (files (tampered_world (Junk "{")) !! backup_file_of demo_dir "acme" "INV-001") /\
  fst (read_state demo_dir demo_digest "acme" "INV-001" true (tampered_world (Junk "{")))
  = inl (ChecksumMismatch (JStr "status=unpaid,amount=1500") "status=unpaid,amount=999") /\
  fst (read_state demo_dir demo_digest "acme" "INV-001" true
         (tampered_world (Doc (JObj ∅))))
  = inl (ChecksumMismatch (JStr "status=unpaid,amount=1500") "status=unpaid,amount=999").
Proof.
  split; [|split].
  - vm_compute. eexists. reflexivity.
  - vm_compute. reflexivity.
  - vm_compute. reflexivity.
Qed.

(** A record stored without [_checksum] is read back as it is. *)
Lemma read_state_no_checksum_witness :
  read_state demo_dir demo_digest "acme" "INV-001" true
    (mkWorld (<[state_file_of demo_dir "acme" "INV-001" := Doc (JObj demo_record)]> ∅) [] ∅ 0)
  = (inr (Some (JObj demo_record)),
     mkWorld (<[state_file_of demo_dir "acme" "INV-001" := Doc (JObj demo_record)]> ∅) [] ∅ 0).
Proof.
  apply (proj1 (read_state_no_checksum demo_dir demo_digest "acme" "INV-001" _)).
  - vm_compute. reflexivity.
  - vm_compute. reflexivity.
Defined.

End InvoiceStateExamples.

(** ** The payment checker *)

Section PaymentCheckerProperties.
Import PaymentChecker.
#[local] Open Scope Q_scope.

(** A payment without an amount or without a client can only match by
    invoice number, and then the match is the first invoice bearing that
    number. *)
Lemma find_by_number_only amount_ client_ invoice_number_ unpaid :
  nonzero amount_ && nonempty client_ = false ->
  _find_matching_invoice amount_ client_ invoice_number_ unpaid =
  number_match invoice_number_ unpaid.
Proof.
  intros Hno. induction unpaid as [|invoice rest IH]; [reflexivity|].
  simpl. destruct (nonempty invoice_number_ && same_text _ _); [reflexivity|].
  rewrite Hno. simpl. exact IH.
Qed.

(** The amount-match score of [_verify_amount]: 1.0 within a cent, 0.95
    for an under-payment, 0.90 for an over-payment, 0.0 without an
    amount. *)
Lemma verify_amount_scores (p i : Q) :
  (Qabs (p - i) < 1 # 100 -> _verify_amount (Some p) (Some i) = 1) /\
  (p <= i - (1 # 100) -> _verify_amount (Some p) (Some i) = 95 # 100) /\
  (i + (1 # 100) <= p -> _verify_amount (Some p) (Some i) = 90 # 100) /\
  _verify_amount None (Some i) = 0.
Proof.
  unfold _verify_amount. repeat split.
  - intros Hd. apply Qltb_lt in Hd. now rewrite Hd.
  - intros Hp.
    assert (H1 : RateLimiter.Qltb (Qabs (p - i)) (1 # 100) = false).
    { apply Qltb_ge. rewrite (Qabs_neg (p - i)) by lra. lra. }
    assert (H2 : RateLimiter.Qltb p i = true) by (apply Qltb_lt; lra).
    now rewrite H1, H2.
  - intros Hp.
    assert (H1 : RateLimiter.Qltb (Qabs (p - i)) (1 # 100) = false).
    { apply Qltb_ge. rewrite (Qabs_pos (p - i)) by lra. lra. }
    assert (H2 : RateLimiter.Qltb p i = false) by (apply Qltb_ge; lra).
    assert (H3 : RateLimiter.Qltb i p = true) by (apply Qltb_lt; lra).
    now rewrite H1, H2, H3.
Qed.

(** C7 at a failing input: the payment names invoice F002, which is
    unpaid, but F001 of the same client and amount is enumerated first and
    is returned on the amount match; enumerated in the other order, the
    same invoices give F002.  The confidence reported is 1.0 in both
    cases. *)
Lemma amount_match_shadows_number_match :
  number_match (Some "F002") [invoice_F001; invoice_F002] = Some invoice_F002 /\
  matched (check payment_for_F002 [invoice_F001; invoice_F002]) = Some invoice_F001 /\
  matched (check payment_for_F002 [invoice_F002; invoice_F001]) = Some invoice_F002 /\
  confidence (check payment_for_F002 [invoice_F001; invoice_F002]) = 1.
Proof. repeat split; vm_compute; reflexivity. Qed.

End PaymentCheckerProperties.

(** ** Routing of parsed invoices *)

Section PdfParserProperties.
Import PdfParser.
#[local] Open Scope Q_scope.

(** C8: a parsed invoice of confidence [c] is routed [auto] when
    [c >= 0.95], to a file under [review_queue/] when [0.85 <= c < 0.95],
    and to a file under [manual/] when [c < 0.85]; the bounds are
    inclusive below: 0.95 routes [auto], 0.85 routes [review].  The
    [auto] route creates no state: it returns the label [create_state]
    with the directory [auto/] as its path and writes no file. *)
Theorem route_by_confidence_thresholds (c : Q) (invoice_number : option string)
    (state_dir : list string) :
  (95 # 100 <= c ->
     status (route_by_confidence c invoice_number state_dir) = auto /\
     action (route_by_confidence c invoice_number state_dir) = "create_state" /\
     path (route_by_confidence c invoice_number state_dir) = state_dir ++ ["auto"] /\
     written (route_by_confidence c invoice_number state_dir) = None) /\
  (85 # 100 <= c -> c < 95 # 100 ->
     status (route_by_confidence c invoice_number state_dir) = review /\
     written (route_by_confidence c invoice_number state_dir) =
       Some (state_dir ++ ["review_queue"; invoice_id invoice_number +:+ ".json"])) /\
  (c < 85 # 100 ->
     status (route_by_confidence c invoice_number state_dir) = manual /\
     written (route_by_confidence c invoice_number state_dir) =
       Some (state_dir ++ ["manual"; invoice_id invoice_number +:+ ".json"])) /\
  status (route_by_confidence (95 # 100) invoice_number state_dir) = auto /\
  status (route_by_confidence (85 # 100) invoice_number state_dir) = review.
Proof.
  unfold route_by_confidence.
  destruct (Qle_bool (95 # 100) c) eqn:E1;
    [apply Qle_bool_iff in E1 | apply Qle_bool_false in E1];
    (destruct (Qle_bool (85 # 100) c) eqn:E2;
       [apply Qle_bool_iff in E2 | apply Qle_bool_false in E2]);
    repeat split; intros; simpl; try reflexivity; lra.
Qed.

(** Confidence 0.90 goes to the review queue. *)
Lemma route_by_confidence_thresholds_witness :
  status (route_by_confidence (90 # 100) (Some "INV-001") ["state"]) = review /\
  written (route_by_confidence (90 # 100) (Some "INV-001") ["state"]) =
    Some ["state"; "review_queue"; "INV-001.json"].
Proof.
  apply (proj1 (proj2 (route_by_confidence_thresholds (90 # 100) (Some "INV-001") ["state"]))).
  - unfold Qle. simpl. lia.
  - unfold Qlt. simpl. lia.
Defined.

(** C8 as the specification words it fails on the code: an invoice of
    confidence 0.95, or of confidence 1, is routed [auto], yet nothing is
    written for it; what comes back is the label [create_state] and the
    directory [state/auto]. *)
Lemma auto_route_creates_no_state :
  route_by_confidence (95 # 100) (Some "INV-001") ["state"] =
    mkRouting auto "create_state" ["state"; "auto"] None /\
  route_by_confidence 1 (Some "INV-001") ["state"] =
    mkRouting auto "create_state" ["state"; "auto"] None /\
  written (route_by_confidence 1 (Some "INV-001") ["state"]) <>
    Some ["state"; "auto"; "INV-001.json"].
Proof. vm_compute. split; [reflexivity | split; [reflexivity | discriminate]]. Qed.

End PdfParserProperties.

(** ** The ledger *)

Section LedgerProperties.
Import Ledger.

Lemma append_cons (x : ascii) (a b : string) : String x a +:+ b = String x (a +:+ b).
Proof. reflexivity. Qed.

Lemma append_empty (b : string) : "" +:+ b = b.
Proof. reflexivity. Qed.

Lemma append_assoc' (a b c : string) : (a +:+ b) +:+ c = a +:+ (b +:+ c).
Proof.
  induction a as [|x a IH]; [reflexivity|].
  rewrite !append_cons. f_equal. exact IH.
Qed.

Lemma free_of_append c a b : free_of c (a +:+ b) = free_of c a && free_of c b.
Proof.
  induction a as [|x a IH]; [reflexivity|].
  rewrite append_cons. simpl. rewrite IH. now rewrite andb_assoc.
Qed.

Lemma prefix_append (a post : string) : String.prefix a (a +:+ post) = true.
Proof.
  induction a as [|x a IH]; [now destruct post|].
  rewrite append_cons. simpl.
  destruct (ascii_dec x x); [assumption | congruence].
Qed.

Lemma prefix_split (a s : string) :
  String.prefix a s = true -> exists post, s = a +:+ post.
Proof.
  revert s. induction a as [|x a IH]; intros s Hp.
  - exists s. reflexivity.
  - destruct s as [|y s]; simpl in Hp; [discriminate|].
    destruct (ascii_dec x y) as [->|]; [|discriminate].
    destruct (IH s Hp) as [post ->]. exists post. reflexivity.
Qed.


Lemma contains_unfold needle hay :
  contains needle hay =
  String.prefix needle hay ||
  match hay with EmptyString => false | String _ hay' => contains needle hay' end.
Proof. destruct hay; reflexivity. Qed.

Lemma contains_append needle pre post :
  contains needle (pre +:+ needle +:+ post) = true.
Proof.
  induction pre as [|x pre IH].
  - rewrite append_empty, contains_unfold, prefix_append. reflexivity.
  - rewrite append_cons, contains_unfold. rewrite IH.
    apply orb_true_r.
Qed.

Lemma contains_split needle hay :
  contains needle hay = true -> exists pre post, hay = pre +:+ needle +:+ post.
Proof.
  induction hay as [|x hay IH]; rewrite contains_unfold; intros Hc.
  - rewrite orb_false_r in Hc. apply prefix_split in Hc. destruct Hc as [post ->].
    exists "", post. reflexivity.
  - apply orb_true_iff in Hc. destruct Hc as [Hp|Hc].
    + apply prefix_split in Hp. destruct Hp as [post ->]. exists "", post. reflexivity.
    + destruct (IH Hc) as (pre & post & ->). exists (String x pre), post. reflexivity.
Qed.

Section Replace.
Variables old new : string.

(** No occurrence of [old] that starts in [pre] reaches into what
    follows, when that begins with a character [old] does not have. *)
Lemma prefix_stays_left (c : ascii) (pre rest : string) :
  free_of c old = true ->
  String.prefix old (pre +:+ String c rest) = true ->
  (String.length old <= String.length pre)%nat.
Proof.
  revert pre. induction old as [|a o IH]; intros pre Hfree Hp; simpl; [lia|].
  simpl in Hfree. apply andb_true_iff in Hfree. destruct Hfree as [Ha Hfree].
  destruct pre as [|x pre]; rewrite ?append_cons, ?append_empty in Hp; simpl in Hp.
  - destruct (ascii_dec a c) as [->|]; [|discriminate].
    rewrite Ascii.eqb_refl in Ha. discriminate.
  - destruct (ascii_dec a x); [|discriminate].
    simpl. apply le_n_S. apply IH; assumption.
Qed.

Lemma replace_from_cons (skip : nat) (x : ascii) (s : string) :
  replace_from old new skip (String x s) =
  match skip with
  | S k => replace_from old new k s
  | O =>
      if String.prefix old (String x s)
      then new +:+ replace_from old new (String.length old - 1) s
      else String x (replace_from old new 0 s)
  end.
Proof. reflexivity. Qed.

Lemma replace_from_left (c : ascii) (rest : string) :
  free_of c old = true ->
  forall pre skip, (skip <= String.length pre)%nat ->
    exists out, replace_from old new skip (pre +:+ String c rest) =
                out +:+ replace_from old new 0 (String c rest).
Proof.
  intros Hfree. induction pre as [|x pre IH]; intros skip Hskip.
  - simpl in Hskip. assert (skip = 0%nat) as -> by lia. exists "". reflexivity.
  - rewrite append_cons, replace_from_cons. destruct skip as [|k].
    + destruct (String.prefix old (String x (pre +:+ String c rest))) eqn:Hp.
      * rewrite <- append_cons in Hp.
        pose proof (prefix_stays_left c (String x pre) rest Hfree Hp) as Hlen.
        simpl in Hlen.
        assert (Hk : (String.length old - 1 <= String.length pre)%nat) by lia.
        destruct (IH _ Hk) as [out Hout].
        exists (new +:+ out). rewrite Hout. now rewrite append_assoc'.
      * assert (Hk : (0 <= String.length pre)%nat) by lia.
        destruct (IH _ Hk) as [out Hout].
        exists (String x out). rewrite Hout. reflexivity.
    + simpl in Hskip.
      assert (Hk : (k <= String.length pre)%nat) by lia.
      destruct (IH _ Hk) as [out Hout]. exists out. exact Hout.
Qed.

Lemma replace_from_through (c : ascii) (o needle post : string) :
  old = String c o -> free_of c needle = true ->
  replace_from old new 0 (needle +:+ post) =
  needle +:+ replace_from old new 0 post.
Proof.
  intros Hold Hfree. induction needle as [|x needle IH]; [reflexivity|].
  simpl in Hfree. apply andb_true_iff in Hfree. destruct Hfree as [Hx Hfree].
  rewrite !append_cons, replace_from_cons.
  assert (Hp : String.prefix old (String x (needle +:+ post)) = false).
  { rewrite Hold. simpl.
    destruct (ascii_dec c x) as [->|Hne]; [|reflexivity].
    rewrite Ascii.eqb_refl in Hx. discriminate. }
  rewrite Hp. f_equal. apply IH, Hfree.
Qed.

(** [replace] keeps an occurrence of [needle] when [old] begins with a
    character that is not in [needle] and does not contain the character
    [needle] begins with. *)
Lemma replace_keeps (c b : ascii) (o needle' hay : string) :
  old = String c o ->
  free_of c (String b needle') = true ->
  free_of b old = true ->
  contains (String b needle') hay = true ->
  contains (String b needle') (replace old new hay) = true.
Proof.
  intros Hold Hneedle Hfree Hc.
  apply contains_split in Hc. destruct Hc as (pre & post & ->).
  assert (Hrep : replace old new (pre +:+ String b needle' +:+ post) =
                 replace_from old new 0 (pre +:+ String b needle' +:+ post)).
  { unfold replace. now rewrite Hold. }
  rewrite Hrep, append_cons.
  destruct (replace_from_left b (needle' +:+ post) Hfree pre 0%nat ltac:(lia)) as [out Hout].
  rewrite Hout.
  change (String b (needle' +:+ post)) with (String b needle' +:+ post).
  rewrite (replace_from_through c o (String b needle') post Hold Hneedle).
  apply contains_append.
Qed.
End Replace.

Lemma append_empty_r (a : string) : a +:+ "" = a.
Proof. induction a as [|x a IH]; [reflexivity|]. rewrite append_cons. now f_equal. Qed.

Lemma join_member (sep x : string) (l : list string) :
  In x l -> exists pre post, join sep l = pre +:+ x +:+ post.
Proof.
  induction l as [|y l IH]; intros Hin; [contradiction|].
  destruct l as [|z l].
  - destruct Hin as [->|[]]. exists "", "". simpl. now rewrite append_empty_r.
  - change (join sep (y :: z :: l)) with (y +:+ sep +:+ join sep (z :: l)).
    destruct Hin as [->|Hin].
    + exists "", (sep +:+ join sep (z :: l)). reflexivity.
    + destruct (IH Hin) as (pre & post & ->).
      exists (y +:+ sep +:+ pre), post. now rewrite !append_assoc'.
Qed.

Lemma insert_at_member {A} (i : nat) (x : A) (l : list A) : In x (insert_at i x l).
Proof. unfold insert_at. apply in_or_app. right. now left. Qed.

Lemma free_of_uint (d : Decimal.uint) : free_of "`" (NilEmpty.string_of_uint d) = true.
Proof. induction d; simpl; auto. Qed.

Lemma free_of_digits (n : Z) : free_of "`" (digits n) = true.
Proof.
  unfold digits, NilZero.string_of_uint.
  destruct (N.to_uint (Z.to_N n)) eqn:E; try (rewrite <- E; apply free_of_uint).
  reflexivity.
Qed.

Lemma free_of_format_2f (cents : Z) : free_of "`" (format_2f false cents) = true.
Proof.
  unfold format_2f. rewrite !free_of_append, free_of_digits.
  destruct (cents <? 0)%Z; destruct (Z.abs cents mod 100 <? 10)%Z;
    rewrite ?free_of_append, ?free_of_digits; reflexivity.
Qed.

Lemma entry_line_has_number num amount_ client due :
  contains (backticked num) (entry_line num amount_ client due) = true.
Proof.
  unfold entry_line, backticked.
  change ("- `" +:+ num +:+ "` | $" +:+ format_2f true amount_ +:+ " | " +:+ client +:+
          (if String.eqb due "" then "" else " | Due: " +:+ due) +:+ " | Status: unpaid")
    with ("- " +:+
          ("`" +:+ num +:+ "`" +:+
           (" | $" +:+ format_2f true amount_ +:+ " | " +:+ client +:+
            (if String.eqb due "" then "" else " | Due: " +:+ due) +:+
            " | Status: unpaid"))).
  rewrite <- (append_assoc' num "`"), <- (append_assoc' "`" (num +:+ "`")).
  apply contains_append.
Qed.

Lemma contains_trans (a b c : string) :
  contains a b = true -> contains b c = true -> contains a c = true.
Proof.
  intros Hab Hbc.
  apply contains_split in Hab. destruct Hab as (p1 & q1 & ->).
  apply contains_split in Hbc. destruct Hbc as (p2 & q2 & ->).
  rewrite !append_assoc'. rewrite <- (append_assoc' p2 p1).
  apply contains_append.
Qed.

Lemma append_to_section_has_entry header entry l l1 :
  _append_to_section header entry l = inr l1 ->
  contains entry (content l1) = true.
Proof.
  unfold _append_to_section.
  destruct (scan_section header (split_on LF (content l)) 0 None) as [[idx|] next];
    [|discriminate].
  intros [= <-]. simpl.
  destruct (join_member NL entry _ (insert_at_member
              (match next with
               | Some n => Nat.min (idx + 2) n
               | None => (idx + 2)%nat
               end) entry (split_on LF (content l)))) as (pre & post & ->).
  apply contains_append.
Qed.

Lemma update_totals_content section amount_ l :
  content (_update_totals section amount_ l) =
  replace
    ("**Grand Total:** $" +:+
     format_2f false (grand_total (add_total section amount_ (_totals l)) - amount_))
    ("**Grand Total:** $" +:+
     format_2f false (grand_total (add_total section amount_ (_totals l))))
    (replace
       ("**" +:+ title section +:+ " Total:** $" +:+
        format_2f false (total_of section (add_total section amount_ (_totals l)) - amount_))
       ("**" +:+ title section +:+ " Total:** $" +:+
        format_2f false (total_of section (add_total section amount_ (_totals l))))
       (content l)).
Proof. reflexivity. Qed.

Lemma update_totals_keeps_number section amount_ num l :
  free_of "*" num = true ->
  contains (backticked num) (content l) = true ->
  contains (backticked num) (content (_update_totals section amount_ l)) = true.
Proof.
  intros Hnum Hin. rewrite update_totals_content.
  assert (Hneedle : free_of "*" (String "`" (num +:+ "`")) = true).
  { simpl. rewrite free_of_append, Hnum. reflexivity. }
  change (backticked num) with (String "`" (num +:+ "`")) in *.
  eapply replace_keeps; [reflexivity | exact Hneedle | |].
  - rewrite free_of_append. rewrite free_of_format_2f. reflexivity.
  - eapply replace_keeps; [reflexivity | exact Hneedle | | exact Hin].
    rewrite !free_of_append, free_of_format_2f.
    destruct section; reflexivity.
Qed.

Lemma add_invoice_accepted (l : Ledger) (num client due : string) (amount_ : Z) :
  fst (add_invoice (mkInvoiceData (Some num) (Some amount_) (Some client) due) l) = inr true ->
  exists l1,
    _append_to_section "## Unpaid" (entry_line num amount_ client due) l = inr l1 /\
    snd (add_invoice (mkInvoiceData (Some num) (Some amount_) (Some client) due) l) =
    _update_totals unpaid amount_ l1.
Proof.
  unfold add_invoice.
  cbn [invoice_number amount client_name due_date].
  destruct (_invoice_exists l num); [discriminate|].
  destruct (_append_to_section "## Unpaid" (entry_line num amount_ client due) l)
    as [e|l1]; [discriminate|].
  intros _. exists l1. split; reflexivity.
Qed.

(** For an invoice number without an asterisk, an accepted [add_invoice]
    followed by the same call: the second is rejected as a duplicate and
    leaves the ledger and its totals as the first call left them. *)
Lemma add_invoice_again_rejected (l : Ledger) (num client due : string) (amount_ : Z) :
  free_of "*" num = true ->
  fst (add_invoice (mkInvoiceData (Some num) (Some amount_) (Some client) due) l) = inr true ->
  add_invoice (mkInvoiceData (Some num) (Some amount_) (Some client) due)
    (snd (add_invoice (mkInvoiceData (Some num) (Some amount_) (Some client) due) l)) =
  (inl (AlreadyExists num),
   snd (add_invoice (mkInvoiceData (Some num) (Some amount_) (Some client) due) l)).
Proof.
  intros Hnum Hok.
  destruct (add_invoice_accepted l num client due amount_ Hok) as (l1 & Happ & ->).
  assert (Hin : contains (backticked num)
                  (content (_update_totals unpaid amount_ l1)) = true).
  { apply update_totals_keeps_number; [assumption|].
    eapply contains_trans; [apply entry_line_has_number|].
    eapply append_to_section_has_entry, Happ. }
  unfold add_invoice. cbn [invoice_number amount client_name due_date].
  unfold _invoice_exists. now rewrite Hin.
Qed.

(** An invoice whose back-quoted number occurs anywhere in the ledger
    text is rejected as a duplicate, and the ledger is left as it was. *)
Lemma add_invoice_rejects_present (l : Ledger) (num client due : string) (amount_ : Z) :
  contains (backticked num) (content l) = true ->
  add_invoice (mkInvoiceData (Some num) (Some amount_) (Some client) due) l =
  (inl (AlreadyExists num), l).
Proof.
  intros Hin. unfold add_invoice, _invoice_exists. simpl. now rewrite Hin.
Qed.

(** On a new ledger, adding INV-001 twice: the first call inserts the
    entry into the Unpaid section, the second is rejected and changes
    nothing. *)
Lemma add_invoice_twice_rejected :
  fst (add_invoice invoice_INV_001 new_ledger) = inr true /\
  unpaid_section (split_on LF (content (snd (add_invoice invoice_INV_001 new_ledger)))) =
    [""; "- `INV-001` | $1,500.00 | ACME | Due: 2026-03-01 | Status: unpaid"] /\
  add_invoice invoice_INV_001 (snd (add_invoice invoice_INV_001 new_ledger)) =
    (inl (AlreadyExists "INV-001"), snd (add_invoice invoice_INV_001 new_ledger)).
Proof. split; [|split]; vm_compute; reflexivity. Qed.

(** C9 at a failing input: the invoice number contains the text of the
    summary's Unpaid total.  [_update_totals] rewrites that text inside
    the entry just inserted, the back-quoted number is no longer in the
    file, and the second [add_invoice] of the same invoice is accepted:
    two entries, and totals counted twice. *)
Lemma add_invoice_twice_accepted :
  fst (add_invoice invoice_with_label_in_number new_ledger) = inr true /\
  fst (add_invoice invoice_with_label_in_number
         (snd (add_invoice invoice_with_label_in_number new_ledger))) = inr true /\
  unpaid_section (split_on LF (content (snd
      (add_invoice invoice_with_label_in_number
         (snd (add_invoice invoice_with_label_in_number new_ledger)))))) =
    [""; "- `X**Unpaid Total:** $0.00` | $5.00 | ACME | Status: unpaid";
         "- `X**Unpaid Total:** $10.00` | $5.00 | ACME | Status: unpaid"] /\
  _totals (snd (add_invoice invoice_with_label_in_number
                  (snd (add_invoice invoice_with_label_in_number new_ledger)))) =
    mkTotals 1000 0 0.
Proof. split; [|split; [|split]]; vm_compute; reflexivity. Qed.

End LedgerProperties.

(* ===================================================================== *)
(** * Further properties *)
(* ===================================================================== *)

(** ** The reminder schedule and the send loop *)

Section SchedulerSchedule.
Import Scheduler.

Lemma rule_names_of_day (invoice : Invoice) (d : Z) :
  map r_rule (flat_map (rule_reminder invoice d) REMINDER_RULES) =
  if d =? 3 then ["reminder_1"]
  else if d =? 0 then ["reminder_2"]
  else if d =? -5 then ["overdue_1"]
  else if d =? -7 then ["overdue_2"]
  else if d =? -10 then ["final_notice"]
  else if d =? -14 then ["escalation"]
  else [].
Proof.
  unfold REMINDER_RULES. cbn [flat_map rule_reminder days_before_due days_after_due template].
  repeat match goal with |- context [?a =? ?b] => destruct (Z.eqb_spec a b) end;
    try reflexivity; lia.
Qed.

(** X1: the rule an invoice falls under is a function of its days until
    due: 3 days ahead [reminder_1], on the due day [reminder_2], then 5,
    7, 10 and 14 days overdue [overdue_1], [overdue_2], [final_notice]
    and [escalation]; on every other day, none.  So one run yields at
    most one reminder per unpaid invoice. *)
Theorem get_due_reminders_schedule (now : Z) (unpaid : list Invoice) :
  (forall invoice,
     map r_rule (invoice_reminders now invoice) =
     if days_until_due now invoice =? 3 then ["reminder_1"]
     else if days_until_due now invoice =? 0 then ["reminder_2"]
     else if days_until_due now invoice =? -5 then ["overdue_1"]
     else if days_until_due now invoice =? -7 then ["overdue_2"]
     else if days_until_due now invoice =? -10 then ["final_notice"]
     else if days_until_due now invoice =? -14 then ["escalation"]
     else []) /\
  (forall invoice, (length (invoice_reminders now invoice) <= 1)%nat) /\
  (length (get_due_reminders now unpaid) <= length unpaid)%nat.
Proof.
  assert (Hone : forall invoice, (length (invoice_reminders now invoice) <= 1)%nat).
  { intros invoice. rewrite <- (length_map r_rule). unfold invoice_reminders.
    rewrite rule_names_of_day.
    repeat match goal with |- context [?a =? ?b] => destruct (a =? b) end; simpl; lia. }
  split; [|split].
  - intros invoice. apply rule_names_of_day.
  - exact Hone.
  - unfold get_due_reminders. induction unpaid as [|invoice rest IH]; [simpl; lia|].
    simpl. rewrite length_app. specialize (Hone invoice). lia.
Qed.

Context {St Sd : Type} `{StateManager St} `{EmailSender Sd}.

Lemma send_loop_skips (reminders : list Reminder) :
  (forall s c n r x, is_paused (record_email_sent s c n r) x = is_paused s x) ->
  (forall s c n r e x, is_paused (record_email_failed s c n r e) x = is_paused s x) ->
  forall (st : St) (m : Sd) (c : Counts),
    send_loop reminders st m c =
    send_loop (List.filter (unpaused st) reminders) st m c.
Proof.
  intros Hs Hf. induction reminders as [|r rest IH]; intros st m c; [reflexivity|].
  simpl. unfold unpaused at 1.
  destruct (is_paused st (client (r_invoice r))) eqn:Hp; simpl.
  - apply IH.
  - rewrite Hp.
    destruct (send_collection_reminder m _ _ _) as [[| |msg] m'].
    + rewrite IH. f_equal. apply filter_ext. intros x. unfold unpaused. now rewrite Hs.
    + reflexivity.
    + rewrite IH. f_equal. apply filter_ext. intros x. unfold unpaused. now rewrite Hf.
Qed.

Lemma send_loop_all_paused (reminders : list Reminder) :
  forall (st : St) (m : Sd) (c : Counts),
    Forall (fun r => is_paused st (client (r_invoice r)) = true) reminders ->
    send_loop reminders st m c = (c, st, m).
Proof.
  induction reminders as [|r rest IH]; intros st m c Hall; [reflexivity|].
  simpl. rewrite (Forall_inv Hall). apply IH. exact (Forall_inv_tail Hall).
Qed.

Lemma send_loop_counts (reminders : list Reminder) :
  forall (st : St) (m : Sd) (c : Counts),
    (sent c <= sent (counts_of (send_loop reminders st m c)))%nat /\
    (failed c <= failed (counts_of (send_loop reminders st m c)))%nat /\
    (rate_limited c <= rate_limited (counts_of (send_loop reminders st m c)))%nat /\
    (rate_limited (counts_of (send_loop reminders st m c)) <= S (rate_limited c))%nat /\
    ((sent (counts_of (send_loop reminders st m c)) - sent c) +
     (failed (counts_of (send_loop reminders st m c)) - failed c) +
     (rate_limited (counts_of (send_loop reminders st m c)) - rate_limited c)
       <= length reminders)%nat.
Proof.
  induction reminders as [|r rest IH]; intros st m c; simpl.
  - unfold counts_of. simpl. lia.
  - destruct (is_paused st (client (r_invoice r))).
    + specialize (IH st m c). lia.
    + destruct (send_collection_reminder m _ _ _) as [[| |msg] m'].
      * match goal with |- context [send_loop rest ?s ?n ?d] => specialize (IH s n d) end.
        simpl in IH. lia.
      * unfold counts_of. simpl. lia.
      * match goal with |- context [send_loop rest ?s ?n ?d] => specialize (IH s n d) end.
        simpl in IH. lia.
Qed.

Lemma slice_to_length {A} (bound : Z) (l : list A) :
  0 <= bound ->
  (length (slice_to bound l) <= Z.to_nat bound)%nat /\
  (length (slice_to bound l) <= length l)%nat.
Proof.
  intros Hb. unfold slice_to. destruct (Z.ltb_spec bound 0); [lia|].
  rewrite length_firstn. lia.
Qed.

(** X2: when recording a send or a failure does not change who is
    paused, a batch runs as if the reminders of paused clients were not
    in the slice: the sender is not called for them and nothing is
    recorded or counted.  The slice is taken first, so paused reminders
    still use up places of the batch; and a batch whose slice holds
    paused clients only leaves counts, state and sender untouched. *)
Theorem send_reminders_skips_paused (now batch_size : Z) (st : St) (m : Sd) :
  (forall s c n r x, is_paused (record_email_sent s c n r) x = is_paused s x) ->
  (forall s c n r e x, is_paused (record_email_failed s c n r e) x = is_paused s x) ->
  send_reminders now batch_size st m =
  send_loop
    (List.filter (unpaused st)
       (slice_to batch_size (get_due_reminders now (get_all_unpaid st))))
    st m (mkCounts 0 0 0) /\
  (Forall (fun r => is_paused st (client (r_invoice r)) = true)
     (slice_to batch_size (get_due_reminders now (get_all_unpaid st))) ->
   send_reminders now batch_size st m = (mkCounts 0 0 0, st, m)).
Proof.
  intros Hs Hf. unfold send_reminders. split.
  - apply send_loop_skips; assumption.
  - apply send_loop_all_paused.
Qed.

(** X3: with a batch size that is not negative, the reminders sent,
    failed and rate-limited in one batch number no more than the batch
    size and no more than the reminders due, and at most one reminder is
    counted as rate-limited. *)
Theorem send_reminders_within_batch (now batch_size : Z) (st : St) (m : Sd) :
  0 <= batch_size ->
  (sent (counts_of (send_reminders now batch_size st m)) +
   failed (counts_of (send_reminders now batch_size st m)) +
   rate_limited (counts_of (send_reminders now batch_size st m))
     <= Z.to_nat batch_size)%nat /\
  (sent (counts_of (send_reminders now batch_size st m)) +
   failed (counts_of (send_reminders now batch_size st m)) +
   rate_limited (counts_of (send_reminders now batch_size st m))
     <= length (get_due_reminders now (get_all_unpaid st)))%nat /\
  (rate_limited (counts_of (send_reminders now batch_size st m)) <= 1)%nat.
Proof.
  intros Hb. unfold send_reminders.
  pose proof (send_loop_counts
                (slice_to batch_size (get_due_reminders now (get_all_unpaid st)))
                st m (mkCounts 0 0 0)) as Hc.
  destruct (slice_to_length batch_size (get_due_reminders now (get_all_unpaid st)) Hb)
    as [H1 H2].
  simpl in Hc. lia.
Qed.

End SchedulerSchedule.

Section SchedulerStub.
Import Scheduler.
Context {St : Type} `{StateManager St}.

Lemma stub_send_loop (reminders : list Reminder) :
  forall (st : St) (k : nat) (c : Counts),
    snd (send_loop reminders st k c) =
      (k + (sent (counts_of (send_loop reminders st k c)) - sent c))%nat /\
    (sent c <= sent (counts_of (send_loop reminders st k c)))%nat /\
    (snd (send_loop reminders st k c) <= Nat.max k 20)%nat.
Proof.
  induction reminders as [|r rest IH]; intros st k c.
  - simpl. unfold counts_of. simpl. lia.
  - simpl. destruct (is_paused st (client (r_invoice r))); [apply IH|].
    unfold stub_send. destruct (Nat.leb_spec 20 k) as [Hk|Hk].
    + unfold counts_of. simpl. lia.
    + match goal with |- context [send_loop rest ?s ?n ?d] =>
        destruct (IH s n d) as (IH1 & IH2 & IH3) end.
      simpl in *. lia.
Qed.

(** X4: the sender of the emailer script counts its sends and never
    resets the count.  After a batch its count is the count before plus
    the reminders sent, and it does not pass 20: whatever the state
    manager and however many batches are run, one sender sends 20
    reminders at most, and none once its count has reached 20. *)
Theorem stub_sender_lifetime_cap (now batch_size : Z) (st : St) (sent_count : nat) :
  snd (send_reminders now batch_size st sent_count) =
    (sent_count + sent (counts_of (send_reminders now batch_size st sent_count)))%nat /\
  (snd (send_reminders now batch_size st sent_count) <= Nat.max sent_count 20)%nat.
Proof.
  unfold send_reminders.
  destruct (stub_send_loop
              (slice_to batch_size (get_due_reminders now (get_all_unpaid st)))
              st sent_count (mkCounts 0 0 0)) as (H1 & H2 & H3).
  simpl in *. split; [lia|exact H3].
Qed.

End SchedulerStub.

Section SchedulerBatchExamples.
Import Scheduler.

(** The reminder of the paused client is left out: only INV-2 is sent. *)
Lemma send_reminders_skips_paused_witness :
  send_reminders noon 20 one_paused 0%nat =
  send_loop
    (List.filter (unpaused one_paused)
       (slice_to 20 (get_due_reminders noon (get_all_unpaid one_paused))))
    one_paused 0%nat (mkCounts 0 0 0) /\
  map (fun call => snd (fst call))
    (mock_sent (snd (fst (send_reminders noon 20 one_paused 0%nat)))) = ["INV-2"].
Proof.
  split.
  - apply (proj1 (@send_reminders_skips_paused MockState nat MockStateManager StubSender
                    noon 20 one_paused 0%nat
                    ltac:(intros; reflexivity) ltac:(intros; reflexivity))).
  - vm_compute. reflexivity.
Defined.

(** 21 reminders due and a batch size of 20. *)
Lemma send_reminders_within_batch_witness :
  (sent (counts_of (send_reminders noon 20 twenty_one_due 0%nat)) +
   failed (counts_of (send_reminders noon 20 twenty_one_due 0%nat)) +
   rate_limited (counts_of (send_reminders noon 20 twenty_one_due 0%nat))
     <= Z.to_nat 20)%nat.
Proof.
  apply (proj1 (send_reminders_within_batch noon 20 twenty_one_due 0%nat ltac:(lia))).
Defined.

End SchedulerBatchExamples.

(** ** The rate limiter: invariants, status and backoff *)

Section RateLimiterLimits.
Import RateLimiter.
#[local] Open Scope Q_scope.

Lemma popleft_expired_length cutoff queue :
  (length (popleft_expired cutoff queue) <= length queue)%nat.
Proof.
  induction queue as [|t rest IH]; simpl; [lia|].
  destruct (Qltb t cutoff); simpl; lia.
Qed.

Lemma try_acquire_bounds (now : Q) (l : Limiter) :
  (0 <= max_per_day (config l))%Z ->
  (0 <= _daily_tokens l <= max_per_day (config l))%Z ->
  (Z.of_nat (length (_cycle_queue l)) <= Z.max 0 (max_per_cycle (config l)))%Z ->
  (0 <= _daily_tokens (snd (try_acquire now l)) <= max_per_day (config l))%Z /\
  (Z.of_nat (length (_cycle_queue (snd (try_acquire now l))))
     <= Z.max 0 (max_per_cycle (config l)))%Z.
Proof.
  intros Hmax Hd Hq. unfold try_acquire, _can_consume_cycle_token, _cleanup_cycle_queue.
  simpl.
  assert (Hr : (0 <= _daily_tokens (_refill_daily_tokens now l)
                <= max_per_day (config l))%Z).
  { unfold _refill_daily_tokens. destruct (Qle_bool _ _); simpl; lia. }
  rewrite refill_config, refill_queue.
  pose proof (popleft_expired_length
                (now - inject_Z (cycle_seconds (config l))) (_cycle_queue l)) as Hp.
  destruct (Z.ltb_spec 0 (_daily_tokens (_refill_daily_tokens now l))) as [H0|H0]; simpl.
  - destruct (Z.ltb_spec
                (Z.of_nat (length (popleft_expired
                   (now - inject_Z (cycle_seconds (config l))) (_cycle_queue l))))
                (max_per_cycle (config l))) as [H1|H1]; simpl.
    + rewrite length_app. simpl. lia.
    + lia.
  - rewrite refill_queue. lia.
Qed.

(** X5: whatever the clock readings, a limiter driven from [__init__]
    by non-blocking acquisitions keeps its daily bucket between 0 and
    [max_per_day], and its queue never holds more than [max_per_cycle]
    timestamps (none, for a bound that is not positive). *)
Theorem limiter_stays_within_limits (cfg : RateLimitConfig) (t0 : Q) (history : list Q) :
  (0 <= max_per_day cfg)%Z ->
  (0 <= _daily_tokens (snd (acquire_all history (init cfg t0))) <= max_per_day cfg)%Z /\
  (Z.of_nat (length (_cycle_queue (snd (acquire_all history (init cfg t0)))))
     <= Z.max 0 (max_per_cycle cfg))%Z.
Proof.
  intros Hmax.
  assert (Hgen : forall l,
    config l = cfg ->
    (0 <= _daily_tokens l <= max_per_day cfg)%Z ->
    (Z.of_nat (length (_cycle_queue l)) <= Z.max 0 (max_per_cycle cfg))%Z ->
    (0 <= _daily_tokens (snd (acquire_all history l)) <= max_per_day cfg)%Z /\
    (Z.of_nat (length (_cycle_queue (snd (acquire_all history l))))
       <= Z.max 0 (max_per_cycle cfg))%Z).
  { induction history as [|t rest IH]; intros l Hc Hd Hq; [simpl; auto|].
    simpl. pose proof (try_acquire_bounds t l) as Hb. rewrite Hc in Hb.
    specialize (Hb Hmax Hd Hq).
    pose proof (try_acquire_config t l) as Hc'.
    destruct (try_acquire t l) as [ok l']. simpl in *.
    specialize (IH l' ltac:(congruence) (proj1 Hb) (proj2 Hb)).
    destruct (acquire_all rest l') as [oks l'']. exact IH. }
  apply Hgen; simpl; [reflexivity | lia | lia].
Qed.

Lemma try_acquire_no_refill (now : Q) (l : Limiter) :
  now - _daily_last_refill l < inject_Z (day_seconds (config l)) ->
  _daily_last_refill (snd (try_acquire now l)) = _daily_last_refill l /\
  _daily_tokens (snd (try_acquire now l)) =
    (_daily_tokens l - (if fst (try_acquire now l) then 1 else 0))%Z /\
  (fst (try_acquire now l) = true -> (0 < _daily_tokens l)%Z).
Proof.
  intros Hday. unfold try_acquire, _can_consume_cycle_token, _cleanup_cycle_queue.
  assert (Hr : _refill_daily_tokens now l = l).
  { unfold _refill_daily_tokens. apply Qle_bool_false in Hday. now rewrite Hday. }
  rewrite Hr. simpl.
  destruct (Z.ltb_spec 0 (_daily_tokens l)) as [H0|H0]; simpl.
  - destruct (_ <? _)%Z; simpl; repeat split; auto; lia.
  - repeat split; try lia.
Qed.

(** X6: as long as less than [day_seconds] have passed since the
    limiter was made, no refill happens: the acquisitions granted and
    the tokens left add up to [max_per_day], so no more than
    [max_per_day] are granted. *)
Theorem daily_limit_holds (cfg : RateLimitConfig) (t0 : Q) (history : list Q) :
  (0 <= max_per_day cfg)%Z ->
  Forall (fun t => t - t0 < inject_Z (day_seconds cfg)) history ->
  (Z.of_nat (granted (fst (acquire_all history (init cfg t0)))) +
   _daily_tokens (snd (acquire_all history (init cfg t0))) = max_per_day cfg)%Z /\
  (Z.of_nat (granted (fst (acquire_all history (init cfg t0)))) <= max_per_day cfg)%Z.
Proof.
  intros Hmax Hall.
  assert (Hgen : forall l,
    config l = cfg -> _daily_last_refill l = t0 -> (0 <= _daily_tokens l)%Z ->
    (Z.of_nat (granted (fst (acquire_all history l))) +
     _daily_tokens (snd (acquire_all history l)) = _daily_tokens l)%Z /\
    (0 <= _daily_tokens (snd (acquire_all history l)))%Z).
  { induction history as [|t rest IH]; intros l Hc Hl Hd; [simpl; split; [reflexivity|lia]|].
    simpl.
    pose proof (try_acquire_no_refill t l) as Hstep. rewrite Hc, Hl in Hstep.
    specialize (Hstep (Forall_inv Hall)). destruct Hstep as (Hl' & Hd' & Hpos).
    pose proof (try_acquire_config t l) as Hc'.
    destruct (try_acquire t l) as [ok l']. simpl in *.
    assert (Hd'' : (0 <= _daily_tokens l')%Z).
    { rewrite Hd'. destruct ok; [specialize (Hpos eq_refl)|]; lia. }
    specialize (IH (Forall_inv_tail Hall) l' ltac:(congruence) Hl' Hd'').
    destruct (acquire_all rest l') as [oks l'']. simpl in *.
    unfold granted in *. simpl. destruct ok; simpl; lia. }
  destruct (Hgen (init cfg t0) eq_refl eq_refl) as [H1 H2]; [simpl; lia|].
  simpl in H1. split; lia.
Qed.

Lemma popleft_expired_idempotent c q :
  popleft_expired c (popleft_expired c q) = popleft_expired c q.
Proof.
  induction q as [|t rest IH]; [reflexivity|]. simpl.
  destruct (Qltb t c) eqn:E; [exact IH|]. simpl. now rewrite E.
Qed.

Lemma try_acquire_fst (now : Q) (l : Limiter) :
  fst (try_acquire now l) =
  (0 <? _daily_tokens (_refill_daily_tokens now l))%Z &&
  (Z.of_nat (length (popleft_expired (now - inject_Z (cycle_seconds (config l)))
                       (_cycle_queue l))) <? max_per_cycle (config l))%Z.
Proof.
  unfold try_acquire, _can_consume_cycle_token, _cleanup_cycle_queue.
  cbn [config _cycle_queue]. rewrite refill_config, refill_queue.
  destruct (0 <? _)%Z; [|reflexivity].
  destruct (_ <? _)%Z; reflexivity.
Qed.

Lemma refill_tokens_twice now l l' :
  config l' = config l -> _daily_tokens l' = _daily_tokens l ->
  _daily_last_refill l' = _daily_last_refill l ->
  _daily_tokens (_refill_daily_tokens now (_refill_daily_tokens now l')) =
  _daily_tokens (_refill_daily_tokens now l).
Proof.
  intros Hc Ht Hl. unfold _refill_daily_tokens. rewrite Hc, Hl.
  destruct (Qle_bool (inject_Z (day_seconds (config l))) (now - _daily_last_refill l)) eqn:E;
    cbn [config _daily_last_refill _daily_tokens].
  - destruct (Qle_bool (inject_Z (day_seconds (config l))) (now - now)); reflexivity.
  - rewrite Hc, Hl, E. exact Ht.
Qed.

(** X7: [get_status] and [try_acquire] agree.  At the same instant an
    acquisition is granted exactly when the status shows a daily token
    and a cycle slot remaining; reading the status first does not change
    the answer; and the queue size reported is the cycle limit minus the
    slots remaining. *)
Theorem get_status_agrees_with_try_acquire (now : Q) (l : Limiter) :
  (fst (try_acquire now l) = true <->
   (0 < daily_remaining (fst (get_status now l)))%Z /\
   (0 < cycle_remaining (fst (get_status now l)))%Z) /\
  fst (try_acquire now (snd (get_status now l))) = fst (try_acquire now l) /\
  cycle_queue_size (fst (get_status now l)) =
    (cycle_limit (fst (get_status now l)) - cycle_remaining (fst (get_status now l)))%Z.
Proof.
  rewrite !try_acquire_fst. unfold get_status.
  cbn [fst snd daily_remaining cycle_remaining cycle_limit cycle_queue_size].
  rewrite !refill_config, !refill_queue.
  assert (Hd : _daily_tokens (_refill_daily_tokens now (_cleanup_cycle_queue now l)) =
               _daily_tokens (_refill_daily_tokens now l)).
  { unfold _refill_daily_tokens, _cleanup_cycle_queue.
    cbn [config _daily_last_refill _daily_tokens].
    destruct (Qle_bool _ _); reflexivity. }
  rewrite (refill_tokens_twice now l (_cleanup_cycle_queue now l)) by reflexivity.
  rewrite Hd.
  unfold _cleanup_cycle_queue. cbn [config _cycle_queue].
  rewrite popleft_expired_idempotent.
  split; [|split; [reflexivity|lia]].
  rewrite andb_true_iff, !Z.ltb_lt. lia.
Qed.

(** X8: a limiter does not stay blocked.  With a positive cycle bound
    and a daily token left, an acquisition made when every queued
    timestamp is older than [cycle_seconds] is granted; the queue then
    holds that acquisition alone and the window starts anew. *)
Theorem try_acquire_after_idle_window (now : Q) (l : Limiter) :
  (0 < max_per_cycle (config l))%Z ->
  (0 < daily_budget now l)%Z ->
  Forall (fun t => t < now - inject_Z (cycle_seconds (config l))) (_cycle_queue l) ->
  fst (try_acquire now l) = true /\
  _cycle_queue (snd (try_acquire now l)) = [now] /\
  _cycle_window_start (snd (try_acquire now l)) = now.
Proof.
  intros Hc Hd Hold. unfold daily_budget in Hd.
  unfold try_acquire, _can_consume_cycle_token, _cleanup_cycle_queue. simpl.
  rewrite refill_config, refill_queue.
  assert (Hp : popleft_expired (now - inject_Z (cycle_seconds (config l))) (_cycle_queue l)
               = []).
  { rewrite <- (app_nil_r (_cycle_queue l)). now rewrite popleft_expired_drops. }
  rewrite Hp. simpl.
  destruct (Z.ltb_spec 0 (_daily_tokens (_refill_daily_tokens now l))); [|lia].
  change (Z.of_nat 0) with 0%Z.
  destruct (Z.ltb_spec 0 (max_per_cycle (config l))); [|lia].
  simpl. split; [reflexivity | split; reflexivity].
Qed.


Lemma min_le x y : min_ x y <= y /\ min_ x y <= x.
Proof.
  unfold min_. destruct (Qltb y x) eqn:E.
  - apply Qltb_lt in E. lra.
  - apply Qltb_ge in E. lra.
Qed.

Lemma get_delays_close (times : list (Q * Q)) :
  forall (b : Backoff),
    close_calls 60 (_last_reset b) times ->
    (_attempts b + length times <= 1024)%nat ->
    fst (get_delays times b) =
    map (fun i => Some (min_ (base_delay b * inject_Z (2 ^ Z.of_nat (_attempts b + i)))
                          (max_delay b)))
        (seq 0 (length times)).
Proof.
  induction times as [|t rest IH]; intros b Hclose Hlen; [reflexivity|].
  simpl in Hclose. destruct Hclose as [Ht Hclose]. simpl length in *.
  cbn [get_delays]. unfold get_delay.
  assert (Hno : Qltb 60 (fst t - _last_reset b) = false) by (apply Qltb_ge; exact Ht).
  rewrite Hno.
  destruct (Nat.leb_spec 1024 (_attempts b)) as [Hbig|Hsmall]; [lia|].
  specialize (IH (mkBackoff (base_delay b) (max_delay b) (S (_attempts b)) (snd t)) Hclose).
  cbn [_attempts base_delay max_delay _last_reset] in IH.
  specialize (IH ltac:(lia)).
  destruct (get_delays rest _) as [ds b'']. cbn [fst] in *.
  rewrite IH. cbn [seq map]. rewrite Nat.add_0_r. f_equal.
  rewrite <- seq_shift, map_map. apply map_ext. intros i.
  now rewrite Nat.add_succ_comm.
Qed.

Lemma min_first x y : min_ (x * inject_Z (2 ^ Z.of_nat 0)) y == min_ x y.
Proof.
  change (inject_Z (2 ^ Z.of_nat 0)) with 1.
  unfold min_. destruct (Qltb y (x * 1)) eqn:E1, (Qltb y x) eqn:E2;
    try apply Qltb_lt in E1; try apply Qltb_ge in E1;
    try apply Qltb_lt in E2; try apply Qltb_ge in E2; lra.
Qed.

(** X9: the backoff doubles up to its ceiling.  For calls of
    [get_delay] each no more than 60 seconds after the one before, the
    n-th delay (from 0) is [min(base_delay * 2**n, max_delay)], up to
    1024 calls; after a pause of more than 60 seconds, and after
    [reset], the delay is [min(base_delay, max_delay)] again; and no
    delay exceeds [max_delay]. *)
Theorem backoff_doubles_up_to_max (base max t0 : Q) (times : list (Q * Q)) :
  close_calls 60 t0 times ->
  (length times <= 1024)%nat ->
  fst (get_delays times (new_backoff base max t0)) =
    map (fun i => Some (min_ (base * inject_Z (2 ^ Z.of_nat i)) max))
        (seq 0 (length times)) /\
  (forall b t stamp, 60 < t - _last_reset b ->
     exists d, fst (get_delay t stamp b) = Some d /\
               d == min_ (base_delay b) (max_delay b)) /\
  (forall b t t' stamp,
     exists d, fst (get_delay t' stamp (reset t b)) = Some d /\
               d == min_ (base_delay b) (max_delay b)) /\
  (forall b t stamp d, fst (get_delay t stamp b) = Some d -> d <= max_delay b).
Proof.
  intros Hclose Hlen. split; [|split; [|split]].
  - apply (get_delays_close times (new_backoff base max t0)); [exact Hclose|].
    simpl. lia.
  - intros b t stamp Hp. apply Qltb_lt in Hp. unfold get_delay. rewrite Hp.
    cbn [Nat.leb fst]. eexists. split; [reflexivity|]. apply min_first.
  - intros b t t' stamp. unfold get_delay, reset. cbn [_attempts _last_reset base_delay max_delay].
    destruct (Qltb 60 _); cbn [Nat.leb fst]; eexists; (split; [reflexivity|]);
      apply min_first.
  - intros b t stamp d. unfold get_delay.
    destruct (_ <=? _)%nat; [discriminate|]. simpl. intros [= <-]. apply min_le.
Qed.

End RateLimiterLimits.

Section RateLimiterLimitsExamples.
Import RateLimiter.
#[local] Open Scope Q_scope.

(** The default limiter after acquisitions at times 0, 10 and 50. *)
Lemma limiter_stays_within_limits_witness :
  (0 <= _daily_tokens (snd (acquire_all [0; 10; 50]%Q (init default_config 0%Q)))
     <= max_per_day default_config)%Z /\
  (Z.of_nat (length (_cycle_queue
                       (snd (acquire_all [0; 10; 50]%Q (init default_config 0%Q)))))
     <= Z.max 0 (max_per_cycle default_config))%Z.
Proof.
  apply (limiter_stays_within_limits default_config 0 [0; 10; 50]).
  simpl. lia.
Defined.

(** A limiter of two tokens a day: of three acquisitions within the
    day, two are granted. *)
Lemma daily_limit_holds_witness :
  (Z.of_nat (granted (fst (acquire_all [0; 100; 200]%Q
                             (init (mkConfig 20 60 2 86400) 0%Q))))
     <= 2)%Z.
Proof.
  apply (proj2 (daily_limit_holds (mkConfig 20 60 2 86400) 0 [0; 100; 200]
                  ltac:(simpl; lia)
                  ltac:(repeat constructor))).
Defined.

(** After acquisitions at times 0 and 10, one at time 100. *)
Lemma try_acquire_after_idle_window_witness :
  fst (try_acquire 100 (snd (acquire_all [0; 10] (init default_config 0)))) = true /\
  _cycle_queue (snd (try_acquire 100 (snd (acquire_all [0; 10] (init default_config 0)))))
    = [100] /\
  _cycle_window_start
    (snd (try_acquire 100 (snd (acquire_all [0; 10] (init default_config 0))))) = 100.
Proof.
  apply (try_acquire_after_idle_window 100
           (snd (acquire_all [0; 10] (init default_config 0)))).
  - vm_compute. reflexivity.
  - vm_compute. reflexivity.
  - vm_compute. repeat constructor.
Defined.

(** Delays of 1, 2 and 4 seconds for three calls one second apart. *)
Lemma backoff_doubles_up_to_max_witness :
  fst (get_delays [(1, 1); (2, 2); (3, 3)] (new_backoff 1 300 0)) =
  map (fun i => Some (min_ (1 * inject_Z (2 ^ Z.of_nat i)) 300)) (seq 0 3).
Proof.
  apply (proj1 (backoff_doubles_up_to_max 1 300 0 [(1, 1); (2, 2); (3, 3)]
                  ltac:(simpl; repeat split; vm_compute; discriminate)
                  ltac:(simpl; lia))).
Defined.

End RateLimiterLimitsExamples.

(** ** The token validator: refresh, degraded mode and the keychain *)

Section TokenValidatorRefresh.
Import TokenValidator.
#[local] Open Scope Q_scope.
Context {C : Type} `{TokenCache C}.


Lemma silent_refresh_saved (clock : Z -> Q) (account : string) (v : Validator)
    (cache cache' : C) (token : CachedToken) (ok : bool) :
  (0 <= refresh_attempts v < max_refresh_attempts v)%Z ->
  save_token cache (provider v) account
    (with_expiry token (int_of (clock 0%Z) + 3600)) = Saved ok cache' ->
  _silent_refresh clock account token v cache =
  (Return (mkInfo (access_token token) (token_type token) 3600 (refresh_token token) account),
   mkValidator (provider v) 0 (max_refresh_attempts v) (degraded_mode v)
     (audit_log v ++ [(first8 (access_token token), first8 (access_token token))])
     (alerts v),
   cache').
Proof.
  intros Hatt Hsave. unfold _silent_refresh.
  destruct (Z.leb_spec (max_refresh_attempts v) (refresh_attempts v)); [lia|].
  destruct (Z.to_nat (max_refresh_attempts v)) as [|fuel] eqn:Hfuel; [lia|].
  cbn [refresh_loop]. rewrite Hsave. reflexivity.
Qed.


(** X11: when the cache takes the save (whatever flag it returns), a
    validation that needs a refresh succeeds at the first attempt: it
    returns the token with [expires_in = 3600], writes one audit line,
    sets the failure count to 0 and stores the token with its expiry
    moved to one hour after the clock reading. *)
Theorem refresh_succeeds_when_cache_saves (now : Q) (clock : Z -> Q) (account : string)
    (buffer_seconds : Z) (v : Validator) (cache cache' : C) (token : CachedToken)
    (ok : bool) :
  degraded_mode v = false ->
  (0 <= refresh_attempts v < max_refresh_attempts v)%Z ->
  get_token cache (provider v) account = Some token ->
  inject_Z (expires_at token) - now < inject_Z buffer_seconds ->
  save_token cache (provider v) account
    (with_expiry token (int_of (clock 0%Z) + 3600)) = Saved ok cache' ->
  validate_before_request now clock account buffer_seconds v cache =
  (Return (mkInfo (access_token token) (token_type token) 3600 (refresh_token token) account),
   mkValidator (provider v) 0 (max_refresh_attempts v) false
     (audit_log v ++ [(first8 (access_token token), first8 (access_token token))])
     (alerts v),
   cache').
Proof.
  intros Hd Hatt Ht Hrem Hsave.
  rewrite (validate_refreshes now clock account buffer_seconds v cache token Hd Ht Hrem).
  rewrite (silent_refresh_saved clock account v cache cache' token ok Hatt Hsave).
  now rewrite Hd.
Qed.

End TokenValidatorRefresh.

Section TokenValidatorKeychain.
Import TokenValidator.
#[local] Open Scope Q_scope.

Lemma keychain_key_inj (p a p' a' : string) :
  colon_free p = true -> colon_free p' = true ->
  _get_keychain_key p a = _get_keychain_key p' a' -> p = p' /\ a = a'.
Proof.
  unfold _get_keychain_key. revert p'.
  induction p as [|x p IH]; intros [|y p'] Hp Hp' Heq;
    rewrite ?append_cons, ?append_empty in Heq.
  - injection Heq as ->. split; reflexivity.
  - simpl in Hp'. apply andb_true_iff in Hp'. destruct Hp' as [Hy _].
    injection Heq as <- _. discriminate.
  - simpl in Hp. apply andb_true_iff in Hp. destruct Hp as [Hx _].
    injection Heq as -> _. discriminate.
  - simpl in Hp, Hp'. apply andb_true_iff in Hp, Hp'.
    injection Heq as -> Heq.
    destruct (IH p' (proj2 Hp) (proj2 Hp') Heq) as [-> ->]. split; reflexivity.
Qed.

(** X12: with the keychain cache, a token refreshed at one validation is
    served from the cache at the next: as long as at least
    [buffer_seconds] remain of the hour granted by the refresh, the
    second validation returns the same access token with the remaining
    seconds and refreshes nothing. *)
Theorem refreshed_token_is_served_from_cache (now now' : Q) (clock clock' : Z -> Q)
    (account : string) (buffer_seconds : Z) (v : Validator)
    (cache : gmap string CachedToken) (token : CachedToken) :
  degraded_mode v = false ->
  (0 <= refresh_attempts v < max_refresh_attempts v)%Z ->
  get_token cache (provider v) account = Some token ->
  inject_Z (expires_at token) - now < inject_Z buffer_seconds ->
  inject_Z buffer_seconds <= inject_Z (int_of (clock 0%Z) + 3600) - now' ->
  exists info v' cache',
    validate_before_request now clock account buffer_seconds v cache =
      (Return info, v', cache') /\
    get_token cache' (provider v) account =
      Some (with_expiry token (int_of (clock 0%Z) + 3600)) /\
    validate_before_request now' clock' account buffer_seconds v' cache' =
      (Return (mkInfo (access_token token) (token_type token)
                 (int_of (inject_Z (int_of (clock 0%Z) + 3600) - now'))
                 (refresh_token token) account),
       v', cache').
Proof.
  intros Hd Hatt Ht Hrem Hfresh.
  do 3 eexists. split; [|split].
  - rewrite (validate_refreshes now clock account buffer_seconds v cache token Hd Ht Hrem).
    apply (silent_refresh_saved clock account v cache _ token true Hatt).
    reflexivity.
  - cbn [get_token Keychain]. apply lookup_insert_eq.
  - apply (validate_returns_cached now' clock' account buffer_seconds _ _
             (with_expiry token (int_of (clock 0%Z) + 3600))).
    + exact Hd.
    + cbn [get_token Keychain provider]. apply lookup_insert_eq.
    + exact Hfresh.
Qed.

(** X13: keychain entries are kept apart.  For providers without a
    colon, saving a token under one (provider, account) makes
    [get_token] return it for that pair and leaves what [get_token]
    returns for any other pair unchanged; deleting it makes [get_token]
    return nothing for that pair and again leaves the others alone. *)
Theorem keychain_entries_are_separate (cache : gmap string CachedToken)
    (p a p' a' : string) (token : CachedToken) :
  colon_free p = true -> colon_free p' = true -> (p, a) <> (p', a') ->
  (forall cache', save_token cache p a token = Saved true cache' ->
     get_token cache' p a = Some token /\
     get_token cache' p' a' = get_token cache p' a') /\
  get_token (snd (delete_token cache p a)) p a = None /\
  get_token (snd (delete_token cache p a)) p' a' = get_token cache p' a'.
Proof.
  intros Hp Hp' Hne.
  assert (Hk : _get_keychain_key p a <> _get_keychain_key p' a').
  { intros Heq. apply keychain_key_inj in Heq; [|assumption..].
    destruct Heq as [-> ->]. now apply Hne. }
  split; [|split].
  - intros cache' [= <-]. cbn [get_token Keychain]. split.
    + apply lookup_insert_eq.
    + now apply lookup_insert_ne.
  - cbn [get_token Keychain delete_token snd]. apply lookup_delete_eq.
  - cbn [get_token Keychain delete_token snd]. now apply lookup_delete_ne.
Qed.

(** X14: once a token is deleted, [has_valid_token] is false for its
    account and a validation raises "No tokens found ... OAuth not
    configured", with no refresh attempted and validator and cache left
    as they are. *)
Theorem deleted_token_is_not_served (now : Q) (clock : Z -> Q) (account : string)
    (buffer_seconds : Z) (v : Validator) (cache : gmap string CachedToken) :
  degraded_mode v = false ->
  has_valid_token now (snd (delete_token cache (provider v) account)) (provider v) account
    = false /\
  validate_before_request now clock account buffer_seconds v
    (snd (delete_token cache (provider v) account)) =
  (Raise ("No tokens found for " +:+ provider v +:+ ":" +:+ account +:+
          " - OAuth not configured"),
   v, snd (delete_token cache (provider v) account)).
Proof.
  intros Hd. unfold has_valid_token, validate_before_request. rewrite Hd.
  cbn [get_token Keychain delete_token snd]. rewrite lookup_delete_eq.
  split; reflexivity.
Qed.

End TokenValidatorKeychain.

Section TokenValidatorRefreshExamples.
Import TokenValidator.
#[local] Open Scope Q_scope.


(** The same validation with the keychain cache: the refresh succeeds. *)
Lemma refresh_succeeds_when_cache_saves_witness :
  fst (fst (validate_before_request (inject_Z (t_now + 1))
              (wall_clock (inject_Z (t_now + 1))) "ops@novotechno" 300
              (new_validator "microsoft") example_cache)) =
  Return (mkInfo "eyJ0eXAiOiJKV1Qi" "Bearer" 3600 (Some "refresh_123") "ops@novotechno").
Proof.
  rewrite (@refresh_succeeds_when_cache_saves (gmap string CachedToken) Keychain
             (inject_Z (t_now + 1)) (wall_clock (inject_Z (t_now + 1)))
             "ops@novotechno" 300 (new_validator "microsoft") example_cache
             _ expiring_token true eq_refl ltac:(simpl; lia)
             ltac:(vm_compute; reflexivity) ltac:(vm_compute; reflexivity) eq_refl).
  reflexivity.
Defined.

(** One minute after the refresh the token is served from the cache,
    with 3540 seconds left. *)
Lemma refreshed_token_is_served_from_cache_witness :
  exists info v' cache',
    validate_before_request (inject_Z (t_now + 1)) (wall_clock (inject_Z (t_now + 1)))
      "ops@novotechno" 300 (new_validator "microsoft") example_cache =
      (Return info, v', cache') /\
    validate_before_request (inject_Z (t_now + 61)) (wall_clock (inject_Z (t_now + 61)))
      "ops@novotechno" 300 v' cache' =
      (Return (mkInfo "eyJ0eXAiOiJKV1Qi" "Bearer" 3540 (Some "refresh_123")
                 "ops@novotechno"),
       v', cache').
Proof.
  destruct (refreshed_token_is_served_from_cache
              (inject_Z (t_now + 1)) (inject_Z (t_now + 61))
              (wall_clock (inject_Z (t_now + 1))) (wall_clock (inject_Z (t_now + 61)))
              "ops@novotechno" 300 (new_validator "microsoft") example_cache
              expiring_token eq_refl ltac:(simpl; lia)
              ltac:(vm_compute; reflexivity) ltac:(vm_compute; reflexivity)
              ltac:(vm_compute; discriminate))
    as (info & v' & cache' & H1 & _ & H2).
  exists info, v', cache'. split; [exact H1|]. exact H2.
Defined.

(** Two providers, one account name. *)
Lemma keychain_entries_are_separate_witness :
  get_token (snd (delete_token example_cache "microsoft" "ops@novotechno"))
    "microsoft" "ops@novotechno" = None /\
  get_token (snd (delete_token example_cache "microsoft" "ops@novotechno"))
    "google" "ops@novotechno" = get_token example_cache "google" "ops@novotechno".
Proof.
  apply (proj2 (keychain_entries_are_separate example_cache
                  "microsoft" "ops@novotechno" "google" "ops@novotechno" expiring_token
                  eq_refl eq_refl ltac:(discriminate))).
Defined.

(** The token of the worked example, deleted. *)
Lemma deleted_token_is_not_served_witness :
  has_valid_token (inject_Z t_now)
    (snd (delete_token example_cache "microsoft" "ops@novotechno"))
    "microsoft" "ops@novotechno" = false.
Proof.
  apply (proj1 (deleted_token_is_not_served (inject_Z t_now) (wall_clock (inject_Z t_now))
                  "ops@novotechno" 300 (new_validator "microsoft") example_cache eq_refl)).
Defined.

End TokenValidatorRefreshExamples.

(** ** The invoice state store: round trips, locks and the event log *)

Section InvoiceStateLog.
Import InvoiceState.

Lemma appends_ret {A} (a : A) : appends (ret a).
Proof. intros w. exists []. simpl. now rewrite app_nil_r. Qed.

Lemma appends_raise {A} (e : Exn) : appends (@raise A e).
Proof. intros w. exists []. simpl. now rewrite app_nil_r. Qed.

Lemma appends_bind {A B} (m : M A) (k : A -> M B) :
  appends m -> (forall a, appends (k a)) -> appends (bind m k).
Proof.
  intros Hm Hk w. unfold bind. destruct (Hm w) as [n1 H1].
  destruct (m w) as [[e|a] w1]; simpl in *.
  - exists n1. exact H1.
  - destruct (Hk a w1) as [n2 H2]. exists (n1 ++ n2). rewrite H2, H1.
    now rewrite app_assoc.
Qed.

Lemma appends_finally {A} (body : M A) (cleanup : M unit) :
  appends body -> appends cleanup -> appends (finally body cleanup).
Proof.
  intros Hb Hc w. unfold finally. destruct (Hb w) as [n1 H1].
  destruct (body w) as [r w1]. simpl in *.
  destruct (Hc w1) as [n2 H2].
  destruct (cleanup w1) as [[e|u] w2]; simpl in *;
    exists (n1 ++ n2); rewrite H2, H1; now rewrite app_assoc.
Qed.

Lemma appends_same {A} (m : M A) :
  (forall w, event_log (snd (m w)) = event_log w) -> appends m.
Proof. intros Hm w. exists []. rewrite Hm. now rewrite app_nil_r. Qed.

Variable state_dir : Path.
Variable enable_locking : bool.
Variable utcnow : nat -> string.
Variable uuid8 : nat -> string.
Variable sha256_16 : gmap string json -> string.

Lemma appends_get_files : appends get_files.
Proof. now apply appends_same. Qed.

Lemma appends_put_files fs : appends (put_files fs).
Proof. now apply appends_same. Qed.

Lemma appends_exists_file p : appends (exists_file p).
Proof. now apply appends_same. Qed.

Lemma appends_now_iso : appends (now_iso utcnow).
Proof. now apply appends_same. Qed.

Lemma appends_acquire p : appends (_acquire_lock enable_locking p).
Proof.
  apply appends_same. intros w. unfold _acquire_lock.
  destruct enable_locking; simpl; [|reflexivity].
  destruct (_locks w !! p) as [[|]|]; reflexivity.
Qed.

Lemma appends_release p : appends (_release_lock enable_locking p).
Proof.
  apply appends_same. intros w. unfold _release_lock.
  destruct enable_locking; simpl; [|reflexivity].
  destruct (_locks w !! p) as [[|]|]; reflexivity.
Qed.

Lemma appends_atomic_write p c : appends (atomic_write p c).
Proof.
  unfold atomic_write. apply appends_bind; [apply appends_get_files|].
  intros fs. apply appends_put_files.
Qed.

Lemma appends_log_event c i e p : appends (_log_event utcnow uuid8 c i e p).
Proof.
  intros w. unfold _log_event, bind, now_iso, _generate_event_id. simpl.
  eexists. reflexivity.
Qed.

Lemma appends_unlink p : appends (unlink p).
Proof.
  unfold unlink. apply appends_bind; [apply appends_get_files|].
  intros fs. destruct (fs !! p); [apply appends_put_files | apply appends_raise].
Qed.

Lemma appends_write_state client invoice d :
  appends (write_state state_dir enable_locking utcnow uuid8 sha256_16 client invoice d).
Proof.
  unfold write_state. apply appends_finally; [|apply appends_release].
  apply appends_bind; [apply appends_acquire|]. intros _.
  apply appends_bind; [apply appends_now_iso|]. intros updated_at.
  apply appends_bind; [apply appends_atomic_write|]. intros _.
  apply appends_bind; [apply appends_log_event|]. intros _.
  apply appends_ret.
Qed.

Lemma appends_recover p e : appends (recover_or_raise p e).
Proof.
  apply appends_same. intros w. rewrite recover_or_raise_spec.
  destruct (backup_document w p); reflexivity.
Qed.

Lemma appends_read_state client invoice verify :
  appends (read_state state_dir sha256_16 client invoice verify).
Proof.
  unfold read_state. apply appends_bind; [apply appends_get_files|]. intros fs.
  destruct (fs !! _) as [[v|t]|]; [|apply appends_recover|apply appends_ret].
  destruct verify; [|apply appends_ret].
  destruct v; try apply appends_raise.
  destruct (m !! "_checksum"); [|apply appends_ret].
  destruct (truthy j); [|apply appends_ret].
  destruct (differs _ _); [apply appends_recover|apply appends_ret].
Qed.

Lemma appends_mark_paid client invoice payment :
  appends (mark_paid state_dir enable_locking utcnow uuid8 sha256_16 client invoice payment).
Proof.
  unfold mark_paid. apply appends_bind; [apply appends_exists_file|]. intros present.
  destruct (negb present); [apply appends_raise|].
  apply appends_finally; [|apply appends_release].
  apply appends_bind; [apply appends_acquire|]. intros _.
  apply appends_bind; [apply appends_read_state|]. intros loaded.
  destruct loaded as [[| | | | |d]|]; try apply appends_raise.
  apply appends_bind; [apply appends_now_iso|]. intros paid_at.
  apply appends_bind; [apply appends_write_state|]. intros _.
  apply appends_bind; [apply appends_atomic_write|]. intros _.
  apply appends_bind; [apply appends_unlink|]. intros _.
  apply appends_bind; [apply appends_log_event|]. intros _.
  apply appends_ret.
Qed.

Lemma appends_create_backup client invoice :
  appends (create_backup state_dir client invoice).
Proof.
  unfold create_backup. apply appends_bind; [apply appends_get_files|]. intros fs.
  destruct (fs !! _); [|apply appends_raise].
  apply appends_bind; [apply appends_put_files|]. intros _. apply appends_ret.
Qed.


Lemma write_state_unlocked client invoice d w :
  (enable_locking = true ->
   _locks w !! state_file_of state_dir client invoice <> Some true) ->
  exists w1,
    write_state state_dir enable_locking utcnow uuid8 sha256_16 client invoice d w =
      (inr (state_file_of state_dir client invoice), w1) /\
    files w1 =
      <[state_file_of state_dir client invoice :=
          Doc (JObj (stored_record sha256_16 d (utcnow (tick w))))]>
        (delete (add_suffix (state_file_of state_dir client invoice) ".tmp")
           (<[add_suffix (state_file_of state_dir client invoice) ".tmp" :=
                Doc (JObj (stored_record sha256_16 d (utcnow (tick w))))]> (files w))) /\
    event_log w1 =
      event_log w ++
      [mkEvent (utcnow (S (tick w))) (uuid8 (S (S (tick w)))) client invoice
         "state_update" (JObj d)] /\
    tick w1 = S (S (S (tick w))) /\
    (enable_locking = true ->
     _locks w1 !! state_file_of state_dir client invoice = Some false) /\
    (enable_locking = false -> _locks w1 = _locks w).
Proof.
  intros Hfree. unfold write_state, finally, bind, _acquire_lock, _release_lock.
  destruct enable_locking; simpl.
  - specialize (Hfree eq_refl).
    destruct (_locks w !! state_file_of state_dir client invoice) as [[|]|] eqn:Hl;
      [congruence| |]; simpl; rewrite lookup_insert_eq; simpl;
      (eexists; split; [reflexivity|]); simpl;
      (split; [reflexivity|]); (split; [reflexivity|]); (split; [reflexivity|]);
      (split; [intros _; apply lookup_insert_eq | discriminate]).
  - eexists. split; [reflexivity|]. simpl.
    split; [reflexivity|]. split; [reflexivity|]. split; [reflexivity|].
    split; [discriminate | reflexivity].
Qed.

Lemma is_meta_key_checksum : is_meta_key "_checksum" = true.
Proof. reflexivity. Qed.

Lemma drop_meta_stored (d : gmap string json) (updated_at : string) :
  drop_meta (delete "_checksum" (stored_record sha256_16 d updated_at)) = drop_meta d.
Proof.
  apply map_eq. intros k. rewrite !drop_meta_lookup.
  destruct (is_meta_key k) eqn:Hk; [reflexivity|].
  unfold stored_record.
  assert (k <> "_checksum") by (intros ->; discriminate).
  assert (k <> "_version") by (intros ->; discriminate).
  assert (k <> "_updated_at") by (intros ->; discriminate).
  rewrite lookup_delete_ne by congruence.
  rewrite !lookup_insert_ne by congruence. reflexivity.
Qed.

Lemma delete_checksum_stored (d : gmap string json) (updated_at : string) :
  delete "_checksum" (stored_record sha256_16 d updated_at) =
  <["_version" := JStr "1.0"]>
    (<["_updated_at" := JStr updated_at]> (delete "_checksum" d)).
Proof.
  unfold stored_record.
  rewrite delete_insert_ne by discriminate.
  rewrite delete_insert_ne by discriminate.
  now rewrite delete_insert_eq.
Qed.

Lemma read_stored client invoice d updated_at w :
  files w !! state_file_of state_dir client invoice =
    Some (Doc (JObj (stored_record sha256_16 d updated_at))) ->
  read_state state_dir sha256_16 client invoice true w =
  (inr (Some (JObj (<["_version" := JStr "1.0"]>
                      (<["_updated_at" := JStr updated_at]> (delete "_checksum" d))))), w).
Proof.
  intros Hf. unfold read_state, bind, get_files. simpl. rewrite Hf.
  assert (Hc : stored_record sha256_16 d updated_at !! "_checksum" =
               Some (JStr (sha256_16 (drop_meta d)))).
  { unfold stored_record. rewrite !lookup_insert_ne by discriminate.
    apply lookup_insert_eq. }
  rewrite Hc. unfold _compute_checksum. rewrite drop_meta_stored, delete_checksum_stored.
  destruct (truthy _); [|reflexivity].
  assert (Hd : differs (JStr (sha256_16 (drop_meta d))) (sha256_16 (drop_meta d)) = false)
    by now apply differs_false.
  now rewrite Hd.
Qed.

(** X15: what [write_state] writes, [read_state] reads back.  When the
    record's lock is free (or locking is off), [write_state] returns the
    path of the state file, and a read with verification passes the
    checksum test and returns the data with [_updated_at] and [_version]
    added and without [_checksum]; a read without verification returns
    the stored document, checksum included. *)
Theorem write_then_read_round_trip (client invoice : string) (d : gmap string json)
    (w : World) :
  (enable_locking = true ->
   _locks w !! state_file_of state_dir client invoice <> Some true) ->
  exists w1,
    write_state state_dir enable_locking utcnow uuid8 sha256_16 client invoice d w =
      (inr (state_file_of state_dir client invoice), w1) /\
    read_state state_dir sha256_16 client invoice true w1 =
      (inr (Some (JObj (<["_version" := JStr "1.0"]>
                          (<["_updated_at" := JStr (utcnow (tick w))]>
                             (delete "_checksum" d))))), w1) /\
    read_state state_dir sha256_16 client invoice false w1 =
      (inr (Some (JObj (<["_version" := JStr "1.0"]>
                          (<["_updated_at" := JStr (utcnow (tick w))]>
                             (<["_checksum" := JStr (sha256_16 (drop_meta d))]> d))))), w1).
Proof.
  intros Hfree.
  destruct (write_state_unlocked client invoice d w Hfree) as (w1 & Hw & Hf & _).
  exists w1. split; [exact Hw|].
  assert (Hl : files w1 !! state_file_of state_dir client invoice =
               Some (Doc (JObj (stored_record sha256_16 d (utcnow (tick w)))))).
  { rewrite Hf. apply lookup_insert_eq. }
  split.
  - apply read_stored, Hl.
  - unfold read_state, bind, get_files. simpl. rewrite Hl. reflexivity.
Qed.

Lemma write_state_held (client invoice : string) (d : gmap string json) (w : World) :
  enable_locking = true ->
  _locks w !! state_file_of state_dir client invoice = Some true ->
  write_state state_dir enable_locking utcnow uuid8 sha256_16 client invoice d w =
  (inl (StateLockError (state_file_of state_dir client invoice)),
   mkWorld (files w) (event_log w)
     (<[state_file_of state_dir client invoice := false]> (_locks w)) (tick w)).
Proof.
  intros Hon Hheld. unfold write_state, finally, bind, _acquire_lock, _release_lock.
  rewrite Hon. simpl. rewrite Hheld. simpl. rewrite Hheld. reflexivity.
Qed.

(** X16: with locking on, [write_state] for a record whose lock is held
    raises [StateLockError] and writes neither the file nor the event
    log; its [finally] clause releases the lock all the same, although
    the call never held it. *)
Theorem write_state_on_held_lock (client invoice : string) (d : gmap string json)
    (w : World) :
  enable_locking = true ->
  _locks w !! state_file_of state_dir client invoice = Some true ->
  exists w1,
    write_state state_dir enable_locking utcnow uuid8 sha256_16 client invoice d w =
      (inl (StateLockError (state_file_of state_dir client invoice)), w1) /\
    files w1 = files w /\ event_log w1 = event_log w /\
    _locks w1 !! state_file_of state_dir client invoice = Some false.
Proof.
  intros Hon Hheld. eexists. split; [apply write_state_held; assumption|].
  simpl. split; [reflexivity|]. split; [reflexivity|]. apply lookup_insert_eq.
Qed.

(** X17: the event log is append-only.  Whatever their outcome,
    [write_state] and [mark_paid] leave the earlier events in place and
    only add to them, and [read_state] and [create_backup] add nothing.
    A [write_state] that returns adds exactly one event, a
    [state_update] for the client and invoice carrying the data written:
    [get_event_count] goes up by one and [replay_events] ends with that
    event. *)
Theorem event_log_is_append_only (client invoice : string) (d payment : gmap string json)
    (verify : bool) (w : World) :
  (exists new,
     event_log (snd (write_state state_dir enable_locking utcnow uuid8 sha256_16
                       client invoice d w)) = event_log w ++ new) /\
  (exists new,
     event_log (snd (mark_paid state_dir enable_locking utcnow uuid8 sha256_16
                       client invoice payment w)) = event_log w ++ new) /\
  event_log (snd (read_state state_dir sha256_16 client invoice verify w)) = event_log w /\
  event_log (snd (create_backup state_dir client invoice w)) = event_log w /\
  (forall p w1,
     write_state state_dir enable_locking utcnow uuid8 sha256_16 client invoice d w
       = (inr p, w1) ->
     fst (get_event_count w1) = inr (S (length (event_log w))) /\
     exists e, fst (replay_events None w1) = inr (event_log w ++ [e]) /\
               ev_client e = client /\ ev_invoice e = invoice /\
               event e = "state_update" /\ data e = JObj d).
Proof.
  split; [apply appends_write_state|]. split; [apply appends_mark_paid|].
  split; [|split].
  - unfold read_state, bind, get_files. simpl.
    destruct (files w !! _) as [[v|t]|]; [| |reflexivity].
    + destruct verify; [|reflexivity].
      destruct v; try reflexivity.
      destruct (m !! "_checksum"); [|reflexivity].
      destruct (truthy j); [|reflexivity].
      destruct (differs _ _); [|reflexivity].
      rewrite recover_or_raise_spec. destruct (backup_document w _); reflexivity.
    + rewrite recover_or_raise_spec. destruct (backup_document w _); reflexivity.
  - unfold create_backup, bind, get_files. simpl.
    destruct (files w !! _); reflexivity.
  - intros p w1 Hw.
    assert (Hfree : enable_locking = true ->
                    _locks w !! state_file_of state_dir client invoice <> Some true).
    { intros Hon Hheld.
      rewrite (write_state_held client invoice d w Hon Hheld) in Hw. discriminate. }
    destruct (write_state_unlocked client invoice d w Hfree)
      as (w1' & Hw' & _ & Hlog & _).
    rewrite Hw in Hw'. injection Hw' as _ <-.
    unfold get_event_count, replay_events. simpl. rewrite Hlog. split.
    + rewrite length_app. simpl. f_equal. lia.
    + exists (mkEvent (utcnow (S (tick w))) (uuid8 (S (S (tick w)))) client invoice
                "state_update" (JObj d)).
      split; [|split; [|split; [|split]]; reflexivity].
      f_equal. apply forallb_filter_id. apply forallb_forall. reflexivity.
Qed.

End InvoiceStateLog.

Section InvoiceStateArchive.
Import InvoiceState.

Variable state_dir : Path.
Variable utcnow : nat -> string.
Variable uuid8 : nat -> string.
Variable sha256_16 : gmap string json -> string.

Lemma length_append (a b : string) :
  String.length (a +:+ b) = (String.length a + String.length b)%nat.
Proof.
  induction a as [|x a IH]; [reflexivity|]. rewrite append_cons. simpl. now rewrite IH.
Qed.

Lemma add_suffix_state_file (dir : Path) (client name ext : string) :
  add_suffix (dir ++ [client; name]) ext = dir ++ [client; name +:+ ext].
Proof.
  induction dir as [|part rest IH]; [reflexivity|].
  simpl. rewrite IH. destruct rest; reflexivity.
Qed.

Lemma suffixed_differs (dir : Path) (client name ext : string) :
  ext <> "" -> add_suffix (dir ++ [client; name]) ext <> dir ++ [client; name].
Proof.
  intros Hext Heq. rewrite add_suffix_state_file in Heq.
  apply app_inv_head in Heq. injection Heq as Heq.
  apply (f_equal String.length) in Heq. rewrite length_append in Heq.
  destruct ext; [congruence|]. simpl in Heq. lia.
Qed.

(** X18: a backup restores a record.  After [write_state] and
    [create_backup] (which returns the [.bak] path and leaves the state
    file as it is), a state file that no longer parses is read as the
    backup's document: the record as stored, with its [_checksum],
    [_updated_at] and [_version] fields. *)
Theorem backup_restores_unreadable_state (enable_locking : bool) (client invoice : string)
    (d : gmap string json) (text : string) (w : World) :
  (enable_locking = true ->
   _locks w !! state_file_of state_dir client invoice <> Some true) ->
  exists w1 w2,
    write_state state_dir enable_locking utcnow uuid8 sha256_16 client invoice d w =
      (inr (state_file_of state_dir client invoice), w1) /\
    create_backup state_dir client invoice w1 =
      (inr (backup_file_of state_dir client invoice), w2) /\
    files w2 !! state_file_of state_dir client invoice =
      files w1 !! state_file_of state_dir client invoice /\
    read_state state_dir sha256_16 client invoice true
      (overwritten (state_file_of state_dir client invoice) (Junk text) w2) =
    (inr (Some (JObj (stored_record sha256_16 d (utcnow (tick w))))),
     overwritten (state_file_of state_dir client invoice) (Junk text) w2) /\
    stored_record sha256_16 d (utcnow (tick w)) !! "_checksum" =
      Some (JStr (sha256_16 (drop_meta d))).
Proof.
  intros Hfree.
  destruct (write_state_unlocked state_dir enable_locking utcnow uuid8 sha256_16
              client invoice d w Hfree) as (w1 & Hw & Hf & _).
  assert (Hl : files w1 !! state_file_of state_dir client invoice =
               Some (Doc (JObj (stored_record sha256_16 d (utcnow (tick w)))))).
  { rewrite Hf. apply lookup_insert_eq. }
  assert (Hne : add_suffix (state_file_of state_dir client invoice) ".bak" <>
                state_file_of state_dir client invoice).
  { apply suffixed_differs. discriminate. }
  exists w1. eexists. split; [exact Hw|]. split; [|split; [|split]].
  - unfold create_backup, bind, get_files, put_files. simpl. rewrite Hl. reflexivity.
  - simpl. rewrite lookup_insert_ne by exact Hne. reflexivity.
  - unfold read_state, bind, get_files, overwritten. simpl. rewrite lookup_insert_eq.
    rewrite recover_or_raise_spec. unfold backup_document. simpl.
    rewrite lookup_insert_ne by (apply not_eq_sym, Hne). rewrite lookup_insert_eq.
    assert (Ht : truthy (JObj (stored_record sha256_16 d (utcnow (tick w)))) = true).
    { simpl. unfold stored_record.
      destruct (map_to_list _) eqn:E; [|reflexivity].
      apply map_to_list_empty_iff in E.
      apply (f_equal (fun m => m !! "_version")) in E.
      rewrite lookup_insert_eq, lookup_empty in E. discriminate. }
    rewrite Ht. reflexivity.
  - unfold stored_record. rewrite !lookup_insert_ne by discriminate.
    apply lookup_insert_eq.
Qed.


Lemma bind_step {A B} (m : M A) (k : A -> M B) w a w' :
  m w = (inr a, w') -> bind m k w = k a w'.
Proof. intros Hm. unfold bind. now rewrite Hm. Qed.

Lemma finally_step {A} (body : M A) (cleanup : M unit) w r w' w'' :
  body w = (r, w') -> cleanup w' = (inr tt, w'') -> finally body cleanup w = (r, w'').
Proof. intros Hb Hc. unfold finally. now rewrite Hb, Hc. Qed.

Lemma archive_tmp_is_not_active client invoice :
  add_suffix (archive_file_of state_dir client invoice) ".tmp" <>
  state_file_of state_dir client invoice.
Proof.
  unfold archive_file_of, state_file_of.
  change (state_dir ++ ["archive"; client; invoice +:+ ".json"])
    with (state_dir ++ ["archive"] ++ [client; invoice +:+ ".json"]).
  rewrite app_assoc, add_suffix_state_file, <- app_assoc.
  intros Heq. apply app_inv_head in Heq. discriminate.
Qed.

(** X19: with locking off, [mark_paid] on a record written by
    [write_state] returns the archive path.  The archive then holds the
    record as read back, with [status] "paid", [paid_at] and the
    payment, and without a checksum; the active state file is gone, so
    [read_state] returns [None]; and two events were added, a
    [state_update] with the paid record and a [paid] event with the
    payment. *)
Theorem mark_paid_moves_record_to_archive (client invoice : string)
    (d payment : gmap string json) (w : World) :
  exists w1 w2 paid,
    write_state state_dir false utcnow uuid8 sha256_16 client invoice d w =
      (inr (state_file_of state_dir client invoice), w1) /\
    mark_paid state_dir false utcnow uuid8 sha256_16 client invoice payment w1 =
      (inr (archive_file_of state_dir client invoice), w2) /\
    paid = paid_record
             (<["_version" := JStr "1.0"]>
                (<["_updated_at" := JStr (utcnow (tick w))]> (delete "_checksum" d)))
             payment (utcnow (tick w1)) /\
    files w2 !! archive_file_of state_dir client invoice = Some (Doc (JObj paid)) /\
    paid !! "_checksum" = None /\
    files w2 !! state_file_of state_dir client invoice = None /\
    read_state state_dir sha256_16 client invoice true w2 = (inr None, w2) /\
    map (fun e => (event e, data e)) (skipn (length (event_log w1)) (event_log w2)) =
      [("state_update", JObj paid); ("paid", JObj payment)].
Proof.
  assert (Hfree : forall w', false = true ->
                  _locks w' !! state_file_of state_dir client invoice <> Some true)
    by discriminate.
  destruct (write_state_unlocked state_dir false utcnow uuid8 sha256_16
              client invoice d w (Hfree w)) as (w1 & Hw & Hf & Hlog & Htick & _).
  assert (Hl : files w1 !! state_file_of state_dir client invoice =
               Some (Doc (JObj (stored_record sha256_16 d (utcnow (tick w)))))).
  { rewrite Hf. apply lookup_insert_eq. }
  set (loaded := <["_version" := JStr "1.0"]>
                   (<["_updated_at" := JStr (utcnow (tick w))]> (delete "_checksum" d))).
  set (paid := paid_record loaded payment (utcnow (tick w1))).
  set (w1a := mkWorld (files w1) (event_log w1) (_locks w1) (S (tick w1))).
  destruct (write_state_unlocked state_dir false utcnow uuid8 sha256_16
              client invoice paid w1a (Hfree w1a)) as (w1b & Hw' & Hf' & Hlog' & Htick' & _).
  assert (Hl' : files w1b !! state_file_of state_dir client invoice =
                Some (Doc (JObj (stored_record sha256_16 paid (utcnow (tick w1a)))))).
  { rewrite Hf'. apply lookup_insert_eq. }
  exists w1. eexists. exists paid. split; [exact Hw|].
  split; [|split; [reflexivity|]].
  - unfold mark_paid.
    rewrite (bind_step _ _ w1 true w1)
      by (unfold exists_file; rewrite Hl; reflexivity).
    cbn [negb].
    eapply finally_step; [|reflexivity].
    rewrite (bind_step _ _ w1 true w1) by reflexivity.
    rewrite (bind_step _ _ _ _ _ (read_stored state_dir sha256_16 client invoice d _ w1 Hl)).
    rewrite (bind_step _ _ w1 (utcnow (tick w1)) w1a) by reflexivity.
    fold loaded. fold (paid_record loaded payment (utcnow (tick w1))). fold paid.
    rewrite (bind_step _ _ _ _ _ Hw').
    erewrite (bind_step (atomic_write _ _)); [|reflexivity].
    erewrite (bind_step (unlink _)).
    2:{ unfold unlink, atomic_write, bind, get_files, put_files. cbn [files fst snd].
        rewrite lookup_insert_ne by (apply archive_is_not_active).
        rewrite lookup_delete_ne by (apply archive_tmp_is_not_active).
        rewrite lookup_insert_ne by (apply archive_tmp_is_not_active).
        rewrite Hl'. reflexivity. }
    erewrite (bind_step (_log_event _ _ _ _ _ _)); [|reflexivity].
    reflexivity.
  - cbn [files event_log].
    split; [|split; [|split; [|split]]].
    + rewrite lookup_delete_ne by (apply not_eq_sym, archive_is_not_active).
      apply lookup_insert_eq.
    + unfold paid, paid_record, loaded. rewrite !lookup_insert_ne by discriminate.
      apply lookup_delete_eq.
    + apply lookup_delete_eq.
    + unfold read_state, bind, get_files. cbn [files]. rewrite lookup_delete_eq. reflexivity.
    + rewrite Hlog'. cbn [event_log w1a]. rewrite <- app_assoc.
      rewrite skipn_app, skipn_all, Nat.sub_diag. reflexivity.
Qed.

End InvoiceStateArchive.

Section InvoiceStateLogExamples.
Import InvoiceState.

(** A first write into an empty store, locking on, read back. *)
Lemma write_then_read_round_trip_witness :
  exists w1,
    write_state demo_dir true demo_clock demo_uuid demo_digest "acme" "INV-001"
      demo_record empty_world = (inr ["state"; "acme"; "INV-001.json"], w1) /\
    read_state demo_dir demo_digest "acme" "INV-001" true w1 =
      (inr (Some (JObj (<["_version" := JStr "1.0"]>
                          (<["_updated_at" := JStr "2026-02-11T12:00:00"]>
                             (delete "_checksum" demo_record))))), w1).
Proof.
  destruct (write_then_read_round_trip demo_dir true demo_clock demo_uuid demo_digest
              "acme" "INV-001" demo_record empty_world
              ltac:(intros _; vm_compute; discriminate))
    as (w1 & Hw & Hr & _).
  exists w1. split; [exact Hw | exact Hr].
Defined.

(** A write while the lock of the record is held. *)
Lemma write_state_on_held_lock_witness :
  exists w1,
    write_state demo_dir true demo_clock demo_uuid demo_digest "acme" "INV-001"
      demo_record locked_world = (inl (StateLockError ["state"; "acme"; "INV-001.json"]), w1) /\
    files w1 = files locked_world /\ event_log w1 = event_log locked_world /\
    _locks w1 !! ["state"; "acme"; "INV-001.json"] = Some false.
Proof.
  apply (write_state_on_held_lock demo_dir true demo_clock demo_uuid demo_digest
           "acme" "INV-001" demo_record locked_world eq_refl).
  vm_compute. reflexivity.
Defined.

(** A record written, backed up and then overwritten by text that does
    not parse. *)
Lemma backup_restores_unreadable_state_witness :
  exists w1 w2,
    write_state demo_dir false demo_clock demo_uuid demo_digest "acme" "INV-001"
      demo_record empty_world = (inr ["state"; "acme"; "INV-001.json"], w1) /\
    create_backup demo_dir "acme" "INV-001" w1 =
      (inr ["state"; "acme"; "INV-001.json.bak"], w2) /\
    fst (read_state demo_dir demo_digest "acme" "INV-001" true
           (overwritten ["state"; "acme"; "INV-001.json"] (Junk "{") w2)) =
      inr (Some (JObj (stored_record demo_digest demo_record "2026-02-11T12:00:00"))).
Proof.
  destruct (backup_restores_unreadable_state demo_dir demo_clock demo_uuid demo_digest
              false "acme" "INV-001" demo_record "{" empty_world
              ltac:(discriminate))
    as (w1 & w2 & Hw & Hb & _ & Hr & _).
  exists w1, w2. split; [exact Hw|]. split; [exact Hb|].
  change (state_file_of demo_dir "acme" "INV-001")
    with ["state"; "acme"; "INV-001.json"] in Hr.
  rewrite Hr. reflexivity.
Defined.

End InvoiceStateLogExamples.

(** ** The payment checker: which invoice a payment matches *)

Section PaymentCheckerMatch.
Import PaymentChecker.
#[local] Open Scope Q_scope.



End PaymentCheckerMatch.


(** ** The parser's confidence score *)

Section PdfParserConfidence.
Import PdfParser.
#[local] Open Scope Q_scope.

Lemma weight_of_positive (ws : list (string * Q)) (field : string) (w : Q) :
  Forall (fun fw => 0 < snd fw) ws -> weight_of ws field = Some w -> 0 < w.
Proof.
  induction ws as [|[f x] rest IH]; intros Hall Hw; [discriminate|].
  simpl in Hw. destruct (String.eqb f field).
  - injection Hw as <-. exact (Forall_inv Hall).
  - apply IH; [exact (Forall_inv_tail Hall) | exact Hw].
Qed.

Lemma confidence_loop_bounds (ws : list (string * Q)) (breakdown : list (string * Q)) :
  Forall (fun fw => 0 < snd fw) ws ->
  Forall (fun fc => snd fc <= 1) breakdown ->
  forall tw s, 0 <= s -> s <= tw ->
    0 <= snd (confidence_loop ws breakdown tw s) /\
    snd (confidence_loop ws breakdown tw s) <= fst (confidence_loop ws breakdown tw s) /\
    tw <= fst (confidence_loop ws breakdown tw s) /\
    (0 < s -> 0 < snd (confidence_loop ws breakdown tw s)) /\
    (existsb (counted ws) breakdown = true -> 0 < snd (confidence_loop ws breakdown tw s)) /\
    (existsb (counted ws) breakdown = false -> confidence_loop ws breakdown tw s = (tw, s)).
Proof.
  intros Hws. induction breakdown as [|[field c] rest IH]; intros Hall tw s Hs Hst.
  - simpl. repeat split; auto; try lra; discriminate.
  - pose proof (Forall_inv Hall) as Hc. simpl in Hc.
    specialize (IH (Forall_inv_tail Hall)).
    cbn [confidence_loop existsb]. unfold counted at 1 3. cbn [fst snd].
    destruct (RateLimiter.Qltb 0 c) eqn:Hpos.
    + apply Qltb_lt in Hpos.
      destruct (weight_of ws field) as [w|] eqn:Hw.
      * pose proof (weight_of_positive ws field w Hws Hw) as Hwpos.
        assert (Hcw : 0 < c * w) by (apply Qmult_lt_0_compat; assumption).
        assert (Hle : c * w <= w).
        { nra. }
        destruct (IH (tw + w) (s + c * w) ltac:(lra) ltac:(lra))
          as (I1 & I2 & I3 & I4 & I5 & I6).
        cbn [andb orb].
        split; [exact I1|]. split; [exact I2|]. split; [lra|].
        split; [intros; apply I4; lra|]. split; [intros; apply I4; lra|discriminate].
      * cbn [andb orb]. destruct (IH tw s Hs Hst) as (I1 & I2 & I3 & I4 & I5 & I6).
        repeat split; auto.
    + cbn [andb orb]. destruct (IH tw s Hs Hst) as (I1 & I2 & I3 & I4 & I5 & I6).
      repeat split; auto.
Qed.

Lemma weights_positive : Forall (fun fw => 0 < snd fw) weights.
Proof. repeat constructor. Qed.

(** X21: the overall confidence of a parsed invoice is a score.  When
    no field confidence exceeds 1, [_calculate_confidence] with the
    parser's weights lies between 0 and 1; it is positive as soon as one
    weighted field was found, and it is 0 when none was, in which case
    [route_by_confidence] routes the invoice to manual entry. *)
Theorem calculate_confidence_is_a_score (confidence_breakdown : list (string * Q)) :
  Forall (fun fc => snd fc <= 1) confidence_breakdown ->
  0 <= _calculate_confidence weights confidence_breakdown <= 1 /\
  (existsb (counted weights) confidence_breakdown = true ->
   0 < _calculate_confidence weights confidence_breakdown) /\
  (existsb (counted weights) confidence_breakdown = false ->
   _calculate_confidence weights confidence_breakdown = 0 /\
   forall invoice_number state_dir,
     status (route_by_confidence (_calculate_confidence weights confidence_breakdown)
               invoice_number state_dir) = manual).
Proof.
  intros Hall.
  destruct (confidence_loop_bounds weights confidence_breakdown weights_positive Hall
              0 0 ltac:(lra) ltac:(lra)) as (H1 & H2 & H3 & _ & H5 & H6).
  unfold _calculate_confidence.
  destruct (confidence_loop weights confidence_breakdown 0 0) as [tw s] eqn:Hloop.
  cbn [fst snd] in *.
  destruct (RateLimiter.Qltb 0 tw) eqn:Htw.
  - apply Qltb_lt in Htw. split; [split|split].
    + apply Qle_shift_div_l; [exact Htw|]. lra.
    + apply Qle_shift_div_r; [exact Htw|]. lra.
    + intros Hex. apply Qlt_shift_div_l; [exact Htw|]. specialize (H5 Hex). lra.
    + intros Hno. specialize (H6 Hno). injection H6 as -> ->. lra.
  - split; [lra|]. split.
    + intros Hex. specialize (H5 Hex). apply Qltb_ge in Htw. lra.
    + intros _. split; reflexivity.
Qed.

End PdfParserConfidence.

Section PdfParserConfidenceExamples.
Import PdfParser.
#[local] Open Scope Q_scope.

(** Number and amount found by their exact patterns, client by "Bill
    To", no date and no items. *)
Lemma calculate_confidence_is_a_score_witness :
  0 <= _calculate_confidence weights
         [("invoice_number", 1); ("client_name", 95 # 100); ("amount", 1);
          ("due_date", 0); ("items", 0)] <= 1.
Proof.
  apply (proj1 (calculate_confidence_is_a_score
                  [("invoice_number", 1); ("client_name", 95 # 100); ("amount", 1);
                   ("due_date", 0); ("items", 0)]
                  ltac:(repeat constructor; vm_compute; discriminate))).
Defined.

End PdfParserConfidenceExamples.

(** ** The ledger: lines inserted and removed *)

Section LedgerLines.
Import Ledger.

Lemma split_on_nonempty sep s : split_on sep s <> [].
Proof.
  destruct s as [|c s]; simpl; [discriminate|].
  destruct (Ascii.eqb c sep); [discriminate|].
  destruct (split_on sep s); discriminate.
Qed.

Lemma join_cons (sep x y : string) (l : list string) :
  join sep (x :: y :: l) = x +:+ sep +:+ join sep (y :: l).
Proof. reflexivity. Qed.

Lemma join_split (s : string) : join NL (split_on LF s) = s.
Proof.
  induction s as [|c s IH]; [reflexivity|].
  simpl split_on. destruct (Ascii.eqb_spec c LF) as [->|Hne].
  - destruct (split_on LF s) as [|x l] eqn:E; [now apply split_on_nonempty in E|].
    rewrite join_cons, IH. reflexivity.
  - destruct (split_on LF s) as [|x l] eqn:E; [now apply split_on_nonempty in E|].
    destruct l as [|y l].
    + simpl in *. now rewrite IH.
    + rewrite join_cons in *. rewrite append_cons. now rewrite IH.
Qed.

Lemma split_on_append_sep (x rest : string) :
  free_of LF x = true ->
  split_on LF (x +:+ NL +:+ rest) = x :: split_on LF rest.
Proof.
  induction x as [|c x IH]; intros Hx.
  - reflexivity.
  - simpl in Hx. apply andb_true_iff in Hx. destruct Hx as [Hc Hx].
    rewrite append_cons. simpl split_on.
    apply negb_true_iff in Hc. rewrite Hc. now rewrite IH.
Qed.

Lemma split_on_free (x : string) : free_of LF x = true -> split_on LF x = [x].
Proof.
  induction x as [|c x IH]; intros Hx; [reflexivity|].
  simpl in Hx. apply andb_true_iff in Hx. destruct Hx as [Hc Hx].
  simpl. apply negb_true_iff in Hc. rewrite Hc. now rewrite IH.
Qed.

Lemma split_join (l : list string) :
  l <> [] -> Forall (fun x => free_of LF x = true) l -> split_on LF (join NL l) = l.
Proof.
  induction l as [|x l IH]; intros Hne Hall; [congruence|].
  destruct l as [|y l].
  - simpl. apply split_on_free. exact (Forall_inv Hall).
  - rewrite join_cons. rewrite split_on_append_sep by exact (Forall_inv Hall).
    f_equal. apply IH; [discriminate | exact (Forall_inv_tail Hall)].
Qed.

Lemma split_on_lines_free (s : string) :
  Forall (fun x => free_of LF x = true) (split_on LF s).
Proof.
  induction s as [|c s IH]; [repeat constructor|].
  simpl. destruct (Ascii.eqb c LF) eqn:E.
  - constructor; [reflexivity | exact IH].
  - destruct (split_on LF s) as [|x l]; [repeat constructor; simpl; now rewrite E|].
    constructor; [|exact (Forall_inv_tail IH)].
    simpl. rewrite E. exact (Forall_inv IH).
Qed.

Lemma line_contains (needle line s : string) :
  In line (split_on LF s) -> contains needle line = true -> contains needle s = true.
Proof.
  intros Hin Hc. destruct (join_member NL line _ Hin) as (pre & post & Hj).
  rewrite join_split in Hj. subst s.
  eapply contains_trans; [exact Hc|]. apply contains_append.
Qed.

(** What [scan_section] finds. *)
Lemma scan_section_spec header (lines : list string) :
  forall i found,
    match scan_section header lines i found with
    | (Some si, next) =>
        (found = Some si \/
         (i <= si < i + length lines)%nat /\
         String.eqb (strip (nth (si - i) lines "")) header = true) /\
        match next with
        | Some n => (i <= n < i + length lines)%nat /\
                    (found = Some si \/ (si < n)%nat)
        | None => True
        end
    | (None, next) => found = None /\ next = None /\
                      Forall (fun line => String.eqb (strip line) header = false) lines
    end.
Proof.
  induction lines as [|line rest IH]; intros i found.
  - simpl. destruct found; auto.
  - simpl scan_section. destruct (String.eqb (strip line) header) eqn:E.
    + specialize (IH (S i) (Some i)).
      destruct (scan_section header rest (S i) (Some i)) as [[si|] next].
      * destruct IH as [Hsi Hnext]. split.
        -- right. destruct Hsi as [[= <-]|[Hr Hs]].
           ++ rewrite Nat.sub_diag. simpl. split; [lia|exact E].
           ++ split; [simpl; lia|].
              replace (si - i)%nat with (S (si - S i)) by lia. exact Hs.
        -- destruct next as [n|]; [|exact I].
           destruct Hnext as [Hr Hn]. split; [simpl; lia|].
           right. destruct Hn as [[= <-]|Hn]; lia.
      * destruct IH as [[=] _].
    + destruct found as [f|].
      * destruct (String.prefix "## " line).
        -- split; [now left|]. split; [simpl; lia | now left].
        -- specialize (IH (S i) (Some f)).
           destruct (scan_section header rest (S i) (Some f)) as [[si|] next].
           ++ destruct IH as [Hsi Hnext]. split.
              ** destruct Hsi as [Hsi|[Hr Hs]]; [now left|right].
                 split; [simpl; lia|].
                 replace (si - i)%nat with (S (si - S i)) by lia. exact Hs.
              ** destruct next as [n|]; [|exact I].
                 destruct Hnext as [Hr Hn]. split; [simpl; lia | exact Hn].
           ++ destruct IH as [[=] _].
      * specialize (IH (S i) None).
        destruct (scan_section header rest (S i) None) as [[si|] next].
        -- destruct IH as [Hsi Hnext]. split.
           ++ right. destruct Hsi as [[=]|[Hr Hs]].
              split; [simpl; lia|].
              replace (si - i)%nat with (S (si - S i)) by lia. exact Hs.
           ++ destruct next as [n|]; [|exact I].
              destruct Hnext as [Hr Hn]. split; [simpl; lia|].
              right. destruct Hn as [[=]|Hn]. exact Hn.
        -- destruct IH as (_ & -> & Hall). repeat split. constructor; assumption.
Qed.



Lemma pop_first_none needle (lines : list string) :
  Forall (fun line => contains needle line = false) lines ->
  forall n, pop_first needle lines n = None.
Proof.
  induction lines as [|line rest IH]; intros Hall n; [now destruct n|].
  destruct n as [|n]; [reflexivity|]. simpl.
  rewrite (Forall_inv Hall). rewrite (IH (Forall_inv_tail Hall)). reflexivity.
Qed.

Lemma remove_from_unpaid_absent (num : string) (l : Ledger) :
  _invoice_exists l num = false -> _remove_from_unpaid num l = (false, l).
Proof.
  intros Habs. unfold _remove_from_unpaid.
  destruct (scan_section "## Unpaid" (split_on LF (content l)) 0 None) as [[start|] fe];
    [|reflexivity].
  rewrite pop_first_none; [reflexivity|].
  apply Forall_drop. rewrite Forall_forall. intros line Hin.
  apply list_elem_of_In in Hin.
  destruct (contains (backticked num) line) eqn:E; [|reflexivity].
  unfold _invoice_exists in Habs. rewrite (line_contains _ _ _ Hin E) in Habs. discriminate.
Qed.

(** X23: [mark_paid] and [escalate] for an invoice whose back-quoted
    number is nowhere in the ledger raise "not found in unpaid section"
    and leave the file and the totals as they were. *)
Theorem moving_an_unknown_invoice_changes_nothing (num reason : string) (amount_ : Z)
    (date method : option string) (l : Ledger) :
  _invoice_exists l num = false ->
  mark_paid num amount_ date method l = (inl (NotInUnpaid num), l) /\
  escalate num amount_ reason date l = (inl (NotInUnpaid num), l).
Proof.
  intros Habs. unfold mark_paid, escalate.
  rewrite (remove_from_unpaid_absent num l Habs). split; reflexivity.
Qed.

Lemma pop_first_some needle (lines : list string) :
  forall n rest,
    pop_first needle lines n = Some rest ->
    exists before line after,
      lines = before ++ line :: after /\ rest = before ++ after /\
      (length before < n)%nat /\
      contains needle line = true /\
      Forall (fun x => contains needle x = false) before.
Proof.
  induction lines as [|line0 rest0 IH]; intros n rest Hpop; [now destruct n|].
  destruct n as [|n]; [discriminate|]. simpl in Hpop.
  destruct (contains needle line0) eqn:E.
  - injection Hpop as <-. exists [], line0, rest0. simpl.
    repeat split; auto. lia.
  - destruct (pop_first needle rest0 n) as [r|] eqn:Hp; [|discriminate].
    injection Hpop as <-.
    destruct (IH n r Hp) as (before & line & after & -> & -> & Hlen & Hc & Hall).
    exists (line0 :: before), line, after. simpl. repeat split; auto. lia.
Qed.

(** X24: [_remove_from_unpaid] removes one line or nothing.  When it
    returns [False] the ledger is unchanged.  When it returns [True],
    the new text is the old lines joined again with a single line left
    out: that line holds the back-quoted number, it stands at or after
    the "## Unpaid" header, no line between the header and it holds the
    number, and the totals are kept. *)
Theorem remove_from_unpaid_pops_one_line (num : string) (l : Ledger) :
  (fst (_remove_from_unpaid num l) = false -> snd (_remove_from_unpaid num l) = l) /\
  (fst (_remove_from_unpaid num l) = true ->
   exists unpaid_start before line after,
     split_on LF (content l) = before ++ line :: after /\
     (unpaid_start <= length before)%nat /\
     String.eqb (strip (nth unpaid_start (split_on LF (content l)) "")) "## Unpaid" = true /\
     contains (backticked num) line = true /\
     Forall (fun x => contains (backticked num) x = false) (skipn unpaid_start before) /\
     content (snd (_remove_from_unpaid num l)) = join NL (before ++ after) /\
     _totals (snd (_remove_from_unpaid num l)) = _totals l).
Proof.
  unfold _remove_from_unpaid.
  pose proof (scan_section_spec "## Unpaid" (split_on LF (content l)) 0 None) as Hscan.
  destruct (scan_section "## Unpaid" (split_on LF (content l)) 0 None) as [[start|] fe].
  2:{ split; [reflexivity | discriminate]. }
  destruct Hscan as [[[=]|[Hr Hs]] _]. rewrite Nat.sub_0_r in Hs.
  destruct (pop_first _ _ _) as [rest|] eqn:Hpop.
  2:{ split; [reflexivity | discriminate]. }
  split; [discriminate|]. intros _.
  destruct (pop_first_some _ _ _ _ Hpop) as (before & line & after & Hl & -> & _ & Hc & Hall).
  exists start, (firstn start (split_on LF (content l)) ++ before), line, after.
  assert (Hlen : length (firstn start (split_on LF (content l))) = start).
  { rewrite length_firstn. lia. }
  split; [|split; [|split; [exact Hs|split; [exact Hc|split; [|split]]]]].
  - rewrite <- app_assoc, <- Hl. symmetry. apply firstn_skipn.
  - rewrite length_app. lia.
  - rewrite skipn_app, Hlen, Nat.sub_diag. simpl.
    rewrite skipn_all2 by lia. exact Hall.
  - cbn [snd content]. now rewrite app_assoc.
  - reflexivity.
Qed.

(** *** Characters that survive [strip] *)

Lemma free_of_rev_app c (s1 s2 : string) :
  free_of c (String.rev_app s1 s2) = free_of c s1 && free_of c s2.
Proof.
  revert s2. induction s1 as [|x s1 IH]; intros s2; [reflexivity|].
  simpl. rewrite IH. simpl. destruct (Ascii.eqb x c); simpl.
  - apply andb_false_r.
  - reflexivity.
Qed.

Lemma free_of_lstrip c (s : string) :
  is_whitespace c = false -> free_of c (lstrip s) = free_of c s.
Proof.
  intros Hc. induction s as [|x s IH]; [reflexivity|].
  simpl lstrip. destruct (is_whitespace x) eqn:Hx; [|reflexivity].
  rewrite IH. simpl. destruct (Ascii.eqb_spec x c) as [->|]; [congruence|reflexivity].
Qed.

Lemma free_of_strip c (s : string) :
  is_whitespace c = false -> free_of c (strip s) = free_of c s.
Proof.
  intros Hc. unfold strip, String.rev.
  rewrite free_of_rev_app, andb_true_r, free_of_lstrip by exact Hc.
  rewrite free_of_rev_app, andb_true_r. apply free_of_lstrip, Hc.
Qed.

(** A line that holds the character [c] does not strip to a header
    without it. *)
Lemma strip_differs c (line header : string) :
  is_whitespace c = false -> free_of c header = true -> free_of c line = false ->
  String.eqb (strip line) header = false.
Proof.
  intros Hc Hh Hl. destruct (String.eqb_spec (strip line) header) as [E|]; [|reflexivity].
  rewrite <- E, free_of_strip in Hh by exact Hc. congruence.
Qed.

Lemma free_of_split c (s : string) :
  free_of c s = false ->
  exists pre rest, s = pre +:+ String c rest /\ free_of c pre = true.
Proof.
  induction s as [|x s IH]; [discriminate|].
  simpl. destruct (Ascii.eqb_spec x c) as [->|Hne]; simpl.
  - intros _. exists "", s. split; reflexivity.
  - intros Hs. destruct (IH Hs) as (pre & rest & -> & Hpre).
    exists (String x pre), rest. split; [reflexivity|].
    simpl. rewrite Hpre. destruct (Ascii.eqb_spec x c); [contradiction|reflexivity].
Qed.

(** *** [replace] line by line *)

Section ReplaceLines.
Variables old new : string.

Lemma prefix_before (c : ascii) (rest : string) :
  free_of c old = true ->
  forall pre, String.prefix old (pre +:+ String c rest) = String.prefix old pre.
Proof.
  induction old as [|a o IH]; intros Hfree pre.
  - now destruct pre.
  - simpl in Hfree. apply andb_true_iff in Hfree. destruct Hfree as [Ha Hfree].
    destruct pre as [|x pre]; rewrite ?append_cons, ?append_empty; simpl.
    + destruct (ascii_dec a c) as [->|]; [|reflexivity].
      rewrite Ascii.eqb_refl in Ha. discriminate.
    + destruct (ascii_dec a x); [|reflexivity]. apply IH, Hfree.
Qed.

Lemma prefix_length (a s : string) :
  String.prefix a s = true -> (String.length a <= String.length s)%nat.
Proof.
  revert s. induction a as [|x a IH]; intros s Hp; simpl; [lia|].
  destruct s as [|y s]; simpl in Hp; [discriminate|].
  destruct (ascii_dec x y); [|discriminate]. simpl. apply le_n_S, IH, Hp.
Qed.

Lemma replace_from_line (a : ascii) (o rest : string) :
  old = String a o -> free_of LF old = true ->
  forall pre skip, (skip <= String.length pre)%nat ->
    replace_from old new skip (pre +:+ String LF rest) =
    replace_from old new skip pre +:+ String LF (replace_from old new 0 rest).
Proof.
  intros Hold Hfree. induction pre as [|x pre IH]; intros skip Hskip.
  - simpl in Hskip. assert (skip = 0%nat) as -> by lia.
    rewrite append_empty, replace_from_cons.
    assert (Hp : String.prefix old (String LF rest) = false).
    { rewrite Hold in *. simpl in *. destruct (ascii_dec a LF) as [->|]; [|reflexivity].
      rewrite Ascii.eqb_refl in Hfree. discriminate. }
    rewrite Hp. reflexivity.
  - rewrite append_cons, !replace_from_cons. destruct skip as [|k].
    + rewrite <- append_cons, (prefix_before LF rest Hfree (String x pre)).
      destruct (String.prefix old (String x pre)) eqn:Hp.
      * apply prefix_length in Hp. simpl in Hp.
        rewrite IH by lia. now rewrite append_assoc'.
      * rewrite IH by lia. reflexivity.
    + simpl in Hskip. apply IH. lia.
Qed.

Lemma replace_lines (a : ascii) (o : string) (lines : list string) :
  old = String a o -> free_of LF old = true -> lines <> [] ->
  replace old new (join NL lines) = join NL (map (replace old new) lines).
Proof.
  intros Hold Hfree. 
  assert (Hrep : forall s, replace old new s = replace_from old new 0 s).
  { intros s. unfold replace. now rewrite Hold. }
  induction lines as [|x lines IH]; intros Hne; [congruence|].
  destruct lines as [|y lines]; [reflexivity|].
  cbn [map]. rewrite !join_cons. rewrite Hrep.
  change (x +:+ NL +:+ join NL (y :: lines)) with (x +:+ String LF (join NL (y :: lines))).
  rewrite (replace_from_line a o _ Hold Hfree x 0%nat) by lia.
  rewrite <- !Hrep. rewrite IH by discriminate. reflexivity.
Qed.

Lemma free_of_replace_from c (s : string) :
  free_of c new = true -> free_of c s = true ->
  forall skip, free_of c (replace_from old new skip s) = true.
Proof.
  intros Hnew. induction s as [|x s IH]; intros Hs skip; [reflexivity|].
  simpl in Hs. apply andb_true_iff in Hs. destruct Hs as [Hx Hs].
  rewrite replace_from_cons. destruct skip as [|k]; [|apply IH, Hs].
  destruct (String.prefix old (String x s)).
  - rewrite free_of_append, Hnew. apply IH, Hs.
  - simpl. rewrite Hx. apply IH, Hs.
Qed.

Lemma split_replace (a : ascii) (o s : string) :
  old = String a o -> free_of LF old = true -> free_of LF new = true ->
  split_on LF (replace old new s) = map (replace old new) (split_on LF s).
Proof.
  intros Hold Hfree Hnew.
  rewrite <- (join_split s) at 1.
  rewrite (replace_lines a o _ Hold Hfree (split_on_nonempty LF s)).
  apply split_join.
  - intros E. apply map_eq_nil in E. now apply split_on_nonempty in E.
  - apply Forall_map. eapply Forall_impl; [apply split_on_lines_free|].
    intros line Hline. simpl.
    replace (replace old new line) with (replace_from old new 0 line)
      by (unfold replace; now rewrite Hold).
    apply free_of_replace_from; assumption.
Qed.

(** *** Tests that a replacement of starred text does not change *)

Lemma replace_from_unstarred (o n s : string) :
  old = String "*" o -> free_of "*" s = true -> replace_from old new 0 s = s.
Proof.
  intros Hold Hs.
  rewrite <- (append_empty_r s) at 1.
  rewrite (replace_from_through old new "*" o s "" Hold Hs). apply append_empty_r.
Qed.

Lemma replace_from_starred (o n s : string) :
  old = String "*" o -> new = String "*" n -> free_of "*" s = false ->
  free_of "*" (replace_from old new 0 s) = false.
Proof.
  intros Hold Hnew Hs.
  destruct (free_of_split "*" s Hs) as (pre & rest & -> & Hpre).
  rewrite (replace_from_through old new "*" o pre _ Hold Hpre).
  rewrite free_of_append, replace_from_cons.
  destruct (String.prefix old _).
  - rewrite Hnew, append_cons. simpl. apply andb_false_r.
  - simpl. apply andb_false_r.
Qed.

Lemma strip_test_replace (o n header line : string) :
  old = String "*" o -> new = String "*" n -> free_of "*" header = true ->
  String.eqb (strip (replace old new line)) header = String.eqb (strip line) header.
Proof.
  intros Hold Hnew Hh.
  assert (Hrep : replace old new line = replace_from old new 0 line).
  { unfold replace. now rewrite Hold. }
  rewrite Hrep. destruct (free_of "*" line) eqn:Hl.
  - now rewrite (replace_from_unstarred o n line Hold Hl).
  - rewrite (strip_differs "*" line header eq_refl Hh Hl).
    apply (strip_differs "*" _ header eq_refl Hh).
    apply (replace_from_starred o n line Hold Hnew Hl).
Qed.

Lemma prefix_test_replace (o n pat : string) :
  old = String "*" o -> new = String "*" n -> free_of "*" pat = true ->
  forall s, String.prefix pat (replace old new s) = String.prefix pat s.
Proof.
  intros Hold Hnew.
  assert (Hrep : forall s, replace old new s = replace_from old new 0 s).
  { intros s. unfold replace. now rewrite Hold. }
  induction pat as [|a pat IH]; intros Hpat s; rewrite Hrep.
  - now destruct s; destruct (replace_from old new 0 _).
  - simpl in Hpat. apply andb_true_iff in Hpat. destruct Hpat as [Ha Hpat].
    destruct s as [|x s]; [reflexivity|].
    rewrite replace_from_cons.
    destruct (String.prefix old (String x s)) eqn:Hp.
    + rewrite Hold in Hp. cbn [String.prefix] in Hp.
      destruct (ascii_dec "*" x) as [<-|]; [|discriminate].
      rewrite Hnew, append_cons. cbn [String.prefix].
      destruct (ascii_dec a "*") as [->|]; [|reflexivity].
      rewrite Ascii.eqb_refl in Ha. discriminate.
    + cbn [String.prefix]. destruct (ascii_dec a x); [|reflexivity].
      rewrite <- Hrep. apply IH, Hpat.
Qed.

End ReplaceLines.

(** *** The scan of a section, with a line inserted below its header *)

Lemma scan_section_map (f : string -> string) header (lines : list string) :
  (forall line, String.eqb (strip (f line)) header = String.eqb (strip line) header) ->
  (forall line, String.prefix "## " (f line) = String.prefix "## " line) ->
  forall i found,
    scan_section header (map f lines) i found = scan_section header lines i found.
Proof.
  intros Hh Hp. induction lines as [|line rest IH]; intros i found; [reflexivity|].
  cbn [map scan_section]. rewrite Hh, Hp, !IH. reflexivity.
Qed.

Lemma scan_section_shift header (lines : list string) :
  forall i f next,
    (f < i)%nat ->
    scan_section header lines i (Some f) = (Some f, next) ->
    scan_section header lines (S i) (Some f) = (Some f, option_map S next).
Proof.
  induction lines as [|line rest IH]; intros i f next Hf Hscan.
  - simpl in *. now injection Hscan as <-.
  - cbn [scan_section] in *. destruct (String.eqb (strip line) header).
    + pose proof (scan_section_spec header rest (S i) (Some i)) as Hspec.
      rewrite Hscan in Hspec. destruct Hspec as [[[= ->]|[Hr _]] _]; lia.
    + destruct (String.prefix "## " line).
      * now injection Hscan as <-.
      * apply IH; [lia | exact Hscan].
Qed.

Lemma scan_section_skip header (e : string) (lines : list string) (i f : nat) :
  String.eqb (strip e) header = false -> String.prefix "## " e = false ->
  scan_section header (e :: lines) i (Some f) = scan_section header lines (S i) (Some f).
Proof. intros He Hp. cbn [scan_section]. now rewrite He, Hp. Qed.

Lemma scan_section_insert header (e : string) (lines : list string) :
  String.eqb (strip e) header = false -> String.prefix "## " e = false ->
  forall i found si next p,
    scan_section header lines i found = (Some si, next) ->
    (si < p)%nat -> (i <= p)%nat ->
    (forall n, next = Some n -> (p <= n)%nat) ->
    scan_section header (insert_at (p - i) e lines) i found = (Some si, option_map S next).
Proof.
  intros He Hp. induction lines as [|line rest IH]; intros i found si next p Hscan Hsi Hi Hn.
  - simpl in Hscan. injection Hscan as -> <-.
    unfold insert_at. rewrite firstn_nil, skipn_nil. cbn [app].
    now rewrite (scan_section_skip header e [] i si He Hp).
  - destruct (Nat.eq_dec p i) as [->|Hne].
    + rewrite Nat.sub_diag. unfold insert_at. cbn [firstn skipn app].
      pose proof (scan_section_spec header (line :: rest) i found) as Hspec.
      rewrite Hscan in Hspec. destruct Hspec as [[->|[Hr _]] _]; [|lia].
      rewrite (scan_section_skip header e _ i si He Hp).
      apply scan_section_shift; [exact Hsi | exact Hscan].
    + replace (p - i)%nat with (S (p - S i)) by lia.
      unfold insert_at. cbn [firstn skipn app]. fold (insert_at (p - S i) e rest).
      cbn [scan_section] in *. destruct (String.eqb (strip line) header).
      * apply IH; [exact Hscan | lia | lia | exact Hn].
      * destruct found as [f|].
        -- destruct (String.prefix "## " line).
           ++ injection Hscan as -> <-. specialize (Hn i eq_refl). lia.
           ++ apply IH; [exact Hscan | lia | lia | exact Hn].
        -- apply IH; [exact Hscan | lia | lia | exact Hn].
Qed.

Lemma insert_at_clip {A} (i : nat) (x : A) (l : list A) :
  insert_at i x l = insert_at (Nat.min i (length l)) x l.
Proof.
  unfold insert_at. destruct (Nat.le_gt_cases i (length l)) as [H|H].
  - now rewrite Nat.min_l by exact H.
  - rewrite Nat.min_r by lia.
    rewrite !firstn_all2, !skipn_all2 by lia. reflexivity.
Qed.

Lemma nth_insert_at {A} (i : nat) (x d : A) (l : list A) :
  (i <= length l)%nat -> nth i (insert_at i x l) d = x.
Proof.
  intros Hi. unfold insert_at.
  rewrite app_nth2; rewrite length_firstn, Nat.min_l by exact Hi; [|lia].
  now rewrite Nat.sub_diag.
Qed.

Lemma pop_first_found needle (before : list string) (x : string) (after : list string) :
  contains needle x = true ->
  forall n, (length before < n)%nat ->
    exists rest, pop_first needle (before ++ x :: after) n = Some rest.
Proof.
  intros Hc. induction before as [|line before IH]; intros n Hn.
  - destruct n as [|n]; [lia|]. cbn [app pop_first]. rewrite Hc. now exists after.
  - destruct n as [|n]; [simpl in Hn; lia|]. cbn [app pop_first].
    destruct (contains needle line); [now eexists|].
    destruct (IH n ltac:(simpl in Hn; lia)) as [r ->]. now exists (line :: r).
Qed.

(** *** Amounts are printed on one line *)

Lemma free_of_LF_uint (d : Decimal.uint) : free_of LF (NilEmpty.string_of_uint d) = true.
Proof. induction d; simpl; auto. Qed.

Lemma free_of_LF_digits (n : Z) : free_of LF (digits n) = true.
Proof.
  unfold digits, NilZero.string_of_uint.
  destruct (N.to_uint (Z.to_N n)) eqn:E; try (rewrite <- E; apply free_of_LF_uint).
  reflexivity.
Qed.

Lemma free_of_list c (l : list ascii) :
  free_of c (string_of_list_ascii l) = forallb (fun x => negb (Ascii.eqb x c)) l.
Proof. induction l as [|x l IH]; [reflexivity|]. simpl. now rewrite IH. Qed.

Lemma forallb_list_ascii c (s : string) :
  forallb (fun x => negb (Ascii.eqb x c)) (list_ascii_of_string s) = free_of c s.
Proof. induction s as [|x s IH]; [reflexivity|]. simpl. now rewrite IH. Qed.

Lemma forallb_rev {A} (f : A -> bool) (l : list A) : forallb f (rev l) = forallb f l.
Proof.
  induction l as [|x l IH]; [reflexivity|].
  simpl. rewrite forallb_app, IH. simpl. rewrite andb_true_r. apply andb_comm.
Qed.

Lemma forallb_group_thousands (f : ascii -> bool) (l : list ascii) :
  f "," %char = true ->
  forall seen, forallb f (group_thousands l seen) = forallb f l.
Proof.
  intros Hf. induction l as [|x l IH]; intros seen; [reflexivity|].
  simpl. destruct (seen =? 3)%nat; simpl; rewrite ?Hf, IH; reflexivity.
Qed.

Lemma free_of_LF_with_commas (s : string) :
  free_of LF (with_commas s) = free_of LF s.
Proof.
  unfold with_commas.
  rewrite free_of_list, forallb_rev, forallb_group_thousands by reflexivity.
  rewrite forallb_rev. apply forallb_list_ascii.
Qed.

Lemma free_of_LF_format_2f (commas : bool) (cents : Z) :
  free_of LF (format_2f commas cents) = true.
Proof.
  unfold format_2f. rewrite !free_of_append.
  destruct commas; rewrite ?free_of_LF_with_commas, free_of_LF_digits;
    destruct (cents <? 0)%Z; destruct (Z.abs cents mod 100 <? 10)%Z;
    rewrite ?free_of_append, ?free_of_LF_digits; reflexivity.
Qed.


(** *** Adding an invoice, then moving it *)

(** [_update_totals] rewrites the ledger line by line, and leaves the
    header tests and the back-quoted numbers without an asterisk as they
    are. *)
Lemma update_totals_lines section amount_ l :
  exists f : string -> string,
    split_on LF (content (_update_totals section amount_ l)) =
      map f (split_on LF (content l)) /\
    (forall header line, free_of "*" header = true ->
       String.eqb (strip (f line)) header = String.eqb (strip line) header) /\
    (forall line, String.prefix "## " (f line) = String.prefix "## " line) /\
    (forall num line, free_of "*" num = true ->
       contains (backticked num) line = true -> contains (backticked num) (f line) = true).
Proof.
  set (totals := add_total section amount_ (_totals l)).
  set (old_total := "**" +:+ title section +:+ " Total:** $" +:+
                    format_2f false (total_of section totals - amount_)).
  set (new_total := "**" +:+ title section +:+ " Total:** $" +:+
                    format_2f false (total_of section totals)).
  set (old_grand := "**Grand Total:** $" +:+ format_2f false (grand_total totals - amount_)).
  set (new_grand := "**Grand Total:** $" +:+ format_2f false (grand_total totals)).
  exists (fun line => replace old_grand new_grand (replace old_total new_total line)).
  assert (Ht : forall x, free_of LF ("**" +:+ title section +:+ " Total:** $" +:+
                                     format_2f false x) = true).
  { intros x. rewrite !free_of_append, free_of_LF_format_2f. now destruct section. }
  assert (Hg : forall x, free_of LF ("**Grand Total:** $" +:+ format_2f false x) = true).
  { intros x. now rewrite free_of_append, free_of_LF_format_2f. }
  split; [|split; [|split]].
  - rewrite update_totals_content. fold totals old_total new_total old_grand new_grand.
    rewrite (split_replace old_grand new_grand "*" _ _ eq_refl (Hg _) (Hg _)).
    rewrite (split_replace old_total new_total "*" _ _ eq_refl (Ht _) (Ht _)).
    now rewrite map_map.
  - intros header line Hh.
    rewrite (strip_test_replace old_grand new_grand _ _ header _ eq_refl eq_refl Hh).
    apply (strip_test_replace old_total new_total _ _ header _ eq_refl eq_refl Hh).
  - intros line.
    rewrite (prefix_test_replace old_grand new_grand _ _ "## " eq_refl eq_refl eq_refl).
    apply (prefix_test_replace old_total new_total _ _ "## " eq_refl eq_refl eq_refl).
  - intros num line Hnum Hin.
    assert (Hneedle : free_of "*" (String "`" (num +:+ "`")) = true).
    { simpl. rewrite free_of_append, Hnum. reflexivity. }
    change (backticked num) with (String "`" (num +:+ "`")) in *.
    eapply replace_keeps; [reflexivity | exact Hneedle | |].
    + unfold old_grand. rewrite free_of_append, free_of_format_2f. reflexivity.
    + eapply replace_keeps; [reflexivity | exact Hneedle | | exact Hin].
      unfold old_total. rewrite !free_of_append, free_of_format_2f.
      destruct section; reflexivity.
Qed.

Lemma entry_line_shape num amount_ client due :
  free_of LF num = true -> free_of LF client = true -> free_of LF due = true ->
  free_of LF (entry_line num amount_ client due) = true /\
  String.prefix "## " (entry_line num amount_ client due) = false /\
  forall header, free_of "`" header = true ->
    String.eqb (strip (entry_line num amount_ client due)) header = false.
Proof.
  intros Hnum Hclient Hdue. split; [|split].
  - unfold entry_line. rewrite !free_of_append, Hnum, Hclient, free_of_LF_format_2f.
    destruct (String.eqb due ""); rewrite ?free_of_append, ?Hdue; reflexivity.
  - reflexivity.
  - intros header Hh. apply (strip_differs "`" _ header eq_refl Hh). reflexivity.
Qed.

Lemma backticked_has_backtick num line :
  contains (backticked num) line = true -> free_of "`" line = false.
Proof.
  intros Hc. apply contains_split in Hc. destruct Hc as (pre & post & ->).
  unfold backticked. rewrite free_of_append, append_cons. simpl.
  apply andb_false_r.
Qed.

(** A header outside an entry survives [_remove_from_unpaid]. *)
Lemma remove_from_unpaid_keeps_header num header l :
  free_of "`" header = true ->
  Exists (fun line => String.eqb (strip line) header = true) (split_on LF (content l)) ->
  Exists (fun line => String.eqb (strip line) header = true)
    (split_on LF (content (snd (_remove_from_unpaid num l)))).
Proof.
  intros Hh Hex. unfold _remove_from_unpaid.
  destruct (scan_section "## Unpaid" (split_on LF (content l)) 0 None) as [[start|] fe];
    [|exact Hex].
  destruct (pop_first _ _ _) as [rest|] eqn:Hpop; [|exact Hex].
  destruct (pop_first_some _ _ _ _ Hpop) as (before & line & after & Hl & -> & _ & Hc & _).
  cbn [snd content].
  pose proof (split_on_lines_free (content l)) as Hfree.
  rewrite <- (firstn_skipn start (split_on LF (content l))), Hl in Hex, Hfree.
  assert (Hex' : Exists (fun line => String.eqb (strip line) header = true)
                   (firstn start (split_on LF (content l)) ++ before ++ after)).
  { apply Exists_app in Hex. destruct Hex as [Hex|Hex]; [apply Exists_app; now left|].
    apply Exists_app in Hex. destruct Hex as [Hex|Hex].
    - apply Exists_app. right. apply Exists_app. now left.
    - apply Exists_cons in Hex. destruct Hex as [Hex|Hex].
      + rewrite (strip_differs "`" line header eq_refl Hh
                   (backticked_has_backtick num line Hc)) in Hex. discriminate.
      + apply Exists_app. right. apply Exists_app. now right. }
  rewrite split_join; [exact Hex'| |].
  - intros E. rewrite E in Hex'. inversion Hex'.
  - apply Forall_app in Hfree. destruct Hfree as [H1 H2].
    apply Forall_app in H2. destruct H2 as [H2 H3].
    apply Forall_app. split; [exact H1|]. apply Forall_app. split; [exact H2|].
    exact (Forall_inv_tail H3).
Qed.

Lemma append_to_section_found header entry l :
  Exists (fun line => String.eqb (strip line) header = true) (split_on LF (content l)) ->
  exists l1, _append_to_section header entry l = inr l1.
Proof.
  intros Hex. unfold _append_to_section.
  pose proof (scan_section_spec header (split_on LF (content l)) 0 None) as Hspec.
  destruct (scan_section header (split_on LF (content l)) 0 None) as [[si|] next];
    [now eexists|].
  destruct Hspec as (_ & _ & Hall). apply Exists_exists in Hex.
  destruct Hex as (line & Hin & Hline). rewrite Forall_forall in Hall.
  rewrite (Hall line Hin) in Hline. discriminate.
Qed.

(** The lines of the ledger after [add_invoice] has accepted an invoice:
    the entry stands below the "## Unpaid" header and before the next
    header, and every line has gone through the replacements of
    [_update_totals]. *)
Lemma add_invoice_lines (data : InvoiceData) (num client : string) (amount_ : Z)
    (l l' : Ledger) :
  invoice_number data = Some num -> amount data = Some amount_ ->
  client_name data = Some client ->
  free_of LF num = true -> free_of LF client = true -> free_of LF (due_date data) = true ->
  add_invoice data l = (inr true, l') ->
  exists (f : string -> string) si next p,
    scan_section "## Unpaid" (split_on LF (content l)) 0 None = (Some si, next) /\
    (si < p <= length (split_on LF (content l)))%nat /\
    (forall n, next = Some n -> (p <= n)%nat) /\
    split_on LF (content l') =
      map f (insert_at p (entry_line num amount_ client (due_date data))
               (split_on LF (content l))) /\
    (forall header line, free_of "*" header = true ->
       String.eqb (strip (f line)) header = String.eqb (strip line) header) /\
    (forall line, String.prefix "## " (f line) = String.prefix "## " line) /\
    (forall num line, free_of "*" num = true ->
       contains (backticked num) line = true -> contains (backticked num) (f line) = true).
Proof.
  intros Hn Ha Hc Hnum Hclient Hdue Hadd.
  unfold add_invoice in Hadd. rewrite Hn, Ha, Hc in Hadd.
  destruct (_invoice_exists l num); [discriminate|].
  destruct (_append_to_section "## Unpaid" _ l) as [e|l1] eqn:Happ; [discriminate|].
  injection Hadd as <-.
  destruct (entry_line_shape num amount_ client (due_date data) Hnum Hclient Hdue)
    as (Hfree & _ & _).
  set (entry := entry_line num amount_ client (due_date data)) in *.
  set (lines := split_on LF (content l)) in *.
  unfold _append_to_section in Happ. fold lines in Happ.
  pose proof (scan_section_spec "## Unpaid" lines 0 None) as Hspec.
  destruct (scan_section "## Unpaid" lines 0 None) as [[si|] next] eqn:Hscan;
    [|discriminate].
  injection Happ as <-.
  destruct Hspec as [[[=]|[Hr _]] Hnext]. simpl in Hr.
  set (idx := match next with
              | Some n => Nat.min (si + 2) n
              | None => (si + 2)%nat
              end) in *.
  set (p := Nat.min idx (length lines)).
  assert (Hlines1 : split_on LF (join NL (insert_at idx entry lines)) =
                    insert_at p entry lines).
  { rewrite (insert_at_clip idx). fold p. apply split_join.
    - unfold insert_at. destruct (firstn _ _); discriminate.
    - unfold insert_at. apply Forall_app. split.
      + apply Forall_take, split_on_lines_free.
      + constructor; [exact Hfree|]. apply Forall_drop, split_on_lines_free. }
  destruct (update_totals_lines unpaid amount_
              (mkLedger (join NL (insert_at idx entry lines)) (_totals l)))
    as (f & Hlines & Hh & Hp & Hk).
  cbn [content] in Hlines. rewrite Hlines1 in Hlines.
  exists f, si, next, p. split; [reflexivity|]. split; [|split; [|split; [exact Hlines|]]].
  - unfold p, idx. destruct next as [n|]; [|lia].
    destruct Hnext as [_ [[=]|Hlt]]. lia.
  - intros n ->. unfold p, idx. lia.
  - split; [exact Hh|]. split; [exact Hp | exact Hk].
Qed.

Lemma added_invoice_is_removed (data : InvoiceData) (num client : string) (amount_ : Z)
    (l l' : Ledger) :
  invoice_number data = Some num -> amount data = Some amount_ ->
  client_name data = Some client ->
  free_of "*" num = true -> free_of LF num = true ->
  free_of LF client = true -> free_of LF (due_date data) = true ->
  add_invoice data l = (inr true, l') ->
  fst (_remove_from_unpaid num l') = true.
Proof.
  intros Hn Ha Hc Hstar Hnum Hclient Hdue Hadd.
  destruct (add_invoice_lines data num client amount_ l l' Hn Ha Hc Hnum Hclient Hdue Hadd)
    as (f & si & next & p & Hscan & Hsp & Hpn & Hlines & Hh & Hp & Hk).
  destruct (entry_line_shape num amount_ client (due_date data) Hnum Hclient Hdue)
    as (_ & Hprefix & Hheader).
  set (entry := entry_line num amount_ client (due_date data)) in *.
  set (lines := split_on LF (content l)) in *.
  unfold _remove_from_unpaid. rewrite Hlines.
  rewrite (scan_section_map f "## Unpaid" _ (fun line => Hh "## Unpaid" line eq_refl) Hp).
  pose proof (scan_section_insert "## Unpaid" entry lines (Hheader "## Unpaid" eq_refl)
                Hprefix 0%nat None si next p Hscan ltac:(lia) ltac:(lia) Hpn) as Hins.
  rewrite Nat.sub_0_r in Hins. rewrite Hins.
  assert (Hskip : skipn si (map f (insert_at p entry lines)) =
                  map f (skipn si (firstn p lines)) ++ f entry :: map f (skipn p lines)).
  { unfold insert_at. rewrite <- skipn_map, map_app, skipn_app.
    rewrite length_map, length_firstn.
    replace (si - Nat.min p (length lines))%nat with 0%nat by lia.
    rewrite skipn_map. reflexivity. }
  rewrite Hskip.
  assert (Hlen : length (map f (skipn si (firstn p lines))) = (p - si)%nat).
  { rewrite length_map, length_skipn, length_firstn. lia. }
  destruct (pop_first_found (backticked num) (map f (skipn si (firstn p lines)))
              (f entry) (map f (skipn p lines))
              (Hk num entry Hstar (entry_line_has_number num amount_ client (due_date data)))
              (match option_map S next with
               | Some (S e) => S e
               | _ => length (map f (insert_at p entry lines))
               end - si)%nat) as [rest ->]; [|reflexivity].
  rewrite Hlen. destruct next as [n|]; cbn [option_map].
  - specialize (Hpn n eq_refl). lia.
  - rewrite length_map. unfold insert_at.
    rewrite length_app, length_firstn. cbn [length]. rewrite length_skipn. lia.
Qed.

Lemma has_section_Exists header l :
  has_section header l = true <->
  Exists (fun line => String.eqb (strip line) header = true) (split_on LF (content l)).
Proof.
  unfold has_section. rewrite existsb_exists, Exists_exists. split.
  - intros (line & Hin & Hline). exists line. split; [|exact Hline].
    now apply list_elem_of_In.
  - intros (line & Hin & Hline). exists line. split; [|exact Hline].
    now apply list_elem_of_In.
Qed.

Lemma add_invoice_keeps_header (data : InvoiceData) (num client header : string)
    (amount_ : Z) (l l' : Ledger) :
  invoice_number data = Some num -> amount data = Some amount_ ->
  client_name data = Some client ->
  free_of LF num = true -> free_of LF client = true -> free_of LF (due_date data) = true ->
  free_of "*" header = true ->
  add_invoice data l = (inr true, l') ->
  has_section header l = true -> has_section header l' = true.
Proof.
  intros Hn Ha Hc Hnum Hclient Hdue Hheader Hadd.
  destruct (add_invoice_lines data num client amount_ l l' Hn Ha Hc Hnum Hclient Hdue Hadd)
    as (f & si & next & p & _ & _ & _ & Hlines & Hh & _ & _).
  unfold has_section. rewrite Hlines, !existsb_exists.
  intros (line & Hin & Hline). exists (f line). split.
  - apply in_map. unfold insert_at.
    rewrite <- (firstn_skipn p (split_on LF (content l))) in Hin.
    apply in_app_or in Hin. apply in_or_app.
    destruct Hin as [Hin|Hin]; [now left | right; now right].
  - now rewrite Hh.
Qed.

(** X28: an invoice that [add_invoice] has accepted can be moved.  When
    the number holds no asterisk and number, client and due date hold no
    line break, [_remove_from_unpaid] finds the entry, so [mark_paid] and
    [escalate] do not raise "not found in unpaid section"; and when the
    ledger had a "## Paid" (a "## Escalated") line before the invoice
    was added, [mark_paid] ([escalate]) returns [True]. *)
Theorem added_invoice_can_be_moved (data : InvoiceData) (num client : string)
    (amount_ : Z) (l l' : Ledger) :
  invoice_number data = Some num -> amount data = Some amount_ ->
  client_name data = Some client ->
  free_of "*" num = true ->
  one_line num = true -> one_line client = true -> one_line (due_date data) = true ->
  add_invoice data l = (inr true, l') ->
  fst (_remove_from_unpaid num l') = true /\
  (forall paid_amount payment_date payment_method,
     fst (mark_paid num paid_amount payment_date payment_method l')
       <> inl (NotInUnpaid num) /\
     (has_section "## Paid" l = true ->
      fst (mark_paid num paid_amount payment_date payment_method l') = inr true)) /\
  (forall owed reason escalated_date,
     fst (escalate num owed reason escalated_date l') <> inl (NotInUnpaid num) /\
     (has_section "## Escalated" l = true ->
      fst (escalate num owed reason escalated_date l') = inr true)).
Proof.
  intros Hn Ha Hc Hstar Hnum Hclient Hdue Hadd.
  unfold one_line in Hnum, Hclient, Hdue.
  apply andb_true_iff in Hnum, Hclient, Hdue.
  destruct Hnum as [Hnum _], Hclient as [Hclient _], Hdue as [Hdue _].
  pose proof (added_invoice_is_removed data num client amount_ l l'
                Hn Ha Hc Hstar Hnum Hclient Hdue Hadd) as Hrem.
  pose proof (fun header Hh =>
                add_invoice_keeps_header data num client header amount_ l l'
                  Hn Ha Hc Hnum Hclient Hdue Hh Hadd) as Hkeep.
  pose proof (fun header Hh => remove_from_unpaid_keeps_header num header l' Hh) as Hstay.
  split; [exact Hrem|]. split.
  - intros paid_amount payment_date payment_method. unfold mark_paid.
    destruct (_remove_from_unpaid num l') as [[|] l2]; [|discriminate Hrem].
    cbn [snd] in Hstay. split.
    + destruct (_append_to_section _ _ l2); discriminate.
    + intros Hsec. apply (Hkeep "## Paid" eq_refl), has_section_Exists in Hsec.
      destruct (append_to_section_found "## Paid"
                  (paid_entry num paid_amount payment_date payment_method) l2
                  (Hstay "## Paid" eq_refl Hsec)) as [l3 ->].
      reflexivity.
  - intros owed reason escalated_date. unfold escalate.
    destruct (_remove_from_unpaid num l') as [[|] l2]; [|discriminate Hrem].
    cbn [snd] in Hstay. split.
    + destruct (_append_to_section _ _ l2); discriminate.
    + intros Hsec. apply (Hkeep "## Escalated" eq_refl), has_section_Exists in Hsec.
      destruct (append_to_section_found "## Escalated"
                  (escalated_entry num owed reason escalated_date) l2
                  (Hstay "## Escalated" eq_refl Hsec)) as [l3 ->].
      reflexivity.
Qed.

End LedgerLines.

Section LedgerLinesExamples.
Import Ledger.


(** Marking paid an invoice a new ledger has never seen. *)
Lemma moving_an_unknown_invoice_changes_nothing_witness :
  mark_paid "INV-404" 500 None None new_ledger = (inl (NotInUnpaid "INV-404"), new_ledger) /\
  escalate "INV-404" 500 "no answer" None new_ledger =
    (inl (NotInUnpaid "INV-404"), new_ledger).
Proof.
  apply (moving_an_unknown_invoice_changes_nothing "INV-404" "no answer" 500 None None
           new_ledger).
  vm_compute. reflexivity.
Defined.

(** INV-001 added to a new ledger, then marked paid or escalated. *)
Lemma added_invoice_can_be_moved_witness :
  fst (mark_paid "INV-001" 150000 (Some "2026-03-05") None
         (snd (add_invoice invoice_INV_001 new_ledger))) = inr true /\
  fst (escalate "INV-001" 150000 "no answer" None
         (snd (add_invoice invoice_INV_001 new_ledger))) = inr true.
Proof.
  destruct (added_invoice_can_be_moved invoice_INV_001 "INV-001" "ACME" 150000
              new_ledger (snd (add_invoice invoice_INV_001 new_ledger))
              eq_refl eq_refl eq_refl eq_refl eq_refl eq_refl eq_refl
              ltac:(vm_compute; reflexivity)) as (_ & Hpaid & Hescalated).
  split.
  - apply (Hpaid 150000 (Some "2026-03-05") None). reflexivity.
  - apply (Hescalated 150000 "no answer" None). reflexivity.
Defined.

End LedgerLinesExamples.

(** ** The Graph email sender: retries and the rate limiter *)

Section GraphEmailSenderRetry.
Import GraphEmailSender.

Lemma total_nap_app a b : total_nap (a ++ b) = total_nap a + total_nap b.
Proof. induction a as [|x a IH]; simpl; [reflexivity|]. rewrite IH. lia. Qed.

Lemma retry_loop_bounds (fuel : nat) :
  forall (attempt max_attempts : Z) (to : string) (s : Session) (naps : list Z),
    0 <= attempt ->
    attempt + Z.of_nat fuel = max_attempts ->
    outcomes (snd (fst (retry_loop fuel attempt max_attempts to s naps))) = outcomes s /\
    authorization (snd (fst (retry_loop fuel attempt max_attempts to s naps)))
      = authorization s /\
    (posts s <= posts (snd (fst (retry_loop fuel attempt max_attempts to s naps)))
      <= posts s + fuel)%nat /\
    ((0 < fuel)%nat ->
     (posts s < posts (snd (fst (retry_loop fuel attempt max_attempts to s naps))))%nat) /\
    (exists new,
       snd (retry_loop fuel attempt max_attempts to s naps) = naps ++ new /\
       0 <= total_nap new <= Z.max 0 (2 ^ (max_attempts - 1) - 2 ^ attempt)) /\
    (forall info,
       fst (fst (retry_loop fuel attempt max_attempts to s naps)) = inr info ->
       attempts info =
         attempt + Z.of_nat (posts (snd (fst (retry_loop fuel attempt max_attempts to s naps)))
                             - posts s) /\
       recipient info = to /\ status info = "sent" /\
       exists mid,
         outcomes s (posts (snd (fst (retry_loop fuel attempt max_attempts to s naps))) - 1)%nat
           = Accepted mid /\
         message_id info = default "unknown" mid).
Proof.
  induction fuel as [|fuel IH]; intros attempt max_attempts to s naps Ha Hsum.
  - simpl. repeat split; try lia.
    + exists []. rewrite app_nil_r. simpl. split; [reflexivity|lia].
    + discriminate.
    + discriminate.
    + discriminate.
    + discriminate.
  - assert (Hpow : 2 ^ (attempt + 1) = 2 * 2 ^ attempt).
    { rewrite Z.pow_add_r by lia. lia. }
    assert (Hpos : 0 < 2 ^ attempt) by (apply Z.pow_pos_nonneg; lia).
    assert (Hmono : attempt < max_attempts - 1 -> 2 ^ (attempt + 1) <= 2 ^ (max_attempts - 1)).
    { intros Hlt. apply Z.pow_le_mono_r; lia. }
    assert (Hrec : forall naps0,
      let out := retry_loop fuel (attempt + 1) max_attempts to
                   (mkSession (outcomes s) (S (posts s)) (authorization s)) naps0 in
      (attempt < max_attempts - 1 \/ naps0 = naps) ->
      (naps0 = naps \/ naps0 = naps ++ [2 ^ attempt] /\ attempt < max_attempts - 1) ->
      outcomes (snd (fst out)) = outcomes s /\
      authorization (snd (fst out)) = authorization s /\
      (posts s <= posts (snd (fst out)) <= posts s + S fuel)%nat /\
      ((0 < S fuel)%nat -> (posts s < posts (snd (fst out)))%nat) /\
      (exists new, snd out = naps ++ new /\
         0 <= total_nap new <= Z.max 0 (2 ^ (max_attempts - 1) - 2 ^ attempt)) /\
      (forall info, fst (fst out) = inr info ->
         attempts info = attempt + Z.of_nat (posts (snd (fst out)) - posts s) /\
         recipient info = to /\ status info = "sent" /\
         exists mid, outcomes s (posts (snd (fst out)) - 1)%nat = Accepted mid /\
                     message_id info = default "unknown" mid)).
    { intros naps0 out _ Hn0.
      destruct (IH (attempt + 1) max_attempts to
                  (mkSession (outcomes s) (S (posts s)) (authorization s)) naps0
                  ltac:(lia) ltac:(lia)) as (H1 & H2 & H3 & H4 & (new & H5 & H6) & H7).
      fold out in H1, H2, H3, H4, H5, H7. cbn [outcomes posts authorization] in *.
      split; [exact H1|]. split; [exact H2|]. split; [lia|]. split; [lia|]. split.
      - destruct Hn0 as [->|[-> Hlt]].
        + exists new. split; [exact H5|]. lia.
        + exists ([2 ^ attempt] ++ new). split; [now rewrite H5, app_assoc|].
          rewrite total_nap_app. simpl. specialize (Hmono Hlt). lia.
      - intros info Hinfo. destruct (H7 info Hinfo) as (A1 & A2 & A3 & mid & A4 & A5).
        split; [lia|]. split; [exact A2|]. split; [exact A3|]. exists mid. split; assumption. }
    cbn [retry_loop]. unfold post.
    destruct (outcomes s (posts s)) as [mid|response reason| |reason] eqn:Hout.
    + cbn [fst snd outcomes posts authorization]. repeat split; try lia.
      * exists []. rewrite app_nil_r. simpl. split; [reflexivity|lia].
      * injection H as <-. simpl. lia.
      * injection H as <-. reflexivity.
      * injection H as <-. reflexivity.
      * injection H as <-. exists mid. simpl. rewrite Nat.sub_0_r.
        split; [exact Hout|reflexivity].
    + destruct (status_code_of response =? 429).
      { destruct (Z.ltb_spec attempt (max_attempts - 1)).
        - apply Hrec; [now left | right; split; [reflexivity|assumption]].
        - apply Hrec; [now right | now left]. }
      destruct (status_code_of response =? 401).
      { cbn [fst snd outcomes posts authorization]. repeat split; try lia; try discriminate.
        exists []. rewrite app_nil_r. simpl. split; [reflexivity|lia]. }
      destruct (status_code_of response =? 403).
      { cbn [fst snd outcomes posts authorization]. repeat split; try lia; try discriminate.
        exists []. rewrite app_nil_r. simpl. split; [reflexivity|lia]. }
      destruct (Z.eqb_spec attempt (max_attempts - 1)).
      { cbn [fst snd outcomes posts authorization]. repeat split; try lia; try discriminate.
        exists []. rewrite app_nil_r. simpl. split; [reflexivity|lia]. }
      apply Hrec; [now right | now left].
    + destruct (Z.eqb_spec attempt (max_attempts - 1)).
      { cbn [fst snd outcomes posts authorization]. repeat split; try lia; try discriminate.
        exists []. rewrite app_nil_r. simpl. split; [reflexivity|lia]. }
      apply Hrec; [left; lia | right; split; [reflexivity|lia]].
    + destruct (Z.eqb_spec attempt (max_attempts - 1)).
      { cbn [fst snd outcomes posts authorization]. repeat split; try lia; try discriminate.
        exists []. rewrite app_nil_r. simpl. split; [reflexivity|lia]. }
      apply Hrec; [left; lia | right; split; [reflexivity|lia]].
Qed.


Lemma retry_loop_no_rate_limit (fuel : nat) :
  forall (attempt max_attempts : Z) (to : string) (s : Session) (naps : list Z) msg,
    fst (fst (retry_loop fuel attempt max_attempts to s naps)) <> inl (RateLimitExceeded msg).
Proof.
  induction fuel as [|fuel IH]; intros attempt max_attempts to s naps msg; [discriminate|].
  cbn [retry_loop]. unfold post.
  destruct (outcomes s (posts s)) as [mid|response reason| |reason]; [discriminate| | |].
  - destruct (_ =? 429); [destruct (_ <? _); apply IH|].
    destruct (_ =? 401); [discriminate|].
    destruct (_ =? 403); [discriminate|].
    destruct (_ =? _); [discriminate|apply IH].
  - destruct (_ =? _); [discriminate|apply IH].
  - destruct (_ =? _); [discriminate|apply IH].
Qed.

(** A session that answers every post with an HTTP error whose status
    is read as 0 is posted to until the attempts run out, without a
    sleep. *)
Lemma retry_loop_status_unread (fuel : nat) :
  forall (attempt max_attempts : Z) (to : string) (s : Session) (naps : list Z)
         (reason : string),
    attempt + Z.of_nat fuel = max_attempts -> (0 < fuel)%nat ->
    (forall n, exists response,
        outcomes s n = HTTPError response reason /\ status_code_of response = 0) ->
    retry_loop fuel attempt max_attempts to s naps =
    (inl (Exception ("Failed to send email after " +:+ pretty max_attempts +:+
                     " attempts: " +:+ reason)),
     mkSession (outcomes s) (posts s + fuel) (authorization s), naps).
Proof.
  induction fuel as [|fuel IH]; intros attempt max_attempts to s naps reason Hsum Hfuel Hall;
    [lia|].
  cbn [retry_loop]. unfold post.
  destruct (Hall (posts s)) as (response & -> & ->).
  change (0 =? 429) with false. change (0 =? 401) with false. change (0 =? 403) with false.
  cbv iota.
  destruct (Z.eqb_spec attempt (max_attempts - 1)) as [Hlast|Hmore].
  - assert (fuel = 0%nat) as -> by lia. now rewrite Nat.add_1_r.
  - rewrite (IH (attempt + 1) max_attempts to
               (mkSession (outcomes s) (S (posts s)) (authorization s)) naps reason
               ltac:(lia) ltac:(lia) Hall).
    cbn [outcomes posts authorization]. now rewrite Nat.add_succ_r.
Qed.

(** X25: [_send_with_retry] is bounded.  For [max_attempts] that is
    not negative it posts at most [max_attempts] times (and at least
    once when [max_attempts] is positive) and sleeps at most
    [2**(max_attempts-1) - 1] seconds in all.  When it returns, the
    result says "sent", names the recipient, counts the posts made and
    carries the Message-ID of the last post (or "unknown"), which was
    accepted.  A first post that is accepted returns at once, without
    sleeping.  The status is read as
    [e.response.status_code if e.response else 0]: a first post answered
    401 or 403 raises at once without a retry when the response counts
    as true; when every post is answered by an HTTP error whose response
    counts as false, whatever its status code (401, 403 and 429 too),
    the status is read as 0, and [max_attempts] posts are made without a
    sleep before "Failed to send email after ... attempts" is raised. *)
Theorem send_with_retry_is_bounded (to : string) (max_attempts : Z) (s : Session) :
  0 <= max_attempts ->
  (posts s <= posts (snd (fst (_send_with_retry to max_attempts s)))
    <= posts s + Z.to_nat max_attempts)%nat /\
  (0 < max_attempts ->
   (posts s < posts (snd (fst (_send_with_retry to max_attempts s))))%nat) /\
  0 <= total_nap (snd (_send_with_retry to max_attempts s))
    <= Z.max 0 (2 ^ (max_attempts - 1) - 1) /\
  (forall info,
     fst (fst (_send_with_retry to max_attempts s)) = inr info ->
     attempts info =
       Z.of_nat (posts (snd (fst (_send_with_retry to max_attempts s))) - posts s) /\
     recipient info = to /\ status info = "sent" /\
     exists mid,
       outcomes s (posts (snd (fst (_send_with_retry to max_attempts s))) - 1)%nat
         = Accepted mid /\
       message_id info = default "unknown" mid) /\
  (forall mid,
     0 < max_attempts -> outcomes s (posts s) = Accepted mid ->
     _send_with_retry to max_attempts s =
     (inr (mkSendInfo "sent" (default "unknown" mid) to 1),
      mkSession (outcomes s) (S (posts s)) (authorization s), [])) /\
  (forall code body reason,
     0 < max_attempts -> code = 401 \/ code = 403 ->
     outcomes s (posts s) = HTTPError (Some (mkResponse true code body)) reason ->
     exists msg,
       _send_with_retry to max_attempts s =
       (inl (Exception msg), mkSession (outcomes s) (S (posts s)) (authorization s), [])) /\
  (forall reason,
     0 < max_attempts ->
     (forall n, exists code body,
         outcomes s n = HTTPError (Some (mkResponse false code body)) reason) ->
     _send_with_retry to max_attempts s =
     (inl (Exception ("Failed to send email after " +:+ pretty max_attempts +:+
                      " attempts: " +:+ reason)),
      mkSession (outcomes s) (posts s + Z.to_nat max_attempts) (authorization s), [])).
Proof.
  intros Hmax. unfold _send_with_retry.
  destruct (retry_loop_bounds (Z.to_nat max_attempts) 0 max_attempts to s []
              ltac:(lia) ltac:(lia)) as (_ & _ & H3 & H4 & (new & H5 & H6) & H7).
  split; [exact H3|]. split; [intros; apply H4; lia|]. split; [|split; [|split; [|split]]].
  - rewrite H5. simpl. change (2 ^ 0) with 1 in H6. exact H6.
  - intros info Hinfo. destruct (H7 info Hinfo) as (A1 & A2 & A3 & A4).
    split; [lia|]. split; [exact A2|]. split; [exact A3|exact A4].
  - intros mid Hpos Hout.
    destruct (Z.to_nat max_attempts) as [|fuel] eqn:Hf; [lia|].
    cbn [retry_loop]. unfold post. rewrite Hout. reflexivity.
  - intros code body reason Hpos Hcode Hout.
    destruct (Z.to_nat max_attempts) as [|fuel] eqn:Hf; [lia|].
    cbn [retry_loop]. unfold post. rewrite Hout.
    cbn [status_code_of truth_value status_code].
    destruct Hcode as [-> | ->]; simpl; eexists; reflexivity.
  - intros reason Hpos Hall.
    apply retry_loop_status_unread; [lia | lia |].
    intros n. destruct (Hall n) as (code & body & ->).
    eexists. split; reflexivity.
Qed.

Context {C : Type} `{TokenValidator.TokenCache C}.

(** X26: [send_email] and the rate limiter.  When the limiter refuses,
    [send_email] raises [RateLimitExceeded] and nothing else happens: no
    token validation, no post.  When the limiter grants, the send costs
    exactly one daily token whether it succeeds or fails later, makes at
    most three posts, and does not raise [RateLimitExceeded]. *)
Theorem send_email_costs_one_token (now now' : Q) (clock : Z -> Q) (to : string)
    (m : Sender C) :
  (fst (RateLimiter.try_acquire now (rate_limiter m)) = false ->
   send_email now now' clock to m =
   (inl (RateLimitExceeded ("Rate limit exceeded - cannot send to " +:+ to)),
    mkSender (snd (RateLimiter.try_acquire now (rate_limiter m)))
      (validator m) (cache m) (session m) (account_id m),
    [])) /\
  (fst (RateLimiter.try_acquire now (rate_limiter m)) = true ->
   rate_limiter (snd (fst (send_email now now' clock to m))) =
     snd (RateLimiter.try_acquire now (rate_limiter m)) /\
   RateLimiter._daily_tokens (rate_limiter (snd (fst (send_email now now' clock to m)))) =
     RateLimiter.daily_budget now (rate_limiter m) - 1 /\
   (posts (session m) <= posts (session (snd (fst (send_email now now' clock to m))))
     <= posts (session m) + 3)%nat /\
   (forall msg, fst (fst (send_email now now' clock to m)) <> inl (RateLimitExceeded msg))).
Proof.
  unfold send_email.
  destruct (RateLimiter.try_acquire now (rate_limiter m)) as [acquired limiter] eqn:Hacq.
  cbn [fst snd]. split; [intros ->; reflexivity|]. intros ->. cbn [negb].
  assert (Htok : RateLimiter._daily_tokens limiter =
                 RateLimiter.daily_budget now (rate_limiter m) - 1).
  { revert Hacq. unfold RateLimiter.try_acquire, RateLimiter.daily_budget,
      RateLimiter._can_consume_cycle_token.
    destruct (0 <? _); [|discriminate].
    destruct (_ <? _); [|discriminate].
    intros [= <-]. reflexivity. }
  destruct (TokenValidator.validate_before_request now' clock (account_id m) 300
              (validator m) (cache m)) as [[[info|msg] v] c].
  - pose proof (retry_loop_bounds (Z.to_nat 3) 0 3 to
                  (mkSession (outcomes (session m)) (posts (session m))
                     (Some ("Bearer " +:+ TokenValidator.info_access_token info))) []
                  ltac:(lia) ltac:(reflexivity)) as (_ & _ & Hp & _).
    fold (_send_with_retry to 3
            (mkSession (outcomes (session m)) (posts (session m))
               (Some ("Bearer " +:+ TokenValidator.info_access_token info)))) in Hp.
    destruct (_send_with_retry to 3 _) as [[r s'] naps] eqn:Hsend.
    cbn [fst snd rate_limiter session posts] in *.
    split; [reflexivity|]. split; [exact Htok|]. split; [exact Hp|].
    intros msg Hr. subst r.
    pose proof (retry_loop_no_rate_limit (Z.to_nat 3) 0 3 to
                  (mkSession (outcomes (session m)) (posts (session m))
                     (Some ("Bearer " +:+ TokenValidator.info_access_token info)))
                  [] msg) as Hno.
    unfold _send_with_retry in Hsend. rewrite Hsend in Hno. now apply Hno.
  - cbn [fst snd rate_limiter session]. split; [reflexivity|]. split; [exact Htok|].
    split; [lia|]. discriminate.
Qed.

End GraphEmailSenderRetry.

Section GraphEmailSenderRetryExamples.
Import GraphEmailSender.

(** A timeout, a 503 and then an accepted post: sent on the third
    attempt after sleeping one second. *)
Lemma send_with_retry_is_bounded_witness :
  (posts flaky_session <= posts (snd (fst (_send_with_retry "ap@acme.example" 3 flaky_session)))
    <= posts flaky_session + Z.to_nat 3)%nat /\
  _send_with_retry "ap@acme.example" 3 flaky_session =
    (inr (mkSendInfo "sent" "msg-1" "ap@acme.example" 3),
     mkSession (outcomes flaky_session) 3 None, [1]).
Proof.
  split.
  - apply (proj1 (send_with_retry_is_bounded "ap@acme.example" 3 flaky_session
                    ltac:(lia))).
  - vm_compute. reflexivity.
Defined.

End GraphEmailSenderRetryExamples.
(** ** The payment detector: deduplication *)

Section PaymentDetectorWindow.
Import PaymentDetector.
#[local] Open Scope Q_scope.

Lemma sightings_within_window (times : list (Q * Q)) (file_hash : string) (seen : Q)
    (recent_files : gmap string Q) :
  recent_files !! file_hash = Some seen ->
  Forall (fun t => fst t - seen < 86400) times ->
  sightings times file_hash recent_files = (repeat true (length times), recent_files).
Proof.
  intros Hseen. induction times as [|t rest IH]; intros Hall; [reflexivity|].
  simpl. unfold _is_duplicate. rewrite Hseen.
  pose proof (Forall_inv Hall) as Ht. apply Qltb_lt in Ht. rewrite Ht.
  rewrite (IH (Forall_inv_tail Hall)). reflexivity.
Qed.

(** X27: the 24-hour window of the payment detector's deduplication
    starts at the first sighting of a file hash and does not slide.  The
    first sighting is not a duplicate and its time is recorded; every
    sighting less than 86400 seconds after the recorded time is a
    duplicate and leaves the record as it is; the first sighting 86400
    seconds or more after it is processed again and its time recorded in
    place of the old one. *)
Theorem duplicate_window_is_anchored (now first : Q) (times : list (Q * Q))
    (later later_stored : Q) (file_hash : string) (recent_files : gmap string Q) :
  recent_files !! file_hash = None ->
  Forall (fun t => fst t - first < 86400) times ->
  86400 <= later - first ->
  _is_duplicate now first file_hash recent_files =
    (false, <[file_hash := first]> recent_files) /\
  sightings times file_hash (<[file_hash := first]> recent_files) =
    (repeat true (length times), <[file_hash := first]> recent_files) /\
  _is_duplicate later later_stored file_hash (<[file_hash := first]> recent_files) =
    (false, <[file_hash := later_stored]> recent_files).
Proof.
  intros Hnew Hall Hlater. split; [|split].
  - unfold _is_duplicate. now rewrite Hnew.
  - apply (sightings_within_window times file_hash first); [apply lookup_insert_eq|exact Hall].
  - unfold _is_duplicate. rewrite lookup_insert_eq.
    apply Qltb_ge in Hlater. rewrite Hlater. now rewrite insert_insert_eq.
Qed.

End PaymentDetectorWindow.

Section PaymentDetectorWindowExamples.
Import PaymentDetector.
#[local] Open Scope Q_scope.

(** A hash seen at time 0, again after ten seconds and after an hour,
    and once more after 25 hours. *)
Lemma duplicate_window_is_anchored_witness :
  sightings [(10, 10); (3600, 3600)] "9e107d9d372bb682" (<["9e107d9d372bb682" := 0]> ∅) =
    ([true; true], <["9e107d9d372bb682" := 0]> ∅) /\
  _is_duplicate 90000 90001 "9e107d9d372bb682" (<["9e107d9d372bb682" := 0]> ∅) =
    (false, <["9e107d9d372bb682" := 90001]> ∅).
Proof.
  apply (proj2 (duplicate_window_is_anchored 0 0 [(10, 10); (3600, 3600)] 90000 90001
                  "9e107d9d372bb682" ∅
                  ltac:(apply lookup_empty)
                  ltac:(repeat constructor)
                  ltac:(vm_compute; discriminate))).
Defined.

End PaymentDetectorWindowExamples.
